(** * pcs: parallel collision search (van Oorschot-Wiener), checked against its code

    A shallow embedding of the code of the repository:

    - [CompactDict]  the open-addressed dictionary of [include/mpi_naive_isend.hpp]
                     and the receiver loop of [naive_mpi_claw_search];
    - [Wrappers]     the problem wrappers and the two entry points of
                     [include/mitm.hpp];
    - [Sequential]   the chain walker, the walk-back and the main loop of
                     [mitm_sequential.hpp];
    - [Sender]       the seed stream of [include/mpi/pcs_sender.hpp];
    - [BasicDemo]    the domain and the function of [demos/basic_demo.cpp].

    Unsigned 64-bit values are integers of [Z] with the wrap-around written
    out; a C++ [assert] that fails, a read outside a vector and a division by
    zero end the run without a result ([None]). *)

From Stdlib Require Import ZArith Znumtheory Lia Bool.
From stdpp Require Import base tactics option list.

Local Open Scope Z_scope.

(** ** Machine integers *)

(** [2 ^ 64] *)
Definition u64_mod : Z := 0x10000000000000000.

(** Reduction of an integer to an unsigned 64-bit word: its 64 low bits,
    that is its residue modulo [2 ^ 64]. *)
Definition u64 (z : Z) : Z := Z.land z 0xffffffffffffffff.

Definition is_u64 (z : Z) : Prop := 0 <= z < u64_mod.

(** ** Loops

    [for_nat n body s] runs [body] at most [n] times from state [s]; the body
    answers [inl s'] to go on and [inr r] to leave the loop at once (a
    [return] or [break] inside a C++ [for]).  [for_loop] is the same loop with
    a binary bound, so that a bound such as [40 * 2^9] costs nothing when the
    loop is left early. *)

Section Loops.
Context {St R : Type}.
Variable body : St -> St + R.

Fixpoint for_nat (n : nat) (s : St) : St + R :=
  match n with
  | O => inl s
  | S n' => match body s with
            | inl s' => for_nat n' s'
            | inr r => inr r
            end
  end.

Definition then_run (x : St + R) (k : St -> St + R) : St + R :=
  match x with inl s => k s | inr r => inr r end.

Fixpoint for_pos (p : positive) (k : St -> St + R) (s : St) : St + R :=
  match p with
  | xH => then_run (body s) k
  | xO q => for_pos q (for_pos q k) s
  | xI q => then_run (body s) (for_pos q (for_pos q k))
  end.

Definition for_loop (n : N) (s : St) : St + R :=
  match n with
  | N0 => inl s
  | Npos p => for_pos p inl s
  end.
End Loops.

(** ** The compact dictionary ([include/mpi_naive_isend.hpp]) *)

Module CompactDict.

(** [struct entry { u32 k; u64 v; }] *)
Record entry : Type := Entry { k : Z; v : Z }.

(** The key of a free slot, and the prime that truncates a key to 32 bits. *)
Definition EMPTY_KEY : Z := 0xffffffff.
Definition KEY_PRIME : Z := 0xfffffffb.

(** [class CompactDict { const u64 n_slots; std::vector<entry> A; }] *)
Record dict : Type := Dict { n_slots : Z; A : list entry }.

(** The constructor: [A.resize(n_slots, {0xffffffff, 0})]. *)
Definition create (n : Z) : dict :=
  Dict n (replicate (Z.to_nat n) (Entry EMPTY_KEY 0)).

(** [A[h]]; reading outside the vector gives no value. *)
Definition slot (d : dict) (h : Z) : option entry :=
  if h <? 0 then None else A d !! Z.to_nat h.

(** [(key ^ (key >> 32)) % n_slots] *)
Definition home (key n : Z) : Z := Z.lxor key (Z.shiftr key 32) mod n.

(** [h += 1; if (h == n_slots) h = 0;] *)
Definition next_slot (d : dict) (h : Z) : Z :=
  let h := u64 (h + 1) in if h =? n_slots d then 0 else h.

(** The [for (;;)] of [insert]: walk forward from [h] to the first free
    slot.  The loop has no bound of its own; [fuel] is the number of slots
    the model is willing to look at. *)
Fixpoint insert_probe (fuel : nat) (d : dict) (h : Z) : option Z :=
  match fuel with
  | O => None
  | S fuel' =>
      match slot d h with
      | None => None
      | Some e =>
          if k e =? EMPTY_KEY then Some h
          else insert_probe fuel' d (next_slot d h)
      end
  end.

(** [void insert(u64 key, u64 value)] *)
Definition insert (fuel : nat) (key value : Z) (d : dict) : option dict :=
  if n_slots d =? 0 then None
  else
    match insert_probe fuel d (home key (n_slots d)) with
    | None => None
    | Some h =>
        if (Z.to_nat h <? length (A d))%nat
        then Some (Dict (n_slots d)
                        (<[Z.to_nat h := Entry (key mod KEY_PRIME) value]> (A d)))
        else None
    end.

(** First loop of [probe]: [Some None] is the fast path ([return 0] on a
    free slot), [Some (Some h)] the [break] on the first matching slot. *)
Fixpoint probe_find (fuel : nat) (d : dict) (key h : Z) : option (option Z) :=
  match fuel with
  | O => None
  | S fuel' =>
      match slot d h with
      | None => None
      | Some e =>
          if k e =? EMPTY_KEY then Some None
          else if k e =? key then Some (Some h)
          else probe_find fuel' d key (next_slot d h)
      end
  end.

(** Second loop of [probe]: [while (A[h].k == key)], appending [A[h].v]
    to [keys]. *)
Fixpoint probe_collect (fuel : nat) (d : dict) (key h : Z) (keys : list Z)
  : option (list Z) :=
  match fuel with
  | O => None
  | S fuel' =>
      match slot d h with
      | None => None
      | Some e =>
          if k e =? key
          then probe_collect fuel' d key (next_slot d h) (keys ++ [v e])
          else Some keys
      end
  end.

(** [int probe(u64 bigkey, u64 keys[])]; the result is [keys[0..nkeys)]. *)
Definition probe (fuel : nat) (bigkey : Z) (d : dict) : option (list Z) :=
  if n_slots d =? 0 then None
  else
    let key := bigkey mod KEY_PRIME in
    match probe_find fuel d key (home bigkey (n_slots d)) with
    | None => None
    | Some None => Some []
    | Some (Some h) => probe_collect fuel d key h []
    end.

(** A run of insertions, in order. *)
Fixpoint insert_all (fuel : nat) (kvs : list (Z * Z)) (d : dict) : option dict :=
  match kvs with
  | [] => Some d
  | (key, value) :: rest =>
      match insert fuel key value d with
      | None => None
      | Some d' => insert_all fuel rest d'
      end
  end.

(** The class invariant: the vector has [n_slots] cells. *)
Definition wf (d : dict) : Prop :=
  0 < n_slots d < u64_mod /\ Z.of_nat (length (A d)) = n_slots d.

Definition free (e : entry) : Prop := k e = EMPTY_KEY.

(** Slot [h] exists and is free; slot [h] exists and holds an entry. *)
Definition vacant (d : dict) (h : Z) : Prop :=
  exists e, slot d h = Some e /\ free e.

Definition occupied (d : dict) (h : Z) : Prop :=
  exists e, slot d h = Some e /\ ~ free e.

Definition has_free_slot (d : dict) : Prop := exists h, vacant d h.

Definition full (d : dict) : Prop :=
  forall h e, slot d h = Some e -> ~ free e.

(** The slot [t] steps after [h], wrapping at [n_slots]. *)
Definition ahead (d : dict) (h : Z) (t : nat) : Z :=
  (h + Z.of_nat t) mod n_slots d.

(** [h'] is reached from the home slot of [key] through occupied slots only. *)
Definition reachable (d : dict) (key : Z) (h' : Z) : Prop :=
  exists t : nat,
    Z.of_nat t < n_slots d /\
    h' = ahead d (home key (n_slots d)) t /\
    forall i : nat, (i < t)%nat -> occupied d (ahead d (home key (n_slots d)) i).

(** The value [y] is stored with the (truncated) key of [key] in a slot that
    is reachable from the home slot of [key]. *)
Definition stored (d : dict) (key y : Z) : Prop :=
  exists h, slot d h = Some (Entry (key mod KEY_PRIME) y) /\ reachable d key h.

(** The value [y] sits in the first slot with the truncated key of [key]
    that a probe from the home slot of [key] meets: the slots before it are
    occupied by other keys. *)
Definition first_hit (d : dict) (key y : Z) : Prop :=
  exists t : nat,
    Z.of_nat t < n_slots d /\
    slot d (ahead d (home key (n_slots d)) t) = Some (Entry (key mod KEY_PRIME) y) /\
    forall i : nat, (i < t)%nat ->
      exists e, slot d (ahead d (home key (n_slots d)) i) = Some e /\
                ~ free e /\ k e <> key mod KEY_PRIME.

(** No slot holds the truncated key [kt]. *)
Definition no_key (d : dict) (kt : Z) : Prop :=
  forall h e, slot d h = Some e -> k e <> kt.

(** The table holds the values [vals], in order, in the slots that follow
    [h0], all with the key [kt], and nothing else. *)
Definition holds_run (d : dict) (h0 kt : Z) (vals : list Z) : Prop :=
  (forall (i : nat) y, vals !! i = Some y -> slot d (ahead d h0 i) = Some (Entry kt y)) /\
  (forall h, 0 <= h < n_slots d ->
     (forall i : nat, (i < length vals)%nat -> h <> ahead d h0 i) ->
     slot d h = Some (Entry EMPTY_KEY 0)).

(** A table of four slots after [insert(5, 9)], [insert(0, 10)] and
    [insert(4, 20)]. *)
Definition table_3 : dict :=
  Dict 4 [Entry 0 10; Entry 5 9; Entry 4 20; Entry EMPTY_KEY 0].

(** Tables used as examples: a full table of one slot, and a table of four
    slots after the insertions [(0, 10)], [(4, 20)] and then [(0, 30)]. *)
Definition full_table_1 : dict := Dict 1 [Entry 0 0].

Definition table_2 : dict :=
  Dict 4 [Entry 0 10; Entry 4 20; Entry EMPTY_KEY 0; Entry EMPTY_KEY 0].

Definition table_4 : dict :=
  Dict 4 [Entry 0 10; Entry 4 20; Entry 0 30; Entry EMPTY_KEY 0].

End CompactDict.

(** ** The naive distributed claw search ([naive_mpi_claw_search]) *)

Module NaiveClaw.
Import CompactDict.

(** What the routine reads of the problem: [Pb.n], [Pb.f], [Pb.g] and
    [Pb.is_good_pair]. *)
Record problem : Type := Problem {
  n : Z;
  f : Z -> Z;
  g : Z -> Z;
  is_good_pair : Z -> Z -> bool
}.

(** The two counters of [MpiCounters] that the receiver touches:
    [ctr.collision_failure()] and [ctr.found_collision()] each add one. *)
Record counters : Type := Counters {
  n_collision_failures : Z;
  n_collisions : Z
}.

(** A message as the sender pushes it ([sendbuf.push2(x, z, target, ctr)]). *)
Record message : Type := Message { msg_x : Z; msg_z : Z; msg_target : Z }.

(** [hash = (z * 0xdeadbeef) % 0x7fffffff; target = ((int) hash) % n_recv] *)
Definition target_of (z n_recv : Z) : Z :=
  (u64 (z * 0xdeadbeef) mod 0x7fffffff) mod n_recv.

(** One turn of the sender's loop over [x] in phase [phase]. *)
Definition sender_push (Pb : problem) (phase : Z) (n_recv : Z) (x : Z) : message :=
  let z := if phase =? 0 then f Pb x else g Pb x in
  Message x z (target_of z n_recv).

(** The sender's loop [for (u64 x = lo; x < hi; x++)]. *)
Definition sender_phase (Pb : problem) (phase n_recv lo hi : Z) : list message :=
  map (fun i => sender_push Pb phase n_recv (lo + Z.of_nat i))
      (seq 0 (Z.to_nat (hi - lo))).

(** [u64 N = 1ull << Pb.n] *)
Definition domain_size (Pb : problem) : Z := u64 (Z.shiftl 1 (n Pb)).

(** The range of sender [local_rank] among [n_send] senders:
    [lo = local_rank * N / n_send] and [hi = (local_rank + 1) * N / n_send],
    the products in [u64]. *)
Definition range_lo (N n_send local_rank : Z) : Z := u64 (local_rank * N) / n_send.
Definition range_hi (N n_send local_rank : Z) : Z := u64 ((local_rank + 1) * N) / n_send.

(** What sender [local_rank] pushes in one phase. *)
Definition sender_run (Pb : problem) (phase n_recv n_send local_rank : Z) : list message :=
  let N := domain_size Pb in
  sender_phase Pb phase n_recv (range_lo N n_send local_rank) (range_hi N n_send local_rank).

(** What the senders [0 .. n_send - 1] push in one phase, by rank. *)
Definition all_senders (Pb : problem) (phase n_recv n_send : Z) : list message :=
  flat_map (fun r => sender_run Pb phase n_recv n_send (Z.of_nat r)) (seq 0 (Z.to_nat n_send)).

(** The table of a receiver of five slots after [insert(z, x)] for
    [(x, z) = (0, 0), (1, 1), (2, 2), (3, 3)]. *)
Definition toy_table : dict :=
  Dict 5 [Entry 0 0; Entry 1 1; Entry 2 2; Entry 3 3; Entry EMPTY_KEY 0].

(** The state of a receiver. *)
Record receiver : Type := Receiver {
  dict_of : dict;
  ctr : counters;
  result : list (Z * Z)
}.

(** The body of [for (int k = 0; k < nkeys; k++)] in phase 1, for the probe
    [(x, z)] and the stored value [y = keys[k]]. *)
Definition check_candidate (Pb : problem) (x z : Z) (acc : counters * list (Z * Z)) (y : Z)
  : counters * list (Z * Z) :=
  let (c, res) := acc in
  if negb (z =? f Pb y)
  then (Counters (n_collision_failures c + 1) (n_collisions c), res)
  else
    let c := Counters (n_collision_failures c) (n_collisions c + 1) in
    if is_good_pair Pb y x then (c, res ++ [(y, x)]) else (c, res).

(** What the receiver does with one received pair [(x, z)]: the [switch (phase)].
    In phase 1 the values found by [probe] go to [u64 keys[3 * Pb.n]]; a probe
    that returns more than that many values writes past the array. *)
Definition receive (fuel : nat) (Pb : problem) (phase : Z) (x z : Z) (r : receiver)
  : option receiver :=
  if phase =? 0 then
    match insert fuel z x (dict_of r) with
    | None => None
    | Some d => Some (Receiver d (ctr r) (result r))
    end
  else
    match probe fuel z (dict_of r) with
    | None => None
    | Some keys =>
        if 3 * n Pb <? Z.of_nat (length keys) then None
        else
          let (c, res) := fold_left (check_candidate Pb x z) keys (ctr r, result r) in
          Some (Receiver (dict_of r) c res)
    end.

(** All pairs a receiver gets during one phase, in the order they arrive. *)
Fixpoint receive_all (fuel : nat) (Pb : problem) (phase : Z) (msgs : list (Z * Z))
  (r : receiver) : option receiver :=
  match msgs with
  | [] => Some r
  | (x, z) :: rest =>
      match receive fuel Pb phase x z r with
      | None => None
      | Some r' => receive_all fuel Pb phase rest r'
      end
  end.

(** [ctr.reset()] at the start of a phase. *)
Definition reset (r : receiver) : receiver :=
  Receiver (dict_of r) (Counters 0 0) (result r).

(** The two phases on one receiver that owns [n_slots] slots; [msgs0] and
    [msgs1] are the pairs delivered to it in phase 0 and in phase 1.  The
    value is the receiver's [result] before the final gathering. *)
Definition receiver_run (fuel : nat) (Pb : problem) (n_slots : Z)
  (msgs0 msgs1 : list (Z * Z)) : option (list (Z * Z)) :=
  let r0 := Receiver (create n_slots) (Counters 0 0) [] in
  match receive_all fuel Pb 0 msgs0 (reset r0) with
  | None => None
  | Some r1 =>
      match receive_all fuel Pb 1 msgs1 (reset r1) with
      | None => None
      | Some r2 => Some (result r2)
      end
  end.

(** [MPI_Allgatherv]: every rank ends with the results of all ranks, in rank
    order (a sender contributes none). *)
Definition gather (per_rank : list (list (Z * Z))) : list (Z * Z) := concat per_rank.

(** The gathering as the code does it.  Every rank announces
    [recvcounts[rank] = 2 * result.size()]; [displs[i]] is the sum of the
    counts of the ranks before [i] and [acc] the sum of all counts; a rank
    writes its pairs into [tmp] (of [acc] cells, all 0 at first) from
    [displs[rank]] on; [MPI_Allgatherv] then gives every rank, in the
    [recvcounts[i]] cells from [displs[i]] on, what rank [i] wrote there; and
    the result is read back from [tmp] two cells at a time.  The counts, the
    displacements, [acc] and the offsets are [int]: they are integers here,
    none negative and none above [acc], and the gathering has a result when
    [acc] is an [int] (otherwise [acc += recvcounts[i]] overflows). *)









(** The pair [(x, z)] is one that a sender pushes in phase [phase]. *)
Definition pushed (Pb : problem) (phase : Z) (xz : Z * Z) : Prop :=
  exists n_recv,
    xz = (msg_x (sender_push Pb phase n_recv (fst xz)),
          msg_z (sender_push Pb phase n_recv (fst xz))).

(** What the result promises of a pair. *)
Definition golden (Pb : problem) (p : Z * Z) : Prop :=
  f Pb (fst p) = g Pb (snd p) /\ is_good_pair Pb (fst p) (snd p) = true.

(** A toy claw problem on 2 bits: [f x = x], [g x = 3 - x], and the pair
    [(1, 2)] is the golden one. *)
Definition toy : problem :=
  Problem 2 (fun x => x) (fun x => 3 - x) (fun y x => (y =? 1) && (x =? 2)).

End NaiveClaw.

(** ** Problem wrappers and entry points ([include/mitm.hpp]) *)

Module Wrappers.

(** [AbstractCollisionProblem]: [n], [m], [f], [is_good_pair]. *)
Record collision_problem : Type := CollisionProblem {
  cn : Z;
  cm : Z;
  cf : Z -> Z;
  c_is_good_pair : Z -> Z -> bool
}.

(** [AbstractClawProblem]: [n], [m], [f], [g], [is_good_pair]. *)
Record claw_problem : Type := ClawProblem {
  n : Z;
  m : Z;
  f : Z -> Z;
  g : Z -> Z;
  is_good_pair : Z -> Z -> bool
}.

(** *** [ConcreteCollisionProblem] *)
Module Collision.

Definition mix (i x : Z) : Z := Z.lxor i x.

(** [mixf] also counts the evaluation in [n_eval]. *)
Definition mixf (pb : collision_problem) (i x : Z) (n_eval : Z) : Z * Z :=
  (cf pb (mix i x), u64 (n_eval + 1)).

Definition mix_good_pair (pb : collision_problem) (i x0 x1 : Z) : bool :=
  c_is_good_pair pb (mix i x0) (mix i x1).

End Collision.

(** [collision_search], given the triple [(i, x, y)] that [_Engine::run]
    returned; the three assertions guard the [return]. *)
Definition collision_search (pb : collision_problem) (run : Z * Z * Z) : option (Z * Z) :=
  let '(i, x, y) := run in
  let a := Collision.mix i x in
  let b := Collision.mix i y in
  if negb (a =? b) && (cf pb a =? cf pb b) && c_is_good_pair pb a b
  then Some (a, b)
  else None.

(** *** [EqualSizeClawWrapper] *)
Module EqualSize.

(** [((x * (i | 1)) >> (pb.m - 1)) & 1], as a [bool]. *)
Definition choose (pb : claw_problem) (i x : Z) : bool :=
  negb (Z.land (Z.shiftr (u64 (x * Z.lor i 1)) (m pb - 1)) 1 =? 0).

Definition mix (i x : Z) : Z := Z.lxor i x.

Definition mixf (pb : claw_problem) (i x : Z) (n_eval : Z) : Z * Z :=
  let y := mix i x in
  (if choose pb i x then f pb y else g pb y, u64 (n_eval + 1)).

(** [swap]; its two assertions guard the [return]. *)
Definition swap (pb : claw_problem) (i a b : Z) : option (Z * Z) :=
  let x0 := if choose pb i a then a else b in
  let x1 := if choose pb i b then a else b in
  if choose pb i x0 && negb (choose pb i x1) then Some (x0, x1) else None.

Definition mix_good_pair (pb : claw_problem) (i a b : Z) : option bool :=
  if eqb (choose pb i a) (choose pb i b) then Some false
  else
    match swap pb i a b with
    | None => None
    | Some (x0, x1) => Some (is_good_pair pb (mix i x0) (mix i x1))
    end.

End EqualSize.

(** *** [LargerRangeClawWrapper] *)
Module LargerRange.

(** [x & 1], as a [bool]. *)
Definition choose (pb : claw_problem) (i x : Z) : bool := negb (Z.land x 1 =? 0).

(** [(i ^ x) >> (pb.m - pb.n)] *)
Definition mix (pb : claw_problem) (i x : Z) : Z := Z.shiftr (Z.lxor i x) (m pb - n pb).

Definition mixf (pb : claw_problem) (i x : Z) (n_eval : Z) : Z * Z :=
  let y := mix pb i x in
  (if choose pb i x then f pb y else g pb y, u64 (n_eval + 1)).

Definition swap (pb : claw_problem) (i a b : Z) : option (Z * Z) :=
  let x0 := if choose pb i a then a else b in
  let x1 := if choose pb i b then a else b in
  if choose pb i x0 && negb (choose pb i x1) then Some (x0, x1) else None.

Definition mix_good_pair (pb : claw_problem) (i a b : Z) : option bool :=
  if eqb (choose pb i a) (choose pb i b) then Some false
  else
    match swap pb i a b with
    | None => None
    | Some (x0, x1) => Some (is_good_pair pb (mix pb i x0) (mix pb i x1))
    end.

End LargerRange.

(** [(1 << pb.n) - 1]: the shift and the subtraction are done on [int], so
    the expression has a value for [0 <= n <= 30] only.  From 31 on it
    overflows [int]; what a compiled program computes then is left out (no
    value here), and the properties of the quality control are stated for
    [n <= 30]. *)
Definition int_mask (n : Z) : option Z :=
  if (0 <=? n) && (n <=? 30) then Some (2 ^ n - 1) else None.

(** The quality control at the end of [claw_search]: its four assertions. *)
Definition quality_control (pb : claw_problem) (x0 x1 : Z) : option (Z * Z) :=
  match int_mask (n pb) with
  | None => None
  | Some mask =>
      if (Z.land x0 mask =? x0) && (Z.land x1 mask =? x1)
         && (f pb x0 =? g pb x1) && is_good_pair pb x0 x1
      then Some (x0, x1)
      else None
  end.

(** [claw_search], given the triple [(i, a, b)] that [_Engine::run] returned
    for the wrapper chosen by comparing [n] and [m]. *)
Definition claw_search (pb : claw_problem) (run : Z * Z * Z) : option (Z * Z) :=
  let '(i, a, b) := run in
  if n pb =? m pb then
    match EqualSize.swap pb i a b with
    | None => None
    | Some (u, v) => quality_control pb (EqualSize.mix i u) (EqualSize.mix i v)
    end
  else if n pb <? m pb then
    match LargerRange.swap pb i a b with
    | None => None
    | Some (u, v) => quality_control pb (LargerRange.mix pb i u) (LargerRange.mix pb i v)
    end
  else None.

(** A collision problem on 16 bits used as an example: [f x = x / 2], every
    pair good. *)
Definition toy_collision : collision_problem :=
  CollisionProblem 16 16 (fun x => x / 2) (fun _ _ => true).

(** A claw problem on 16 bits used as an example: [f x = x], [g x = x + 1]
    (mod [2 ^ 16]), every pair good. *)
Definition toy16 : claw_problem :=
  ClawProblem 16 16 (fun x => x) (fun x => Z.land (x + 1) 0xffff) (fun _ _ => true).

(** A claw problem with a larger range, used as an example: 8-bit inputs,
    16-bit outputs; [f x = x], [g x = 255 - x], every pair good. *)
Definition toy_larger : claw_problem :=
  ClawProblem 8 16 (fun x => x) (fun x => 255 - x) (fun _ _ => true).

End Wrappers.

(** ** The sequential engine ([mitm_sequential.hpp]) *)

Module Sequential.

(** What the engine uses of a problem: the two functions, the embeddings of
    [C] into [A] and [B] (replaced by [update_embedding] at each version), and
    of the domain [C] its [extract_1_bit], [hash] and [is_equal]. *)
Record Problem (A_t B_t C_t : Type) : Type := MkProblem {
  f : A_t -> C_t;
  g : B_t -> C_t;
  send_C_to_A : C_t -> A_t;
  send_C_to_B : C_t -> B_t;
  f_eq_g : bool;
  extract_1_bit : C_t -> Z;
  hash : C_t -> Z;
  is_equal : C_t -> C_t -> bool
}.
Arguments f {A_t B_t C_t}.
Arguments g {A_t B_t C_t}.
Arguments send_C_to_A {A_t B_t C_t}.
Arguments send_C_to_B {A_t B_t C_t}.
Arguments f_eq_g {A_t B_t C_t}.
Arguments extract_1_bit {A_t B_t C_t}.
Arguments hash {A_t B_t C_t}.
Arguments is_equal {A_t B_t C_t}.

(** The two cells that a pair of pointers [(inp_pt, out_pt)] ranges over:
    [inp] is [*inp_pt] and [out] is [*out_pt]. *)
Record bufs (C_t : Type) : Type := Bufs { inp : C_t; out : C_t }.
Arguments Bufs {C_t}.
Arguments inp {C_t}.
Arguments out {C_t}.

Section Engine.
Context {A_t B_t C_t : Type}.

(** [swap_pointers(inp_pt, out_pt)] *)
Definition swap_pointers (b : bufs C_t) : bufs C_t := Bufs (out b) (inp b).

(** [iterate_once(inp, out, Pb)]: the value written to [out]. *)
Definition iterate_once (Pb : Problem A_t B_t C_t) (x : C_t) : C_t :=
  if extract_1_bit Pb x =? 1
  then f Pb (send_C_to_A Pb x)
  else g Pb (send_C_to_B Pb x).

(** [j] applications of [iterate_once]. *)
Definition iterate_n (Pb : Problem A_t B_t C_t) (j : nat) (x : C_t) : C_t :=
  Nat.iter j (iterate_once Pb) x.

(** [iterate_once( *inp_pt, *out_pt, Pb)] on a pair of cells. *)
Definition iterate_bufs (Pb : Problem A_t B_t C_t) (b : bufs C_t) : bufs C_t :=
  Bufs (inp b) (iterate_once Pb (inp b)).

Definition is_distinguished_point (digest mask : Z) : bool :=
  0 =? Z.land mask digest.

(** [x] is a distinguished point for the mask [mask]. *)
Definition dp (Pb : Problem A_t B_t C_t) (mask : Z) (x : C_t) : bool :=
  is_distinguished_point (hash Pb x) mask.

(** [(1LL << difficulty) - 1] and [k * (1LL << difficulty)] with [k = 40],
    both as [u64]. *)
Definition dp_mask (difficulty : Z) : Z := u64 (2 ^ difficulty - 1).
Definition dp_bound (difficulty : Z) : Z := u64 (40 * 2 ^ difficulty).

(** The body of the loop of [generate_dist_point], on the cells and the
    caller's [chain_length]: [inr] is the [return true]. *)
Definition dist_point_step (Pb : Problem A_t B_t C_t) (mask : Z) (s : bufs C_t * Z)
  : bufs C_t * Z + bufs C_t * Z :=
  let (b, chain_length) := s in
  let b := iterate_bufs Pb b in
  let chain_length := u64 (chain_length + 1) in
  let digest := hash Pb (out b) in
  if is_distinguished_point digest mask
  then inr (b, chain_length)
  else inl (swap_pointers b, chain_length).

(** [generate_dist_point(inp0, tmp_inp_pt, out_pt, chain_length, difficulty, Pb)]:
    the returned flag, the two cells and [chain_length] on return. *)
Definition generate_dist_point (Pb : Problem A_t B_t C_t) (inp0 : C_t) (b : bufs C_t)
  (chain_length : Z) (difficulty : Z) : bool * bufs C_t * Z :=
  let b := Bufs inp0 (out b) in
  let mask := dp_mask difficulty in
  match for_loop (dist_point_step Pb mask) (Z.to_N (dp_bound difficulty)) (b, chain_length) with
  | inr (b, chain_length) => (true, b, chain_length)
  | inl (b, chain_length) => (false, b, chain_length)
  end.

(** [iterate_once( *inp_pt, *out_pt, Pb); swap_pointers(inp_pt, out_pt);] *)
Definition advance (Pb : Problem A_t B_t C_t) (b : bufs C_t) : bufs C_t :=
  swap_pointers (iterate_bufs Pb b).

(** The body of the third loop of [walk]: [inr] is the [return true]. *)
Definition walk_step (Pb : Problem A_t B_t C_t) (s : bufs C_t * bufs C_t)
  : bufs C_t * bufs C_t + bufs C_t * bufs C_t :=
  let (b0, b1) := s in
  let b0 := iterate_bufs Pb b0 in
  let b1 := iterate_bufs Pb b1 in
  if is_equal Pb (out b0) (out b1)
  then inr (b0, b1)
  else inl (swap_pointers b0, swap_pointers b1).

(** [walk]: the returned flag and the four cells on return.  The first two
    loops run [inp0_chain_len - inp1_chain_len] and
    [inp1_chain_len - inp0_chain_len] times (not at all when that is not
    positive). *)
Definition walk (Pb : Problem A_t B_t C_t) (b0 : bufs C_t) (inp0_chain_len : Z)
  (b1 : bufs C_t) (inp1_chain_len : Z) : bool * bufs C_t * bufs C_t :=
  let len := Z.min inp0_chain_len inp1_chain_len in
  let b0 := N.iter (Z.to_N (inp0_chain_len - inp1_chain_len)) (advance Pb) b0 in
  let b1 := N.iter (Z.to_N (inp1_chain_len - inp0_chain_len)) (advance Pb) b1 in
  match for_loop (walk_step Pb) (Z.to_N len) (b0, b1) with
  | inr (b0, b1) => (true, b0, b1)
  | inl (b0, b1) => (false, b0, b1)
  end.

(** [send_2_A_and_B]: the flag, and the values written to [inp_A] and [inp_B]
    (they start value-initialised, [a0] and [b0]). *)
Definition send_2_A_and_B (Pb : Problem A_t B_t C_t) (inp0_C inp1_C : C_t)
  (a0 : A_t) (b0 : B_t) : bool * A_t * B_t :=
  if f_eq_g Pb then (true, send_C_to_A Pb inp0_C, send_C_to_B Pb inp1_C)
  else if extract_1_bit Pb inp0_C =? 1 then
    if extract_1_bit Pb inp1_C =? 0
    then (false, send_C_to_A Pb inp0_C, send_C_to_B Pb inp1_C)
    else (false, a0, b0)
  else
    if extract_1_bit Pb inp1_C =? 1
    then (true, send_C_to_A Pb inp1_C, send_C_to_B Pb inp0_C)
    else (false, a0, b0).

(** [treat_collision]: the flag, the four cells and the container on return.
    The container is kept latest pair first: [push_back] is a cons and
    [back()] the head. *)
Definition treat_collision (Pb : Problem A_t B_t C_t) (a0 : A_t) (b0 : B_t)
  (c0 : bufs C_t) (inp0_chain_len : Z) (c1 : bufs C_t) (inp1_chain_len : Z)
  (container : list (A_t * B_t))
  : bool * bufs C_t * bufs C_t * list (A_t * B_t) :=
  let '(found_collision, c0, c1) := walk Pb c0 inp0_chain_len c1 inp1_chain_len in
  if negb found_collision then (false, c0, c1, container)
  else if is_equal Pb (inp c0) (inp c1) then (false, c0, c1, container)
  else
    let '(is_potential_collision, inp_A, inp_B) :=
      send_2_A_and_B Pb (inp c0) (inp c1) a0 b0 in
    if negb is_potential_collision then (false, c0, c1, container)
    else (true, c0, c1, (inp_A, inp_B) :: container).

(** What [collision] takes from outside this file: the generator
    ([PRNG], [Pb.C.randomize], [Pb.update_embedding]) and the dictionary
    ([Dict], with [n_slots], [flush] and [pop_insert]).  [pop_insert] gets the
    digest, the start and its chain length, and the present contents of
    [*inp1_pt] and [chain_length1], which it may overwrite. *)
Record Env : Type := MkEnv {
  Rng : Type;
  Dic : Type;
  randomize : Rng -> C_t * Rng;
  update_embedding : Problem A_t B_t C_t -> Rng -> Problem A_t B_t C_t * Rng;
  n_slots : Z;
  flush : Dic -> Dic;
  pop_insert : Z -> C_t -> Z -> C_t -> Z -> Problem A_t B_t C_t -> Dic
               -> bool * C_t * Z * Dic
}.

(** The local variables of [collision] that live across iterations. *)
Record state (E : Env) : Type := MkState {
  Pb : Problem A_t B_t C_t;
  rng : Rng E;
  dict : Dic E;
  pre_inp0 : C_t;
  cells0 : bufs C_t;
  cells1 : bufs C_t;
  chain_length0 : Z;
  chain_length1 : Z;
  n_collisions : Z;
  n_robinhoods : Z;
  n_distinguished_points : Z;
  collisions_container : list (A_t * B_t)
}.
Arguments MkState {E}.
Arguments Pb {E}.
Arguments rng {E}.
Arguments dict {E}.
Arguments pre_inp0 {E}.
Arguments cells0 {E}.
Arguments cells1 {E}.
Arguments chain_length0 {E}.
Arguments chain_length1 {E}.
Arguments n_collisions {E}.
Arguments n_robinhoods {E}.
Arguments n_distinguished_points {E}.
Arguments collisions_container {E}.

Definition difficulty : Z := 9.
(** [1LL << 20] *)
Definition n_needed_collisions : Z := 0x100000.

(** The body of the inner [for] of [collision], from the draw of a start to
    the end of the block; [n_dist_points] is the loop counter as the body
    leaves it (the [++n_dist_points] of the loop header comes after).  The
    flag tells whether a distinguished point was found. *)
Definition attempt (E : Env) (a0 : A_t) (b0 : B_t) (s : state E) (n_dist_points : Z)
  : state E * Z * bool :=
  let (pre, r) := randomize E (rng s) in
  let '(found_dist, c0, len0) := generate_dist_point (Pb s) pre (cells0 s) 0 difficulty in
  let out0_digest := hash (Pb s) (out c0) in
  let n_dp := u64 (n_distinguished_points s + 1) in
  if negb found_dist then
    (MkState (Pb s) r (dict s) pre c0 (cells1 s) len0 (chain_length1 s)
             (n_collisions s) (n_robinhoods s) n_dp (collisions_container s),
     n_dist_points, false)
  else
    let n_dist_points := u64 (n_dist_points + 1) in
    let '(is_collision_found, inp1, len1, d) :=
      pop_insert E out0_digest pre len0 (inp (cells1 s)) (chain_length1 s) (Pb s) (dict s) in
    let c1 := Bufs inp1 (out (cells1 s)) in
    if negb is_collision_found then
      (MkState (Pb s) r d pre c0 c1 len0 len1
               (n_collisions s) (n_robinhoods s) n_dp (collisions_container s),
       n_dist_points, true)
    else
      let n_coll := u64 (n_collisions s + 1) in
      let c0 := Bufs pre (out c0) in
      let '(is_potential_coll, c0, c1, container) :=
        treat_collision (Pb s) a0 b0 c0 len0 c1 len1 (collisions_container s) in
      let is_robinhood := is_equal (Pb s) (inp c0) (inp c1) in
      let n_rob := u64 (n_robinhoods s + (if is_robinhood then 1 else 0)) in
      (MkState (Pb s) r d pre c0 c1 len0 len1 n_coll n_rob n_dp container,
       n_dist_points, true).

(** The state of the inner [for]: the engine's state, the counter
    [n_dist_points], and (not in the program) the outcome of each attempt so
    far, latest first. *)
Definition version_state (E : Env) : Type := (state E * Z * list bool)%type.

(** The number of attempts of a trace that found a distinguished point. *)
Fixpoint successes (trace : list bool) : Z :=
  match trace with
  | [] => 0
  | found :: rest => (if found then 1 else 0) + successes rest
  end.

(** What holds of the loop counter [n] and the trace between two turns of the
    inner [for], whose bound is [bound]: the counter is the number of
    attempts plus the number of successes, and it passes the bound by at
    most one, after a success. *)
Definition budget_inv (bound n : Z) (trace : list bool) : Prop :=
  n = Z.of_nat (length trace) + successes trace /\
  0 <= successes trace <= Z.of_nat (length trace) /\
  (n <= bound \/ (n = bound + 1 /\ 1 <= successes trace)).

(** One turn of [for (n_dist_points = 0; n_dist_points < 10 * dict.n_slots;
    ++n_dist_points)]: [inr] when the condition fails. *)
Definition version_step (E : Env) (a0 : A_t) (b0 : B_t) (v : version_state E)
  : version_state E + version_state E :=
  let '(s, n_dist_points, trace) := v in
  if n_dist_points <? u64 (10 * n_slots E) then
    let '(s, n_dist_points, found) := attempt E a0 b0 s n_dist_points in
    inl (s, u64 (n_dist_points + 1), found :: trace)
  else inr v.

(** One version: [Pb.update_embedding(rng); dict.flush();] and the inner
    [for].  The loop counter grows at each turn, so [10 * n_slots + 1] turns
    always reach the exit ([inl] is never the outcome). *)
Definition version (E : Env) (a0 : A_t) (b0 : B_t) (s : state E) : version_state E :=
  let (pb, r) := update_embedding E (Pb s) (rng s) in
  let s := MkState pb r (flush E (dict s)) (pre_inp0 s) (cells0 s) (cells1 s)
                   (chain_length0 s) (chain_length1 s) (n_collisions s)
                   (n_robinhoods s) (n_distinguished_points s)
                   (collisions_container s) in
  match for_loop (version_step E a0 b0)
                 (N.succ (Z.to_N (u64 (10 * n_slots E)))) (s, 0, []) with
  | inr v => v
  | inl v => v
  end.

(** [while (n_collisions < n_needed_collisions)]; the loop may go on for ever,
    [versions] bounds the number of versions the model runs. *)
Fixpoint versions_loop (E : Env) (a0 : A_t) (b0 : B_t) (versions : nat) (s : state E)
  : option (state E) :=
  if n_collisions s <? n_needed_collisions then
    match versions with
    | O => None
    | S versions' => versions_loop E a0 b0 versions' (fst (fst (version E a0 b0 s)))
    end
  else Some s.

(** [collision(Pb)]: the pair it returns, [( *inp0_pt, *inp1_pt)].  [a0], [b0]
    and [c0] are the value-initialised elements of the three types; [rng0] and
    [dict0] the generator and the dictionary as constructed. *)
Definition collision (E : Env) (a0 : A_t) (b0 : B_t) (c0 : C_t)
  (rng0 : Rng E) (dict0 : Dic E) (versions : nat) (pb : Problem A_t B_t C_t)
  : option (C_t * C_t) :=
  let s := MkState pb rng0 dict0 c0 (Bufs c0 c0) (Bufs c0 c0) 0 0 0 0 0 [] in
  match versions_loop E a0 b0 versions s with
  | None => None
  | Some s => Some (inp (cells0 s), inp (cells1 s))
  end.

End Engine.

Arguments MkState {A_t B_t C_t E}.
Arguments Pb {A_t B_t C_t E}.
Arguments rng {A_t B_t C_t E}.
Arguments dict {A_t B_t C_t E}.
Arguments pre_inp0 {A_t B_t C_t E}.
Arguments cells0 {A_t B_t C_t E}.
Arguments cells1 {A_t B_t C_t E}.
Arguments chain_length0 {A_t B_t C_t E}.
Arguments chain_length1 {A_t B_t C_t E}.
Arguments n_collisions {A_t B_t C_t E}.
Arguments n_robinhoods {A_t B_t C_t E}.
Arguments n_distinguished_points {A_t B_t C_t E}.
Arguments collisions_container {A_t B_t C_t E}.

(** *** What the main loop keeps *)

Section Invariants.
Context {A_t B_t C_t : Type}.

(** The pair [(a, b)] is a claw of the problem: [g b] and [f a] are equal. *)
Definition claw (pb : Problem A_t B_t C_t) (p : A_t * B_t) : Prop :=
  is_equal pb (g pb (snd p)) (f pb (fst p)) = true.

(** Two problems with the same [f], [g], [is_equal] and [f_eq_g]: they may
    differ by their embeddings of [C] into [A] and [B]. *)
Definition same_functions (p q : Problem A_t B_t C_t) : Prop :=
  (forall a, f q a = f p a) /\ (forall b, g q b = g p b) /\
  (forall x y, is_equal q x y = is_equal p x y) /\ f_eq_g q = f_eq_g p.

(** No value of the iteration is a distinguished point at the difficulty
    that [collision] uses. *)
Definition never_distinguished (pb : Problem A_t B_t C_t) : Prop :=
  forall x, dp pb (dp_mask difficulty) (iterate_once pb x) = false.

End Invariants.

(** *** The sanity test of the serialization *)

(** What [is_serialize_inverse_of_unserialize] uses of the domain [C]:
    [n_elements], [randomize], [serialize] (the bytes written to
    [u8 serial[length]]), [unserialize] (the value written to [copy]) and
    [is_equal]. *)
Record Domain (C_t Rng : Type) : Type := MkDomain {
  dom_n_elements : Z;
  dom_randomize : Rng -> C_t * Rng;
  dom_serialize : C_t -> list Z;
  dom_unserialize : list Z -> C_t;
  dom_is_equal : C_t -> C_t -> bool
}.
Arguments MkDomain {C_t Rng}.
Arguments dom_n_elements {C_t Rng}.
Arguments dom_randomize {C_t Rng}.
Arguments dom_serialize {C_t Rng}.
Arguments dom_unserialize {C_t Rng}.
Arguments dom_is_equal {C_t Rng}.

Section Serialization.
Context {C_t Rng : Type}.

(** The body of the loop of the test, on the generator: [inr] is the
    [return false]. *)
Definition serialization_step (D : Domain C_t Rng) (prng : Rng) : Rng + bool * Rng :=
  let (orig, prng) := dom_randomize D prng in
  let serial := dom_serialize D orig in
  let copy := dom_unserialize D serial in
  if negb (dom_is_equal D copy orig) then inr (false, prng) else inl prng.

(** [is_serialize_inverse_of_unserialize(Pb, prng)]: the flag, and the
    generator on return.  [n_tests = min(n_elements, 1024)]. *)
Definition is_serialize_inverse_of_unserialize (D : Domain C_t Rng) (prng : Rng) : bool * Rng :=
  let n_tests := Z.min (dom_n_elements D) 1024 in
  match for_loop (serialization_step D) (Z.to_N n_tests) prng with
  | inr r => r
  | inl prng => (true, prng)
  end.

(** The generator after [i] draws, and the [i]-th value drawn (from 0). *)
Definition after_draws (D : Domain C_t Rng) (i : nat) (prng : Rng) : Rng :=
  Nat.iter i (fun p => snd (dom_randomize D p)) prng.

Definition drawn (D : Domain C_t Rng) (i : nat) (prng : Rng) : C_t :=
  fst (dom_randomize D (after_draws D i prng)).

(** The value [x] comes back from its serialization. *)
Definition round_trips (D : Domain C_t Rng) (x : C_t) : bool :=
  dom_is_equal D (dom_unserialize D (dom_serialize D x)) x.

End Serialization.

(** *** A dictionary and a run for the examples *)

(** Modelled from the spec: the class [Dict] of [dict.hpp] is not among the
    sources.  Section 4.4 of the specification describes the dictionary: a
    fixed number [S] of slots, the empty slot a reserved mark, the key of a
    record the digest modulo [0xFFFFFFFB], the value the pair (seed, chain
    length); [insert_or_probe] starts at slot
    [(digest XOR (digest >> 32)) mod S] and probes forward, wrapping at [S];
    on an empty slot it writes the record ([inserted]); on a slot with the
    same key it returns the record found, without overwriting
    ([collision_candidate]); after [S] slots it gives up ([full]).  Clearing
    empties every slot. *)
Section SpecDict.
Context {C_t : Type}.

Definition sdict : Type := list (option (Z * C_t * Z)).

Inductive outcome : Type :=
| inserted
| collision_candidate (seed : C_t) (length : Z)
| full.

Definition sdict_create (slots : nat) : sdict := replicate slots None.

Definition sdict_clear (d : sdict) : sdict := replicate (length d) None.

Fixpoint sdict_probe (budget : nat) (d : sdict) (key : Z) (seed : C_t) (len : Z) (h : nat)
  : outcome * sdict :=
  match budget with
  | O => (full, d)
  | S budget' =>
      match d !! h with
      | None => (full, d)
      | Some None => (inserted, <[h := Some (key, seed, len)]> d)
      | Some (Some (key', seed', len')) =>
          if key' =? key then (collision_candidate seed' len', d)
          else sdict_probe budget' d key seed len
                           (if (S h =? length d)%nat then 0%nat else S h)
      end
  end.

Definition insert_or_probe (digest : Z) (seed : C_t) (len : Z) (d : sdict)
  : outcome * sdict :=
  let slots := Z.of_nat (length d) in
  if slots =? 0 then (full, d)
  else
    sdict_probe (length d) d (digest mod 0xFFFFFFFB) seed len
                (Z.to_nat (Z.lxor digest (Z.shiftr digest 32) mod slots)).

(** [pop_insert] through [insert_or_probe]: a candidate is handed to the
    caller in [*inp1_pt] and [chain_length1]. *)
Definition sdict_pop_insert {A_t B_t : Type} (digest : Z) (seed : C_t) (len : Z)
  (inp1 : C_t) (len1 : Z) (_ : Problem A_t B_t C_t) (d : sdict)
  : bool * C_t * Z * sdict :=
  match insert_or_probe digest seed len d with
  | (collision_candidate seed' len', d') => (true, seed', len', d')
  | (_, d') => (false, inp1, len1, d')
  end.

End SpecDict.

(** Problems on [unsigned int] for the examples, in the manner of
    [demos/basic_demo.cpp]: the embeddings are the identity and the hash of a
    value is the value.  In the first, [f x = x + 1] (mod [2 ^ 32]) and [g] is
    [f]. *)
Definition succ_f (x : Z) : Z := Z.land (x + 1) 0xffffffff.

Definition succ_problem : Problem Z Z Z :=
  MkProblem Z Z Z succ_f succ_f (fun x => x) (fun x => x) true
            (fun x => Z.land x 1) (fun x => x) Z.eqb.

(** A second one, where two chains merge: [f x = x + 1] below 12, and
    [f x = 3] from 12 on, so that [0, 1, 2, 3, ...] and [10, 11, 12, 3, ...]
    meet at 3. *)
Definition merge_f (x : Z) : Z := if x <? 12 then x + 1 else 3.

Definition merge_problem : Problem Z Z Z :=
  MkProblem Z Z Z merge_f merge_f (fun x => x) (fun x => x) true
            (fun x => Z.land x 1) (fun x => x) Z.eqb.

(** A third one, with collisions in blocks of five: [f x] is 512 times
    [x / 5 + 1] (mod [2 ^ 32]), so that [f 5q = f (5q + 1) = ... = f (5q + 4)]
    and every value of [f] is a distinguished point for the hash [x => x]. *)
Definition five_f (x : Z) : Z := Z.land (512 * (x / 5 + 1)) 0xffffffff.

Definition five_problem : Problem Z Z Z :=
  MkProblem Z Z Z five_f five_f (fun x => x) (fun x => x) true
            (fun x => Z.land x 1) (fun x => x) Z.eqb.

(** A fourth one, a claw problem ([f] and [g] are told apart): both
    functions are constant, so that every input of [f] and every input of [g]
    make a claw. *)
Definition const_problem : Problem Z Z Z :=
  MkProblem Z Z Z (fun _ => 8) (fun _ => 8) (fun x => x) (fun x => x) false
            (fun x => Z.land x 1) (fun x => x) Z.eqb.

(** A fifth one, a claw problem as well: both functions are constantly 512,
    a distinguished point for the hash [x => x], so that every chain has
    length 1 and all of them end at the same point. *)
Definition flat_problem : Problem Z Z Z :=
  MkProblem Z Z Z (fun _ => 512) (fun _ => 512) (fun x => x) (fun x => x) false
            (fun x => Z.land x 1) (fun x => x) Z.eqb.

(** The state of [collision] when it enters its [while] loop. *)
Definition initial_state {A_t B_t C_t : Type} (E : @Env A_t B_t C_t) (c0 : C_t)
  (rng0 : Rng E) (dict0 : Dic E) (pb : Problem A_t B_t C_t) : state E :=
  MkState pb rng0 dict0 c0 (Bufs c0 c0) (Bufs c0 c0) 0 0 0 0 0 [].

(** The surroundings of a run: a generator that counts ([randomize] returns
    the counter and adds one to it), an [update_embedding] that leaves the
    embeddings as they are, and the dictionary above with [slots] slots. *)
Definition counting_env (slots : nat) : @Env Z Z Z :=
  @MkEnv Z Z Z Z (@sdict Z)
    (fun t => (Z.land t 0xffffffff, t + 1))
    (fun pb t => (pb, t))
    (Z.of_nat slots)
    sdict_clear
    sdict_pop_insert.

(** What holds of the state between two versions of the run of [collision]
    on [five_problem] with a counting generator started at 1 and one slot,
    after [q] versions. *)
Definition between_versions (q : Z) (s : state (counting_env 1)) : Prop :=
  Pb s = five_problem /\ rng s = 5 * q + 1 /\ length (dict s) = 1%nat /\
  n_collisions s = 3 * q /\
  (1 <= q -> inp (cells0 s) = 5 * q /\ inp (cells1 s) = 5 * q - 4).

End Sequential.

(** ** The demonstration ([demos/basic_demo.cpp]) *)

Module BasicDemo.
Import Sequential.

(** A value of [unsigned int]: the 32 low bits. *)
Definition u32 (z : Z) : Z := Z.land z 0xffffffff.

(** *** [IntDomain] *)

(** [x = p.rand()], for a generator [rand] (the class [PRNG] is not among
    the sources). *)
Definition randomize {Rng : Type} (rand : Rng -> Z * Rng) (p : Rng) : Z * Rng :=
  let (v, p) := rand p in (u32 v, p).

Definition is_equal (x y : Z) : bool := x =? y.

Definition length : Z := 4.

(** [1LL << 16] *)
Definition n_elements : Z := 0x10000.

Definition next (x : Z) : Z := u32 (x + 1).

(** [*static_cast<t*>(out) = x]: the four bytes of [x], the least
    significant first. *)
Definition serialize (x : Z) : list Z :=
  [Z.land x 0xff; Z.land (Z.shiftr x 8) 0xff; Z.land (Z.shiftr x 16) 0xff;
   Z.land (Z.shiftr x 24) 0xff].

(** [x = *static_cast<t*>(in)]: the value of the first four bytes. *)
Definition unserialize (bytes : list Z) : Z :=
  fold_right (fun b acc => b + 256 * acc) 0 (take 4 bytes).

Definition hash (x : Z) : Z := x.

Definition hash_extra (x : Z) : Z := 0.

Definition domain {Rng : Type} (rand : Rng -> Z * Rng) : Domain Z Rng :=
  MkDomain n_elements (randomize rand) serialize unserialize is_equal.

(** *** [Problem] *)

(** [y = 42 * x * x + 1337], in [unsigned int]. *)
Definition f (x : Z) : Z := u32 (u32 (u32 (42 * x) * x) + 1337).

(** A problem of the engine is one of the demonstration when its two
    functions are [f] (the demonstration has one function only) and its hash
    is the hash of [IntDomain]; the embeddings, [extract_1_bit] and [f_eq_g]
    are left open. *)
Definition demo_like (pb : Problem Z Z Z) : Prop :=
  (forall a, Sequential.f pb a = f a) /\
  (forall b, Sequential.g pb b = f b) /\
  (forall c, Sequential.hash pb c = hash c).

(** The demonstration with the identity for embeddings and the low bit for
    [extract_1_bit]. *)
Definition problem : Problem Z Z Z :=
  MkProblem Z Z Z f f (fun x => x) (fun x => x) true (fun x => Z.land x 1) hash is_equal.

End BasicDemo.

(** ** The seed stream of the distributed sender ([include/mpi/pcs_sender.hpp]) *)

Module Sender.

(** [j = msg[1] + 3 * params.local_rank] *)
Definition first_j (seed_base local_rank : Z) : Z := u64 (seed_base + 3 * local_rank).

(** [j += 3 * params.n_send] *)
Definition next_j (n_send j : Z) : Z := u64 (j + 3 * n_send).

(** The value of [j] at turn [k] of the loop. *)
Definition nth_j (seed_base local_rank n_send : Z) (k : nat) : Z :=
  Nat.iter k (next_j n_send) (first_j seed_base local_rank).

(** [u64 start = j & Pb.mask] at turn [k]. *)
Definition start (mask seed_base local_rank n_send : Z) (k : nat) : Z :=
  Z.land (nth_j seed_base local_rank n_send k) mask.

(** The starts of the first [turns] turns, in order. *)
Definition starts (mask seed_base local_rank n_send : Z) (turns : nat) : list Z :=
  map (start mask seed_base local_rank n_send) (seq 0 turns).

End Sender.

(** * Properties *)

(** ** Machine integers and loops *)

Lemma u64_mod_eq : u64_mod = 2 ^ 64.
Proof. reflexivity. Qed.

Lemma u64_spec z : u64 z = z mod 2 ^ 64.
Proof.
  unfold u64. change 0xffffffffffffffff with (Z.ones 64).
  apply Z.land_ones. lia.
Qed.

Lemma u64_range z : is_u64 (u64 z).
Proof. rewrite u64_spec. unfold is_u64, u64_mod. apply Z.mod_pos_bound. lia. Qed.

Lemma u64_small z : is_u64 z -> u64 z = z.
Proof. rewrite u64_spec. unfold is_u64, u64_mod. intros H. apply Z.mod_small. lia. Qed.

Section LoopFacts.
Context {St R : Type}.
Variable body : St -> St + R.

Lemma for_nat_add n m s :
  for_nat body (n + m) s = then_run (for_nat body n s) (for_nat body m).
Proof.
  revert s. induction n as [|n IH]; intros s; simpl; [reflexivity|].
  destruct (body s); simpl; [apply IH | reflexivity].
Qed.

Lemma for_pos_nat p : forall k s,
  for_pos body p k s = then_run (for_nat body (Pos.to_nat p) s) k.
Proof.
  induction p as [q IH | q IH |]; intros k s; cbn [for_pos].
  - rewrite Pos2Nat.inj_xI.
    replace (S (2 * Pos.to_nat q))%nat with (S (Pos.to_nat q + Pos.to_nat q))%nat by lia.
    cbn [for_nat]. destruct (body s) as [s'|r]; cbn [then_run]; [|reflexivity].
    rewrite IH, for_nat_add.
    destruct (for_nat body (Pos.to_nat q) s'); cbn [then_run]; [apply IH | reflexivity].
  - rewrite Pos2Nat.inj_xO, IH.
    replace (2 * Pos.to_nat q)%nat with (Pos.to_nat q + Pos.to_nat q)%nat by lia.
    rewrite for_nat_add.
    destruct (for_nat body (Pos.to_nat q) s); cbn [then_run]; [apply IH | reflexivity].
  - rewrite Pos2Nat.inj_1. cbn [for_nat]. destruct (body s); reflexivity.
Qed.

(** The binary loop is the plain one. *)
Lemma for_loop_nat n s : for_loop body n s = for_nat body (N.to_nat n) s.
Proof.
  destruct n as [|p]; [reflexivity|].
  unfold for_loop. rewrite for_pos_nat. change (N.to_nat (N.pos p)) with (Pos.to_nat p).
  destruct (for_nat body (Pos.to_nat p) s); reflexivity.
Qed.
End LoopFacts.

Lemma N_iter_nat {St : Type} (n : N) (step : St -> St) (s : St) :
  N.iter n step s = Nat.iter (N.to_nat n) step s.
Proof.
  induction n as [|n IH] using N.peano_ind; [reflexivity|].
  rewrite N.iter_succ, N2Nat.inj_succ, IH. reflexivity.
Qed.

(** ** The compact dictionary: properties *)

Module DictFacts.
Import CompactDict.

Lemma slot_Some_range d h e :
  slot d h = Some e -> 0 <= h < Z.of_nat (length (A d)).
Proof.
  unfold slot. destruct (Z.ltb_spec h 0) as [Hneg|Hpos]; [discriminate|].
  intros Hl. apply lookup_lt_Some in Hl. lia.
Qed.

Lemma slot_in_range d h :
  0 <= h < Z.of_nat (length (A d)) -> exists e, slot d h = Some e.
Proof.
  intros Hh. unfold slot. destruct (Z.ltb_spec h 0) as [Hneg|Hpos]; [lia|].
  destruct (lookup_lt_is_Some_2 (A d) (Z.to_nat h)) as [e He]; [lia|].
  exists e. exact He.
Qed.

Lemma next_slot_mod d h :
  wf d -> 0 <= h < n_slots d -> next_slot d h = (h + 1) mod n_slots d.
Proof.
  intros [Hn _] Hh. unfold next_slot.
  rewrite u64_small by (unfold is_u64; lia).
  destruct (Z.eqb_spec (h + 1) (n_slots d)) as [E|E].
  - rewrite E, Z.mod_same by lia. reflexivity.
  - rewrite Z.mod_small by lia. reflexivity.
Qed.

Lemma ahead_range d h t : wf d -> 0 <= ahead d h t < n_slots d.
Proof. intros [Hn _]. unfold ahead. apply Z.mod_pos_bound. lia. Qed.

Lemma ahead_0 d h : wf d -> 0 <= h < n_slots d -> ahead d h 0 = h.
Proof. intros _ Hh. unfold ahead. rewrite Z.add_0_r. apply Z.mod_small. exact Hh. Qed.

Lemma ahead_next d h t :
  wf d -> 0 <= h < n_slots d -> ahead d (next_slot d h) t = ahead d h (S t).
Proof.
  intros Hwf Hh. rewrite next_slot_mod by assumption. unfold ahead.
  rewrite Zplus_mod_idemp_l. f_equal. lia.
Qed.

Lemma home_range key n : 0 < n -> 0 <= home key n < n.
Proof. intros Hn. unfold home. apply Z.mod_pos_bound. exact Hn. Qed.

(** Every slot lies ahead of every other one, less than [n_slots] steps away. *)
Lemma ahead_reaches d h j :
  wf d -> 0 <= h < n_slots d -> 0 <= j < n_slots d ->
  exists t : nat, Z.of_nat t < n_slots d /\ ahead d h t = j.
Proof.
  intros [Hn _] Hh Hj. exists (Z.to_nat ((j - h) mod n_slots d)).
  pose proof (Z.mod_pos_bound (j - h) (n_slots d) ltac:(lia)) as Hb.
  split; [lia|]. unfold ahead. rewrite Z2Nat.id by lia.
  rewrite Zplus_mod_idemp_r. replace (h + (j - h)) with j by lia.
  apply Z.mod_small. exact Hj.
Qed.

(** The loop of [insert] stops on the first free slot ahead of [h]. *)
Lemma insert_probe_first_free d : wf d -> forall (t : nat) h,
  0 <= h < n_slots d -> vacant d (ahead d h t) ->
  exists t' : nat, (t' <= t)%nat /\
    (forall i : nat, (i < t')%nat -> occupied d (ahead d h i)) /\
    vacant d (ahead d h t') /\
    forall fuel, (t' < fuel)%nat -> insert_probe fuel d h = Some (ahead d h t').
Proof.
  intros Hwf. induction t as [|t IH]; intros h Hh Hfree.
  - exists 0%nat. split; [lia|]. split; [intros i Hi; lia|]. split; [exact Hfree|].
    intros fuel Hfuel. destruct fuel as [|fuel]; [lia|].
    rewrite ahead_0 in * by assumption. destruct Hfree as (e & He & Hk).
    cbn [insert_probe]. rewrite He. unfold free in Hk. rewrite Hk, Z.eqb_refl. reflexivity.
  - destruct (slot_in_range d h) as [e He]; [destruct Hwf; lia|].
    destruct (Z.eqb_spec (k e) EMPTY_KEY) as [Hk|Hk].
    + exists 0%nat. split; [lia|]. split; [intros i Hi; lia|].
      rewrite ahead_0 by assumption. split; [exists e; split; assumption|].
      intros fuel Hfuel. destruct fuel as [|fuel]; [lia|].
      cbn [insert_probe]. rewrite He, Hk, Z.eqb_refl. reflexivity.
    + rewrite <- ahead_next in Hfree by assumption.
      assert (Hn : 0 <= next_slot d h < n_slots d).
      { rewrite next_slot_mod by assumption. apply Z.mod_pos_bound. destruct Hwf; lia. }
      destruct (IH _ Hn Hfree) as (t' & Hle & Hocc & Hvac & Hrun).
      exists (S t'). split; [lia|]. split; [|split].
      * intros i Hi. destruct i as [|i].
        -- rewrite ahead_0 by assumption. exists e. split; [exact He | exact Hk].
        -- rewrite <- ahead_next by assumption. apply Hocc. lia.
      * rewrite <- ahead_next by assumption. exact Hvac.
      * intros fuel Hfuel. destruct fuel as [|fuel]; [lia|].
        cbn [insert_probe]. rewrite He.
        destruct (Z.eqb_spec (k e) EMPTY_KEY) as [Hk'|_]; [contradiction|].
        rewrite <- ahead_next by assumption. apply Hrun. lia.
Qed.

Lemma has_free_slot_ahead d h :
  wf d -> has_free_slot d -> 0 <= h < n_slots d ->
  exists t : nat, Z.of_nat t < n_slots d /\ vacant d (ahead d h t).
Proof.
  intros Hwf (j & e & He & Hfree) Hh.
  pose proof (slot_Some_range _ _ _ He) as Hj.
  destruct (ahead_reaches d h j Hwf Hh) as (t & Ht & Hah); [destruct Hwf; lia|].
  exists t. split; [exact Ht|]. rewrite Hah. exists e. split; assumption.
Qed.

Lemma truncated_key_not_empty key : key mod KEY_PRIME <> EMPTY_KEY.
Proof.
  pose proof (Z.mod_pos_bound key KEY_PRIME ltac:(unfold KEY_PRIME; lia)).
  unfold KEY_PRIME, EMPTY_KEY in *. lia.
Qed.



(** Once it has returned, the loop of [insert] returns the same slot with any
    larger fuel. *)
Lemma insert_probe_more_fuel d : forall fuel fuel' h h',
  insert_probe fuel d h = Some h' -> (fuel <= fuel')%nat ->
  insert_probe fuel' d h = Some h'.
Proof.
  induction fuel as [|fuel IH]; intros fuel' h h' Hrun Hle; [discriminate|].
  destruct fuel' as [|fuel']; [lia|]. cbn [insert_probe] in *.
  destruct (slot d h) as [e|]; [|discriminate].
  destruct (k e =? EMPTY_KEY); [exact Hrun|]. apply (IH fuel'); [exact Hrun | lia].
Qed.

(** On a full table the loop of [insert] never stops. *)
Lemma insert_probe_full d : wf d -> full d -> forall fuel h,
  0 <= h < n_slots d -> insert_probe fuel d h = None.
Proof.
  intros Hwf Hfull. induction fuel as [|fuel IH]; intros h Hh; [reflexivity|].
  cbn [insert_probe]. destruct (slot d h) as [e|] eqn:He; [|reflexivity].
  destruct (Z.eqb_spec (k e) EMPTY_KEY) as [Hk|Hk].
  - exfalso. exact (Hfull h e He Hk).
  - apply IH. rewrite next_slot_mod by assumption.
    apply Z.mod_pos_bound. destruct Hwf; lia.
Qed.

Lemma insert_full d key value fuel : wf d -> full d -> insert fuel key value d = None.
Proof.
  intros Hwf Hfull. unfold insert. destruct (n_slots d =? 0); [reflexivity|].
  rewrite insert_probe_full; [reflexivity | assumption | assumption |].
  apply home_range. destruct Hwf; lia.
Qed.

Lemma slot_insert_eq d h e :
  0 <= h < Z.of_nat (length (A d)) ->
  slot (Dict (n_slots d) (<[Z.to_nat h := e]> (A d))) h = Some e.
Proof.
  intros Hh. unfold slot. cbn [A]. destruct (Z.ltb_spec h 0); [lia|].
  apply list_lookup_insert_eq. lia.
Qed.

Lemma slot_insert_ne d h h' e :
  0 <= h -> h' <> h ->
  slot (Dict (n_slots d) (<[Z.to_nat h := e]> (A d))) h' = slot d h'.
Proof.
  intros Hh Hne. unfold slot. cbn [A]. destruct (Z.ltb_spec h' 0); [reflexivity|].
  apply list_lookup_insert_ne. lia.
Qed.

(** What [insert] does when the table has a free slot. *)
Lemma insert_spec d key value :
  wf d -> has_free_slot d ->
  exists (t : nat) d',
    let h := ahead d (home key (n_slots d)) t in
    Z.of_nat t < n_slots d /\
    (forall i : nat, (i < t)%nat -> occupied d (ahead d (home key (n_slots d)) i)) /\
    vacant d h /\
    d' = Dict (n_slots d) (<[Z.to_nat h := Entry (key mod KEY_PRIME) value]> (A d)) /\
    forall fuel, (t < fuel)%nat ->
      insert_probe fuel d (home key (n_slots d)) = Some h /\
      insert fuel key value d = Some d'.
Proof.
  intros Hwf Hfree.
  assert (Hn : 0 < n_slots d) by (destruct Hwf; lia).
  pose proof (home_range key (n_slots d) Hn) as Hhome.
  destruct (has_free_slot_ahead d _ Hwf Hfree Hhome) as (t0 & Ht0 & Hvac0).
  destruct (insert_probe_first_free d Hwf t0 _ Hhome Hvac0) as (t & Hle & Hocc & Hvac & Hrun).
  exists t. eexists. cbv zeta. split; [lia|]. split; [exact Hocc|]. split; [exact Hvac|].
  split; [reflexivity|]. intros fuel Hfuel. split; [apply Hrun; exact Hfuel|].
  unfold insert. destruct (Z.eqb_spec (n_slots d) 0) as [E|_]; [lia|].
  rewrite (Hrun fuel Hfuel).
  pose proof (ahead_range d (home key (n_slots d)) t Hwf) as Hr.
  destruct (Nat.ltb_spec (Z.to_nat (ahead d (home key (n_slots d)) t)) (length (A d))) as [_|Hge];
    [reflexivity|]. destruct Hwf as [_ Hlen]. lia.
Qed.



Lemma wf_create n : 0 < n < u64_mod -> wf (create n).
Proof.
  intros Hn. unfold wf, create. cbn [n_slots A]. split; [exact Hn|].
  rewrite length_replicate. lia.
Qed.

Lemma slot_create n h :
  0 <= h < n -> slot (create n) h = Some (Entry EMPTY_KEY 0).
Proof.
  intros Hh. unfold slot, create. cbn [A]. destruct (Z.ltb_spec h 0); [lia|].
  apply lookup_replicate_2. lia.
Qed.

Lemma has_free_slot_create n : 0 < n -> has_free_slot (create n).
Proof.
  intros Hn. exists 0, (Entry EMPTY_KEY 0). split; [apply slot_create; lia | reflexivity].
Qed.

(** C6 (amended).  [insert] has no probe budget and no outcome [full]: on a
    full table it never returns, whatever the number of slots it is allowed to
    look at; on a table with a free slot its linear probe, wrapping at
    [n_slots], passes [t < n_slots] occupied slots, stops on the free slot
    [t] steps after the home slot, and [insert] returns. *)
Theorem insert_termination d key value :
  wf d ->
  (full d -> forall fuel, insert fuel key value d = None) /\
  (has_free_slot d ->
   exists t : nat,
     Z.of_nat t < n_slots d /\
     (forall i : nat, (i < t)%nat -> occupied d (ahead d (home key (n_slots d)) i)) /\
     vacant d (ahead d (home key (n_slots d)) t) /\
     forall fuel, (t < fuel)%nat ->
       insert_probe fuel d (home key (n_slots d))
         = Some (ahead d (home key (n_slots d)) t) /\
       is_Some (insert fuel key value d)).
Proof.
  intros Hwf. split.
  - intros Hfull fuel. apply insert_full; assumption.
  - intros Hfree.
    destruct (insert_spec d key value Hwf Hfree) as (t & d' & Ht & Hocc & Hvac & _ & Hrun).
    exists t. split; [exact Ht|]. split; [exact Hocc|]. split; [exact Hvac|].
    intros fuel Hfuel. destruct (Hrun fuel Hfuel) as [Hp Hi].
    split; [exact Hp|]. exists d'. exact Hi.
Qed.

Lemma wf_full_1 : wf full_table_1.
Proof. split; [unfold u64_mod; cbn; lia | reflexivity]. Qed.

Lemma full_full_1 : full full_table_1.
Proof.
  intros h e He Hfree. pose proof (slot_Some_range _ _ _ He) as Hr.
  cbn in Hr. assert (h = 0) by lia. subst h. cbn in He. injection He as <-.
  unfold free in Hfree. cbn in Hfree. discriminate.
Qed.

Lemma insert_termination_witness :
  (forall fuel, insert fuel 0 7 full_table_1 = None) /\
  (exists t : nat,
     Z.of_nat t < n_slots (create 4) /\
     (forall i : nat, (i < t)%nat -> occupied (create 4) (ahead (create 4) (home 5 (n_slots (create 4))) i)) /\
     vacant (create 4) (ahead (create 4) (home 5 (n_slots (create 4))) t) /\
     forall fuel, (t < fuel)%nat ->
       insert_probe fuel (create 4) (home 5 (n_slots (create 4)))
         = Some (ahead (create 4) (home 5 (n_slots (create 4))) t) /\
       is_Some (insert fuel 5 9 (create 4))).
Proof.
  split.
  - exact (proj1 (insert_termination full_table_1 0 7 wf_full_1) full_full_1).
  - exact (proj2 (insert_termination (create 4) 5 9 (wf_create 4 ltac:(unfold u64_mod; lia)))
                 (has_free_slot_create 4 ltac:(lia))).
Defined.

(** C6, as stated, fails: the one-slot table [full_table_1] is full, and
    [insert] does not return on it with any bound on the slots it may look at. *)
Lemma insert_never_returns_on_full_table :
  wf full_table_1 /\ full full_table_1 /\
  forall fuel, insert fuel 0 7 full_table_1 = None.
Proof.
  split; [exact wf_full_1|]. split; [exact full_full_1|].
  intros fuel. apply insert_full; [exact wf_full_1 | exact full_full_1].
Qed.

(** C10.  On a table with a free slot, [insert key value] returns; exactly
    one slot [h] changes; [h] was free and now holds
    [(key mod 0xfffffffb, value)], which is not the free mark; every other
    slot, and so every entry stored before (an earlier entry of the same key
    included), is as it was. *)
Theorem insert_frame d key value fuel :
  wf d -> has_free_slot d -> n_slots d <= Z.of_nat fuel ->
  exists h d',
    insert fuel key value d = Some d' /\
    wf d' /\ n_slots d' = n_slots d /\
    vacant d h /\
    slot d' h = Some (Entry (key mod KEY_PRIME) value) /\
    occupied d' h /\
    (forall h', h' <> h -> slot d' h' = slot d h') /\
    (forall h' e, slot d h' = Some e -> ~ free e -> slot d' h' = Some e).
Proof.
  intros Hwf Hfree Hfuel.
  destruct (insert_spec d key value Hwf Hfree) as (t & d' & Ht & Hocc & Hvac & Hd' & Hrun).
  cbv zeta in *. set (h := ahead d (home key (n_slots d)) t) in *.
  pose proof (ahead_range d (home key (n_slots d)) t Hwf) as Hr. fold h in Hr.
  assert (Hlen : Z.of_nat (length (A d)) = n_slots d) by (destruct Hwf; assumption).
  exists h, d'. destruct (Hrun fuel ltac:(lia)) as [_ Hins].
  assert (Hnew : slot d' h = Some (Entry (key mod KEY_PRIME) value)).
  { subst d'. apply slot_insert_eq. lia. }
  assert (Hothers : forall h', h' <> h -> slot d' h' = slot d h').
  { intros h' Hne. subst d'. apply slot_insert_ne; [lia | exact Hne]. }
  split; [exact Hins|]. split.
  { subst d'. destruct Hwf as [Hn _]. split; cbn [n_slots A]; [exact Hn|].
    rewrite length_insert. exact Hlen. }
  split; [subst d'; reflexivity|]. split; [exact Hvac|]. split; [exact Hnew|]. split.
  { exists (Entry (key mod KEY_PRIME) value). split; [exact Hnew|]. apply truncated_key_not_empty. }
  split; [exact Hothers|].
  intros h' e He Hne. rewrite Hothers; [exact He|].
  intros ->. destruct Hvac as (e0 & He0 & Hf0). congruence.
Qed.



Lemma insert_frame_witness :
  exists h d',
    insert 4 0 30 table_2 = Some d' /\
    wf d' /\ n_slots d' = n_slots table_2 /\
    vacant table_2 h /\
    slot d' h = Some (Entry (0 mod KEY_PRIME) 30) /\
    occupied d' h /\
    (forall h', h' <> h -> slot d' h' = slot table_2 h') /\
    (forall h' e, slot table_2 h' = Some e -> ~ free e -> slot d' h' = Some e).
Proof.
  apply (insert_frame table_2 0 30 4).
  - split; [unfold u64_mod; cbn; lia | reflexivity].
  - exists 2, (Entry EMPTY_KEY 0). split; reflexivity.
  - cbn. lia.
Defined.

(** The table [table_4] is the outcome of the three insertions; it has a
    free slot, and 30 is stored in it with key 0. *)
Lemma probe_misses_stored_value_parts :
  insert_all 4 [(0, 10); (4, 20); (0, 30)] (create 4) = Some table_4 /\
  has_free_slot table_4 /\
  stored table_4 0 30.
Proof.
  split; [reflexivity|]. split.
  { exists 3, (Entry EMPTY_KEY 0). split; reflexivity. }
  exists 2. split; [reflexivity|]. exists 2%nat. split; [cbn; lia|].
  split; [reflexivity|]. intros i Hi.
  assert (Hc : i = 0%nat \/ i = 1%nat) by lia.
  destruct Hc as [-> | ->]; eexists; (split; [reflexivity|]); unfold free; cbn; discriminate.
Qed.

(** C5, at the failing input.  After [insert(0, 10)], [insert(4, 20)],
    [insert(0, 30)] on a fresh table of four slots, the table is not full and
    the value 30 is stored with key 0 in a slot reachable from the home slot
    of 0 through occupied slots; yet [probe(0)] returns the single value 10:
    it stops at the entry of key 4 that lies between the two entries of
    key 0. *)
Theorem probe_misses_stored_value :
  insert_all 4 [(0, 10); (4, 20); (0, 30)] (create 4) = Some table_4 /\
  has_free_slot table_4 /\
  stored table_4 0 10 /\
  stored table_4 0 30 /\
  (forall fuel, (2 <= fuel)%nat -> probe fuel 0 table_4 = Some [10]).
Proof.
  split; [reflexivity|]. split.
  { exists 3, (Entry EMPTY_KEY 0). split; reflexivity. }
  split.
  { exists 0. split; [reflexivity|]. exists 0%nat. split; [cbn; lia|].
    split; [reflexivity|]. intros i Hi. lia. }
  split.
  { exists 2. split; [reflexivity|]. exists 2%nat. split; [cbn; lia|].
    split; [reflexivity|]. intros i Hi.
    assert (Hc : i = 0%nat \/ i = 1%nat) by lia.
    destruct Hc as [-> | ->]; eexists; (split; [reflexivity|]); unfold free; cbn; discriminate. }
  intros fuel Hfuel. destruct fuel as [|[|fuel]]; [lia | lia | reflexivity].
Qed.



(** *** The reachability invariant *)

Lemma insert_probe_Some_vacant d : forall fuel h h',
  insert_probe fuel d h = Some h' -> vacant d h'.
Proof.
  induction fuel as [|fuel IH]; intros h h' Hrun; [discriminate|].
  cbn [insert_probe] in Hrun. destruct (slot d h) as [e|] eqn:He; [|discriminate].
  destruct (Z.eqb_spec (k e) EMPTY_KEY) as [Hk|Hk].
  - injection Hrun as <-. exists e. split; assumption.
  - apply (IH _ _ Hrun).
Qed.

(** A successful [insert], with any fuel, is the one described by [insert_spec]. *)
Lemma insert_Some_spec d key value fuel d' :
  wf d -> insert fuel key value d = Some d' ->
  exists t : nat,
    let h := ahead d (home key (n_slots d)) t in
    Z.of_nat t < n_slots d /\
    (forall i : nat, (i < t)%nat -> occupied d (ahead d (home key (n_slots d)) i)) /\
    vacant d h /\
    d' = Dict (n_slots d) (<[Z.to_nat h := Entry (key mod KEY_PRIME) value]> (A d)).
Proof.
  intros Hwf Hins.
  assert (Hfree : has_free_slot d).
  { unfold insert in Hins. destruct (n_slots d =? 0); [discriminate|].
    destruct (insert_probe fuel d (home key (n_slots d))) as [h|] eqn:Hp; [|discriminate].
    exists h. apply (insert_probe_Some_vacant _ _ _ _ Hp). }
  destruct (insert_spec d key value Hwf Hfree) as (t & d'' & Ht & Hocc & Hvac & Hd'' & Hrun).
  exists t. cbv zeta in *. split; [exact Ht|]. split; [exact Hocc|]. split; [exact Hvac|].
  rewrite <- Hd''. destruct (Hrun (Nat.max fuel (S t)) ltac:(lia)) as [Hp2 Hi2].
  unfold insert in Hins, Hi2. destruct (n_slots d =? 0); [discriminate|].
  destruct (insert_probe fuel d (home key (n_slots d))) as [h|] eqn:Hp; [|discriminate].
  rewrite (insert_probe_more_fuel d fuel (Nat.max fuel (S t)) _ h Hp ltac:(lia)) in Hi2.
  destruct (Z.to_nat h <? length (A d))%nat; congruence.
Qed.

(** [insert] keeps what is stored, and stores the new pair. *)
Lemma insert_stored d key value fuel d' :
  wf d -> insert fuel key value d = Some d' ->
  wf d' /\ stored d' key value /\
  forall key0 y, stored d key0 y -> stored d' key0 y.
Proof.
  intros Hwf Hins.
  destruct (insert_Some_spec d key value fuel d' Hwf Hins) as (t & Ht & Hocc & Hvac & Hd').
  cbv zeta in *. set (h := ahead d (home key (n_slots d)) t) in *.
  pose proof (ahead_range d (home key (n_slots d)) t Hwf) as Hr. fold h in Hr.
  assert (Hlen : Z.of_nat (length (A d)) = n_slots d) by (destruct Hwf; assumption).
  assert (Hn' : n_slots d' = n_slots d) by (subst d'; reflexivity).
  assert (Hkeep : forall x, occupied d x -> occupied d' x).
  { intros x (e & He & Hne). exists e. split; [|exact Hne].
    subst d'. rewrite slot_insert_ne; [exact He | lia |].
    intros ->. destruct Hvac as (e0 & He0 & Hf0). congruence. }
  split.
  { subst d'. destruct Hwf as [Hn _]. split; cbn [n_slots A]; [exact Hn|].
    rewrite length_insert. exact Hlen. }
  split.
  - exists h. split; [subst d'; apply slot_insert_eq; lia|].
    exists t. unfold ahead in *. rewrite Hn'. split; [exact Ht|]. split; [reflexivity|].
    intros i Hi. apply Hkeep, Hocc, Hi.
  - intros key0 y (h0 & Hs0 & t0 & Ht0 & Hh0 & Hocc0).
    exists h0. split.
    + subst d'. rewrite slot_insert_ne; [exact Hs0 | lia |].
      intros ->. destruct Hvac as (e0 & He0 & Hf0).
      rewrite Hs0 in He0. injection He0 as <-.
      exact (truncated_key_not_empty key0 Hf0).
    + exists t0. unfold ahead in *. rewrite Hn'. split; [exact Ht0|]. split; [exact Hh0|].
      intros i Hi. apply Hkeep, Hocc0, Hi.
Qed.

(** The invariant of the dictionary: after any run of insertions that
    returned, every inserted pair is stored in a slot reached from the home
    slot of its key through occupied slots. *)
Lemma insert_all_stored fuel : forall kvs d d',
  wf d -> insert_all fuel kvs d = Some d' ->
  wf d' /\
  (forall key0 y, stored d key0 y -> stored d' key0 y) /\
  (forall key value, In (key, value) kvs -> stored d' key value).
Proof.
  induction kvs as [|[key value] rest IH]; intros d d' Hwf Hrun.
  - injection Hrun as <-. split; [exact Hwf|]. split; [auto|]. intros key value [].
  - cbn [insert_all] in Hrun.
    destruct (insert fuel key value d) as [d1|] eqn:Hins; [|discriminate].
    destruct (insert_stored d key value fuel d1 Hwf Hins) as (Hwf1 & Hnew & Hold).
    destruct (IH d1 d' Hwf1 Hrun) as (Hwf' & Hkeep & Hrest).
    split; [exact Hwf'|]. split; [auto|].
    intros key' value' [Heq | Hin].
    + injection Heq as <- <-. apply Hkeep, Hnew.
    + apply Hrest, Hin.
Qed.

(** *** What [probe] finds *)

Lemma probe_find_hit d key : wf d -> key <> EMPTY_KEY -> forall (t : nat) h,
  0 <= h < n_slots d ->
  (exists e, slot d (ahead d h t) = Some e /\ k e = key) ->
  (forall i : nat, (i < t)%nat -> occupied d (ahead d h i)) ->
  exists t' : nat, (t' <= t)%nat /\
    (exists e, slot d (ahead d h t') = Some e /\ k e = key) /\
    forall fuel, (t' < fuel)%nat ->
      probe_find fuel d key h = Some (Some (ahead d h t')).
Proof.
  intros Hwf Hkey. induction t as [|t IH]; intros h Hh Hhit Hocc.
  - exists 0%nat. split; [lia|]. split; [exact Hhit|].
    intros fuel Hfuel. destruct fuel as [|fuel]; [lia|].
    rewrite ahead_0 in * by assumption. destruct Hhit as (e & He & Hk).
    cbn [probe_find]. rewrite He, Hk.
    destruct (Z.eqb_spec key EMPTY_KEY); [contradiction|]. rewrite Z.eqb_refl. reflexivity.
  - destruct (Hocc 0%nat ltac:(lia)) as (e & He & Hne).
    rewrite ahead_0 in He by assumption.
    destruct (Z.eqb_spec (k e) key) as [Hk|Hk].
    + exists 0%nat. split; [lia|]. rewrite ahead_0 by assumption.
      split; [exists e; split; assumption|].
      intros fuel Hfuel. destruct fuel as [|fuel]; [lia|].
      cbn [probe_find]. rewrite He.
      destruct (Z.eqb_spec (k e) EMPTY_KEY); [contradiction|].
      destruct (Z.eqb_spec (k e) key); [reflexivity | contradiction].
    + assert (Hn : 0 <= next_slot d h < n_slots d).
      { rewrite next_slot_mod by assumption. apply Z.mod_pos_bound. destruct Hwf; lia. }
      rewrite <- ahead_next in Hhit by assumption.
      destruct (IH _ Hn Hhit) as (t' & Hle & Hhit' & Hrun).
      { intros i Hi. rewrite ahead_next by assumption. apply Hocc. lia. }
      exists (S t'). split; [lia|]. rewrite <- ahead_next by assumption.
      split; [exact Hhit'|].
      intros fuel Hfuel. destruct fuel as [|fuel]; [lia|].
      cbn [probe_find]. rewrite He.
      destruct (Z.eqb_spec (k e) EMPTY_KEY); [contradiction|].
      destruct (Z.eqb_spec (k e) key); [contradiction|].
      apply Hrun. lia.
Qed.

Lemma probe_collect_stops d key : wf d -> key <> EMPTY_KEY -> forall (t : nat) h acc,
  0 <= h < n_slots d -> vacant d (ahead d h t) ->
  exists vals,
    (forall y, In y vals -> exists h', slot d h' = Some (Entry key y)) /\
    ((exists e, slot d h = Some e /\ k e = key) -> vals <> []) /\
    forall fuel, (t < fuel)%nat -> probe_collect fuel d key h acc = Some (acc ++ vals).
Proof.
  intros Hwf Hkey. induction t as [|t IH]; intros h acc Hh Hvac.
  - rewrite ahead_0 in Hvac by assumption. destruct Hvac as (e & He & Hf).
    exists []. split; [intros y []|]. split.
    { intros (e' & He' & Hk'). rewrite He in He'. injection He' as <-.
      unfold free in Hf. congruence. }
    intros fuel Hfuel. destruct fuel as [|fuel]; [lia|].
    cbn [probe_collect]. rewrite He. unfold free in Hf. rewrite Hf.
    destruct (Z.eqb_spec EMPTY_KEY key); [congruence|]. rewrite app_nil_r. reflexivity.
  - destruct (slot_in_range d h) as [e He]; [destruct Hwf; lia|].
    destruct (Z.eqb_spec (k e) key) as [Hk|Hk].
    + assert (Hn : 0 <= next_slot d h < n_slots d).
      { rewrite next_slot_mod by assumption. apply Z.mod_pos_bound. destruct Hwf; lia. }
      rewrite <- ahead_next in Hvac by assumption.
      destruct (IH _ (acc ++ [v e]) Hn Hvac) as (vals & Hvals & _ & Hrun).
      exists (v e :: vals). split; [|split].
      * intros y [<- | Hin]; [|apply Hvals, Hin].
        exists h. rewrite He. f_equal. destruct e as [ke ve]. cbn in *. congruence.
      * intros _. discriminate.
      * intros fuel Hfuel. destruct fuel as [|fuel]; [lia|].
        cbn [probe_collect]. rewrite He.
        destruct (Z.eqb_spec (k e) key); [|contradiction].
        rewrite Hrun by lia. rewrite <- app_assoc. reflexivity.
    + exists []. split; [intros y []|]. split.
      { intros (e' & He' & Hk'). rewrite He in He'. injection He' as <-. contradiction. }
      intros fuel Hfuel. destruct fuel as [|fuel]; [lia|].
      cbn [probe_collect]. rewrite He.
      destruct (Z.eqb_spec (k e) key); [contradiction|]. rewrite app_nil_r. reflexivity.
Qed.

(** On a table that is not full, [probe] of a stored key returns, and returns
    at least one value; each value it returns is stored with the same
    truncated key (it need not be a value inserted with [key] itself, and a
    value inserted with [key] may be missing: see [probe_misses_stored_value]). *)
Lemma probe_finds_some d key y fuel :
  wf d -> has_free_slot d -> stored d key y -> n_slots d <= Z.of_nat fuel ->
  exists vals,
    probe fuel key d = Some vals /\ vals <> [] /\
    forall y', In y' vals -> exists h', slot d h' = Some (Entry (key mod KEY_PRIME) y').
Proof.
  intros Hwf Hfree (h & Hs & t & Ht & Hh & Hocc) Hfuel.
  assert (Hn : 0 < n_slots d) by (destruct Hwf; lia).
  pose proof (home_range key (n_slots d) Hn) as Hhome.
  pose proof (truncated_key_not_empty key) as Hkey.
  destruct (probe_find_hit d (key mod KEY_PRIME) Hwf Hkey t _ Hhome) as (t' & Hle & Hhit & Hfind).
  { rewrite <- Hh. eexists. split; [exact Hs | reflexivity]. }
  { exact Hocc. }
  set (h1 := ahead d (home key (n_slots d)) t') in *.
  pose proof (ahead_range d (home key (n_slots d)) t' Hwf) as Hr1. fold h1 in Hr1.
  destruct (has_free_slot_ahead d h1 Hwf Hfree Hr1) as (t2 & Ht2 & Hvac2).
  destruct (probe_collect_stops d (key mod KEY_PRIME) Hwf Hkey t2 h1 [] Hr1 Hvac2)
    as (vals & Hvals & Hne & Hrun).
  exists vals. split; [|split; [exact (Hne Hhit) | exact Hvals]].
  unfold probe. destruct (Z.eqb_spec (n_slots d) 0); [lia|]. cbv zeta.
  rewrite Hfind by lia. rewrite Hrun by lia. reflexivity.
Qed.

(** A table as constructed (all slots free) holds no key: [probe] returns no
    value at once. *)
Lemma probe_create n key fuel :
  0 < n < u64_mod -> probe (S fuel) key (create n) = Some [].
Proof.
  intros Hn. unfold probe. cbn [n_slots create].
  destruct (Z.eqb_spec n 0); [lia|]. cbv zeta. cbn [probe_find].
  rewrite slot_create by (apply home_range; lia). cbn [k]. rewrite Z.eqb_refl. reflexivity.
Qed.

(** *** Insertion after a miss *)

(** The fast path of [probe]: it has walked over occupied slots of other
    keys up to a free slot. *)
Lemma probe_find_miss d key : wf d -> forall fuel h,
  0 <= h < n_slots d -> probe_find fuel d key h = Some None ->
  exists t : nat, (t < fuel)%nat /\ vacant d (ahead d h t) /\
    forall i : nat, (i < t)%nat ->
      exists e, slot d (ahead d h i) = Some e /\ ~ free e /\ k e <> key.
Proof.
  intros Hwf. induction fuel as [|fuel IH]; intros h Hh Hrun; [discriminate|].
  cbn [probe_find] in Hrun. destruct (slot d h) as [e|] eqn:He; [|discriminate].
  destruct (Z.eqb_spec (k e) EMPTY_KEY) as [Hk|Hk].
  - exists 0%nat. split; [lia|]. rewrite ahead_0 by assumption.
    split; [exists e; split; assumption|]. intros i Hi. lia.
  - destruct (Z.eqb_spec (k e) key) as [Hk'|Hk']; [discriminate|].
    assert (Hn : 0 <= next_slot d h < n_slots d).
    { rewrite next_slot_mod by assumption. apply Z.mod_pos_bound. destruct Hwf; lia. }
    destruct (IH _ Hn Hrun) as (t & Ht & Hvac & Hocc).
    exists (S t). split; [lia|]. rewrite <- ahead_next by assumption.
    split; [exact Hvac|]. intros i Hi. destruct i as [|i].
    + rewrite ahead_0 by assumption. exists e. repeat split; assumption.
    + rewrite <- ahead_next by assumption. apply Hocc. lia.
Qed.

(** The first loop of [probe] walks over occupied slots of other keys. *)
Lemma probe_find_walk d key : wf d -> forall (t : nat) h fuel,
  0 <= h < n_slots d ->
  (forall i : nat, (i < t)%nat ->
     exists e, slot d (ahead d h i) = Some e /\ ~ free e /\ k e <> key) ->
  probe_find (t + fuel) d key h = probe_find fuel d key (ahead d h t).
Proof.
  intros Hwf. induction t as [|t IH]; intros h fuel Hh Hocc.
  - rewrite ahead_0 by assumption. reflexivity.
  - destruct (Hocc 0%nat ltac:(lia)) as (e & He & Hne & Hk).
    rewrite ahead_0 in He by assumption.
    change (S t + fuel)%nat with (S (t + fuel)). cbn [probe_find]. rewrite He.
    destruct (Z.eqb_spec (k e) EMPTY_KEY); [contradiction|].
    destruct (Z.eqb_spec (k e) key); [contradiction|].
    assert (Hn : 0 <= next_slot d h < n_slots d).
    { rewrite next_slot_mod by assumption. apply Z.mod_pos_bound. destruct Hwf; lia. }
    rewrite IH; [|exact Hn|].
    + rewrite ahead_next by assumption. reflexivity.
    + intros i Hi. rewrite ahead_next by assumption. apply Hocc. lia.
Qed.

(** The second loop of [probe], started on a slot that holds [key]: the
    value of that slot comes first. *)
Lemma probe_collect_head d key y : wf d -> key <> EMPTY_KEY -> forall (t : nat) h acc,
  0 <= h < n_slots d -> slot d h = Some (Entry key y) -> vacant d (ahead d h t) ->
  exists rest,
    (forall y', In y' rest -> exists h', slot d h' = Some (Entry key y')) /\
    forall fuel, (t < fuel)%nat -> probe_collect fuel d key h acc = Some (acc ++ y :: rest).
Proof.
  intros Hwf Hkey t h acc Hh Hs Hvac.
  destruct t as [|t].
  { rewrite ahead_0 in Hvac by assumption. destruct Hvac as (e & He & Hf).
    rewrite Hs in He. injection He as <-. contradiction. }
  assert (Hn : 0 <= next_slot d h < n_slots d).
  { rewrite next_slot_mod by assumption. apply Z.mod_pos_bound. destruct Hwf; lia. }
  rewrite <- ahead_next in Hvac by assumption.
  destruct (probe_collect_stops d key Hwf Hkey t (next_slot d h) (acc ++ [y]) Hn Hvac)
    as (rest & Hrest & _ & Hrun).
  exists rest. split; [exact Hrest|].
  intros fuel Hfuel. destruct fuel as [|fuel]; [lia|].
  cbn [probe_collect]. rewrite Hs. cbn [k v]. rewrite Z.eqb_refl.
  rewrite Hrun by lia. rewrite <- app_assoc. reflexivity.
Qed.

Lemma probe_find_Some_hit d key : forall fuel h h',
  probe_find fuel d key h = Some (Some h') -> exists e, slot d h' = Some e /\ k e = key.
Proof.
  induction fuel as [|fuel IH]; intros h h' Hpf; [discriminate|].
  cbn [probe_find] in Hpf. destruct (slot d h) as [e|] eqn:He; [|discriminate].
  destruct (k e =? EMPTY_KEY); [discriminate|].
  destruct (Z.eqb_spec (k e) key) as [Hk|Hk]; [|exact (IH _ _ Hpf)].
  injection Hpf as <-. exists e. split; assumption.
Qed.

Lemma probe_collect_grows d key : forall fuel h acc vals,
  probe_collect fuel d key h acc = Some vals -> (length acc <= length vals)%nat.
Proof.
  induction fuel as [|fuel IH]; intros h acc vals Hrun; [discriminate|].
  cbn [probe_collect] in Hrun. destruct (slot d h) as [e|]; [|discriminate].
  destruct (k e =? key).
  - apply IH in Hrun. rewrite length_app in Hrun. cbn in Hrun. lia.
  - injection Hrun as <-. lia.
Qed.

(** [probe] returns no value only through its fast path. *)
Lemma probe_nil_fast_path d key fuel :
  probe fuel key d = Some [] ->
  probe_find fuel d (key mod KEY_PRIME) (home key (n_slots d)) = Some None.
Proof.
  unfold probe. destruct (n_slots d =? 0); [discriminate|]. cbv zeta.
  destruct (probe_find fuel d _ _) as [[h|]|] eqn:Hpf; [|reflexivity|discriminate].
  intros Hrun. exfalso.
  destruct (probe_find_Some_hit _ _ _ _ _ Hpf) as (e & He & Hk).
  destruct fuel as [|fuel]; [discriminate|].
  cbn [probe_collect] in Hrun. rewrite He, Hk, Z.eqb_refl in Hrun.
  apply probe_collect_grows in Hrun. cbn in Hrun. lia.
Qed.


Lemma probe_collect_prefix d key : forall fuel h acc vals,
  probe_collect fuel d key h acc = Some vals -> exists rest, vals = acc ++ rest.
Proof.
  induction fuel as [|fuel IH]; intros h acc vals Hrun; [discriminate|].
  cbn [probe_collect] in Hrun. destruct (slot d h) as [e|]; [|discriminate].
  destruct (k e =? key).
  - apply IH in Hrun. destruct Hrun as [rest ->]. exists (v e :: rest).
    rewrite <- app_assoc. reflexivity.
  - injection Hrun as <-. exists []. rewrite app_nil_r. reflexivity.
Qed.

(** With too little fuel the first loop of [probe] is still walking. *)
Lemma probe_find_walk_short d key : wf d -> forall (fuel t : nat) h,
  0 <= h < n_slots d -> (fuel <= t)%nat ->
  (forall i : nat, (i < t)%nat ->
     exists e, slot d (ahead d h i) = Some e /\ ~ free e /\ k e <> key) ->
  probe_find fuel d key h = None.
Proof.
  intros Hwf. induction fuel as [|fuel IH]; intros t h Hh Hle Hocc; [reflexivity|].
  destruct t as [|t]; [lia|].
  destruct (Hocc 0%nat ltac:(lia)) as (e & He & Hne & Hk).
  rewrite ahead_0 in He by assumption. cbn [probe_find]. rewrite He.
  destruct (Z.eqb_spec (k e) EMPTY_KEY); [contradiction|].
  destruct (Z.eqb_spec (k e) key); [contradiction|].
  assert (Hn : 0 <= next_slot d h < n_slots d).
  { rewrite next_slot_mod by assumption. apply Z.mod_pos_bound. destruct Hwf; lia. }
  apply (IH t); [exact Hn | lia |].
  intros i Hi. rewrite ahead_next by assumption. apply Hocc. lia.
Qed.

(** [insert] writes a free slot only: what a first hit rests on is kept. *)
Lemma first_hit_insert_keep d key y key' value fuel d' :
  wf d -> first_hit d key y -> insert fuel key' value d = Some d' -> first_hit d' key y.
Proof.
  intros Hwf (t & Ht & Hs & Hother) Hins.
  destruct (insert_Some_spec d key' value fuel d' Hwf Hins) as (t' & Ht' & _ & Hvac & Hd').
  cbv zeta in *. set (h' := ahead d (home key' (n_slots d)) t') in *.
  pose proof (ahead_range d (home key' (n_slots d)) t' Hwf) as Hr. fold h' in Hr.
  assert (Hn' : n_slots d' = n_slots d) by (subst d'; reflexivity).
  assert (Hkeep : forall x e, slot d x = Some e -> ~ free e -> slot d' x = Some e).
  { intros x e He Hne. subst d'. rewrite slot_insert_ne; [exact He | lia |].
    intros ->. destruct Hvac as (e0 & He0 & Hf0). congruence. }
  exists t. unfold ahead in *. rewrite Hn'. split; [exact Ht|]. split.
  - apply Hkeep; [exact Hs|]. unfold free. cbn [k]. apply truncated_key_not_empty.
  - intros i Hi. destruct (Hother i Hi) as (e & He & Hne & Hk). exists e.
    split; [apply Hkeep; assumption|]. split; assumption.
Qed.

Lemma first_hit_insert_all_keep key y fuel : forall kvs d d',
  wf d -> first_hit d key y -> insert_all fuel kvs d = Some d' -> wf d' /\ first_hit d' key y.
Proof.
  induction kvs as [|[key' value] rest IH]; intros d d' Hwf Hhit Hrun.
  - injection Hrun as <-. split; assumption.
  - cbn [insert_all] in Hrun.
    destruct (insert fuel key' value d) as [d1|] eqn:Hins; [|discriminate].
    destruct (insert_stored d key' value fuel d1 Hwf Hins) as (Hwf1 & _ & _).
    apply (IH d1 d' Hwf1); [|exact Hrun].
    exact (first_hit_insert_keep d key y key' value fuel d1 Hwf Hhit Hins).
Qed.

(** [insert] after a walk over other keys up to a free slot makes a first hit. *)
Lemma first_hit_insert_new d key value fuel d' (t : nat) :
  wf d -> vacant d (ahead d (home key (n_slots d)) t) ->
  (forall i : nat, (i < t)%nat ->
     exists e, slot d (ahead d (home key (n_slots d)) i) = Some e /\
               ~ free e /\ k e <> key mod KEY_PRIME) ->
  insert fuel key value d = Some d' ->
  first_hit d' key value.
Proof.
  intros Hwf Hvac Hother Hins.
  destruct (insert_Some_spec d key value fuel d' Hwf Hins) as (t' & Ht' & Hocc' & Hvac' & Hd').
  cbv zeta in *.
  assert (Htt : t' = t).
  { destruct (Nat.lt_trichotomy t' t) as [Hlt | [Heq | Hgt]]; [|exact Heq|].
    - destruct (Hother t' Hlt) as (e & He & Hne & _).
      destruct Hvac' as (e' & He' & Hf'). congruence.
    - destruct (Hocc' t Hgt) as (e & He & Hne).
      destruct Hvac as (e' & He' & Hf'). congruence. }
  subst t'. set (h0 := home key (n_slots d)) in *. set (h := ahead d h0 t) in *.
  pose proof (ahead_range d h0 t Hwf) as Hr. fold h in Hr.
  assert (Hlen : Z.of_nat (length (A d)) = n_slots d) by (destruct Hwf; assumption).
  assert (Hn' : n_slots d' = n_slots d) by (subst d'; reflexivity).
  exists t. unfold ahead in *. rewrite Hn'. fold h0. split; [exact Ht'|]. split.
  - subst d'. apply slot_insert_eq. lia.
  - intros i Hi. destruct (Hother i Hi) as (e & He & Hne & Hk). exists e.
    split; [|split; assumption]. subst d'.
    rewrite slot_insert_ne; [exact He | lia |].
    intros Heq. destruct Hvac as (e0 & He0 & Hf0). rewrite Heq in He. congruence.
Qed.

(** On a first hit, a [probe] that returns returns the value first. *)
Lemma first_hit_probe_head d key y fuel keys :
  wf d -> first_hit d key y -> probe fuel key d = Some keys ->
  exists rest, keys = y :: rest.
Proof.
  intros Hwf (t & Ht & Hs & Hother) Hrun.
  assert (Hn : 0 < n_slots d) by (destruct Hwf; lia).
  pose proof (home_range key (n_slots d) Hn) as Hhome.
  pose proof (truncated_key_not_empty key) as Hkey.
  unfold probe in Hrun. destruct (Z.eqb_spec (n_slots d) 0); [lia|]. cbv zeta in Hrun.
  set (h0 := home key (n_slots d)) in *. set (kt := key mod KEY_PRIME) in *.
  destruct (Nat.le_gt_cases fuel t) as [Hshort|Hlong].
  { rewrite (probe_find_walk_short d kt Hwf fuel t h0 Hhome Hshort Hother) in Hrun.
    discriminate. }
  replace fuel with (t + (fuel - t))%nat in Hrun at 1 by lia.
  rewrite (probe_find_walk d kt Hwf t h0 (fuel - t) Hhome Hother) in Hrun.
  destruct (fuel - t)%nat as [|m] eqn:Hm; [lia|].
  cbn [probe_find] in Hrun. rewrite Hs in Hrun. cbn [k] in Hrun.
  destruct (Z.eqb_spec kt EMPTY_KEY); [contradiction|]. rewrite Z.eqb_refl in Hrun.
  destruct fuel as [|fuel]; [lia|]. cbn [probe_collect] in Hrun.
  rewrite Hs in Hrun. cbn [k v] in Hrun. rewrite Z.eqb_refl in Hrun.
  apply probe_collect_prefix in Hrun. destruct Hrun as [rest ->]. exists rest. reflexivity.
Qed.

(** On a first hit in a table that is not full, [probe] returns. *)
Lemma first_hit_probe_returns d key y fuel :
  wf d -> first_hit d key y -> has_free_slot d -> n_slots d < Z.of_nat fuel ->
  exists rest,
    probe fuel key d = Some (y :: rest) /\
    forall y', In y' rest -> exists h, slot d h = Some (Entry (key mod KEY_PRIME) y').
Proof.
  intros Hwf (t & Ht & Hs & Hother) Hfree Hfuel.
  assert (Hn : 0 < n_slots d) by (destruct Hwf; lia).
  pose proof (home_range key (n_slots d) Hn) as Hhome.
  pose proof (truncated_key_not_empty key) as Hkey.
  set (h0 := home key (n_slots d)) in *. set (h := ahead d h0 t) in *.
  pose proof (ahead_range d h0 t Hwf) as Hr. fold h in Hr.
  destruct (has_free_slot_ahead d h Hwf Hfree Hr) as (t2 & Ht2 & Hvac2).
  destruct (probe_collect_head d (key mod KEY_PRIME) y Hwf Hkey t2 h [] Hr Hs Hvac2)
    as (rest & Hrest & Hrun).
  exists rest. split; [|exact Hrest].
  unfold probe. destruct (Z.eqb_spec (n_slots d) 0); [lia|]. cbv zeta. fold h0.
  replace fuel with (t + (fuel - t))%nat at 1 by lia.
  rewrite (probe_find_walk d _ Hwf t h0 (fuel - t) Hhome Hother). fold h.
  destruct (fuel - t)%nat as [|m] eqn:Hm; [lia|].
  cbn [probe_find]. rewrite Hs. cbn [k].
  destruct (Z.eqb_spec (key mod KEY_PRIME) EMPTY_KEY); [contradiction|].
  rewrite Z.eqb_refl. rewrite Hrun by lia. reflexivity.
Qed.

(** Insert, then look up.  When [probe(key)] finds nothing in a table,
    [insert(key, value)] makes [value] the first value that [probe(key)]
    returns, and it stays so whatever is inserted next, under this key or
    another, as long as the table is not full. *)
Theorem probe_insert_after_miss d key value kvs fuel d1 d2 :
  wf d -> n_slots d < Z.of_nat fuel ->
  probe fuel key d = Some [] ->
  insert fuel key value d = Some d1 ->
  insert_all fuel kvs d1 = Some d2 ->
  has_free_slot d2 ->
  exists rest,
    probe fuel key d2 = Some (value :: rest) /\
    forall y, In y rest -> exists h, slot d2 h = Some (Entry (key mod KEY_PRIME) y).
Proof.
  intros Hwf Hfuel Hmiss Hins Hall Hfree.
  assert (Hn : 0 < n_slots d) by (destruct Hwf; lia).
  pose proof (home_range key (n_slots d) Hn) as Hhome.
  apply probe_nil_fast_path in Hmiss.
  destruct (probe_find_miss d _ Hwf _ _ Hhome Hmiss) as (t & Ht & Hvac & Hother).
  pose proof (first_hit_insert_new d key value fuel d1 t Hwf Hvac Hother Hins) as Hhit1.
  destruct (insert_stored d key value fuel d1 Hwf Hins) as (Hwf1 & _ & _).
  destruct (first_hit_insert_all_keep key value fuel kvs d1 d2 Hwf1 Hhit1 Hall) as (Hwf2 & Hhit2).
  apply first_hit_probe_returns; try assumption.
  assert (Hn1 : n_slots d1 = n_slots d).
  { destruct (insert_Some_spec d key value fuel d1 Hwf Hins) as (? & _ & _ & _ & ->). reflexivity. }
  assert (Hn2 : forall kvs d1 d2, wf d1 -> insert_all fuel kvs d1 = Some d2 -> n_slots d2 = n_slots d1).
  { clear. induction kvs as [|[key' value'] rest IH]; intros d1 d2 Hwf1 Hrun.
    - injection Hrun as <-. reflexivity.
    - cbn [insert_all] in Hrun.
      destruct (insert fuel key' value' d1) as [d|] eqn:Hins; [|discriminate].
      destruct (insert_stored d1 key' value' fuel d Hwf1 Hins) as (Hwf & _ & _).
      rewrite (IH d d2 Hwf Hrun).
      destruct (insert_Some_spec d1 key' value' fuel d Hwf1 Hins) as (? & _ & _ & _ & ->).
      reflexivity. }
  rewrite (Hn2 kvs d1 d2 Hwf1 Hall), Hn1. exact Hfuel.
Qed.

(** *** A run of values under one key *)

Lemma ahead_inj d h (i j : nat) :
  wf d -> Z.of_nat i < n_slots d -> Z.of_nat j < n_slots d ->
  ahead d h i = ahead d h j -> i = j.
Proof.
  intros [Hn _] Hi Hj Heq. unfold ahead in Heq.
  assert (Hd : (n_slots d | (h + Z.of_nat i) - (h + Z.of_nat j))).
  { apply Z.mod_divide; [lia|]. rewrite Zminus_mod, Heq, Z.sub_diag. reflexivity. }
  destruct Hd as [q Hq]. assert (q = 0) by nia. lia.
Qed.


Lemma next_slot_ahead d h (i : nat) :
  wf d -> next_slot d (ahead d h i) = ahead d h (S i).
Proof.
  intros Hwf. rewrite next_slot_mod by (try apply ahead_range; assumption).
  unfold ahead. rewrite Zplus_mod_idemp_l. f_equal. lia.
Qed.

Lemma holds_run_vacant d h0 kt vals :
  wf d -> holds_run d h0 kt vals -> Z.of_nat (length vals) < n_slots d ->
  slot d (ahead d h0 (length vals)) = Some (Entry EMPTY_KEY 0).
Proof.
  intros Hwf [_ Hrest] Hlen. apply Hrest; [apply ahead_range; exact Hwf|].
  intros i Hi Heq. apply ahead_inj in Heq; [lia | exact Hwf | lia | lia].
Qed.

(** One more insertion under the same key extends the run. *)
Lemma insert_holds_run d key w vals fuel :
  wf d -> holds_run d (home key (n_slots d)) (key mod KEY_PRIME) vals ->
  Z.of_nat (length vals) < n_slots d -> (length vals < fuel)%nat ->
  exists d', insert fuel key w d = Some d' /\ wf d' /\ n_slots d' = n_slots d /\
             holds_run d' (home key (n_slots d)) (key mod KEY_PRIME) (vals ++ [w]).
Proof.
  intros Hwf Hrun Hlen Hfuel.
  assert (Hn : 0 < n_slots d) by (destruct Hwf; lia).
  pose proof (home_range key (n_slots d) Hn) as Hhome.
  pose proof (truncated_key_not_empty key) as Hkey.
  set (h0 := home key (n_slots d)) in *. set (kt := key mod KEY_PRIME) in *.
  set (t := length vals) in *.
  pose proof (holds_run_vacant d h0 kt vals Hwf Hrun Hlen) as Hvac. fold t in Hvac.
  destruct (insert_probe_first_free d Hwf t h0 Hhome) as (t' & Hle & Hocc & Hvac' & Hgo).
  { eexists. split; [exact Hvac | reflexivity]. }
  assert (Htt : t' = t).
  { destruct (Nat.eq_dec t' t) as [E|E]; [exact E|]. exfalso.
    destruct (lookup_lt_is_Some_2 vals t' ltac:(unfold t in *; lia)) as [y Hy].
    destruct Hrun as [Hrun _]. specialize (Hrun t' y Hy).
    destruct Hvac' as (e & He & Hf). rewrite Hrun in He. injection He as <-.
    unfold free in Hf. cbn in Hf. contradiction. }
  subst t'. set (h := ahead d h0 t) in *.
  pose proof (ahead_range d h0 t Hwf) as Hr. fold h in Hr.
  assert (HlenA : Z.of_nat (length (A d)) = n_slots d) by (destruct Hwf; assumption).
  eexists. split.
  { unfold insert. destruct (Z.eqb_spec (n_slots d) 0); [lia|]. fold h0.
    rewrite (Hgo fuel Hfuel). fold h.
    destruct (Nat.ltb_spec (Z.to_nat h) (length (A d))); [reflexivity | lia]. }
  split.
  { destruct Hwf as [Hn0 _]. split; cbn [n_slots A]; [exact Hn0|].
    rewrite length_insert. exact HlenA. }
  split; [reflexivity|].
  destruct Hrun as [Hin Hout]. split.
  - intros i y Hy. change (ahead _ h0 i) with (ahead d h0 i).
    destruct (Nat.lt_ge_cases i t) as [Hi|Hi].
    + rewrite lookup_app_l in Hy by exact Hi.
      rewrite slot_insert_ne; [apply Hin; exact Hy | lia |].
      intros Heq. apply ahead_inj in Heq; [lia | exact Hwf | lia | lia].
    + rewrite lookup_app_r in Hy by exact Hi. fold t in Hy.
      destruct (i - t)%nat as [|m] eqn:Hm; [|destruct m; discriminate].
      injection Hy as <-. assert (i = t) by lia. subst i.
      apply slot_insert_eq. lia.
  - intros h' Hh' Hnot. cbn [n_slots] in Hh'.
    rewrite length_app in Hnot. cbn [length] in Hnot. fold t in Hnot.
    rewrite slot_insert_ne; [|lia|].
    + apply Hout; [exact Hh'|]. intros i Hi. fold t in Hi.
      change (ahead d h0 i) with (ahead (Dict (n_slots d) (<[Z.to_nat h:=Entry kt w]> (A d))) h0 i).
      apply Hnot. lia.
    + change h with (ahead (Dict (n_slots d) (<[Z.to_nat h:=Entry kt w]> (A d))) h0 t).
      apply Hnot. lia.
Qed.

(** The second loop of [probe] on a run: it collects what is left of it. *)
Lemma probe_collect_run d h0 kt vals :
  wf d -> kt <> EMPTY_KEY -> holds_run d h0 kt vals -> Z.of_nat (length vals) < n_slots d ->
  forall (r i : nat) acc, (i + r = length vals)%nat ->
  forall fuel, (r < fuel)%nat ->
    probe_collect fuel d kt (ahead d h0 i) acc = Some (acc ++ drop i vals).
Proof.
  intros Hwf Hkey Hrun Hlen. induction r as [|r IH]; intros i acc Hi fuel Hfuel.
  - destruct fuel as [|fuel]; [lia|]. cbn [probe_collect].
    replace i with (length vals) by lia.
    rewrite (holds_run_vacant d h0 kt vals Hwf Hrun Hlen). cbn [k].
    destruct (Z.eqb_spec EMPTY_KEY kt); [congruence|].
    rewrite drop_all, app_nil_r. reflexivity.
  - destruct fuel as [|fuel]; [lia|]. cbn [probe_collect].
    destruct (lookup_lt_is_Some_2 vals i ltac:(lia)) as [y Hy].
    destruct Hrun as [Hin Hout]. rewrite (Hin i y Hy). cbn [k v]. rewrite Z.eqb_refl.
    rewrite next_slot_ahead by exact Hwf.
    rewrite (IH (S i) (acc ++ [y])) by lia.
    rewrite (drop_S vals y i Hy), <- app_assoc. reflexivity.
Qed.

Lemma holds_run_create n h0 kt : 0 < n < u64_mod -> holds_run (create n) h0 kt [].
Proof.
  intros Hn. split.
  - intros i y Hy. discriminate.
  - intros h Hh _. apply slot_create. exact Hh.
Qed.

Lemma insert_all_holds_run key fuel : forall ws d vals,
  wf d -> holds_run d (home key (n_slots d)) (key mod KEY_PRIME) vals ->
  Z.of_nat (length vals + length ws) < n_slots d -> (length vals + length ws <= fuel)%nat ->
  exists d', insert_all fuel (map (fun w => (key, w)) ws) d = Some d' /\ wf d' /\
             n_slots d' = n_slots d /\
             holds_run d' (home key (n_slots d)) (key mod KEY_PRIME) (vals ++ ws).
Proof.
  induction ws as [|w ws IH]; intros d vals Hwf Hrun Hlen Hfuel.
  - exists d. rewrite app_nil_r. split; [reflexivity|]. split; [exact Hwf|].
    split; [reflexivity | exact Hrun].
  - cbn [length] in *. cbn [map insert_all].
    destruct (insert_holds_run d key w vals fuel Hwf Hrun ltac:(lia) ltac:(lia))
      as (d1 & Hins & Hwf1 & Hn1 & Hrun1).
    rewrite Hins. rewrite <- Hn1 in Hrun1.
    destruct (IH d1 (vals ++ [w]) Hwf1 Hrun1) as (d' & Hall & Hwf' & Hn' & Hrun').
    { rewrite length_app. cbn [length]. lia. }
    { rewrite length_app. cbn [length]. lia. }
    exists d'. split; [exact Hall|]. split; [exact Hwf'|]. split; [lia|].
    rewrite Hn1 in Hrun'. rewrite <- app_assoc in Hrun'. exact Hrun'.
Qed.

(** Insert, then look up, with several values under one key.  On a table as
    constructed, with [n] slots, inserting fewer than [n] values under the
    same key and then probing that key returns exactly those values, in the
    order of insertion (so [probe] may return up to [n - 1] values). *)
Theorem probe_same_key_run n key values fuel :
  0 < n < u64_mod -> Z.of_nat (length values) < n -> (length values < fuel)%nat ->
  exists d',
    insert_all fuel (map (fun w => (key, w)) values) (create n) = Some d' /\
    probe fuel key d' = Some values.
Proof.
  intros Hn Hlen Hfuel.
  pose proof (truncated_key_not_empty key) as Hkey.
  destruct (insert_all_holds_run key fuel values (create n) [] (wf_create n Hn)
              (holds_run_create n _ _ Hn)) as (d' & Hall & Hwf' & Hn' & Hrun).
  { cbn [length n_slots create]. lia. }
  { cbn [length]. lia. }
  cbn [app n_slots create] in *.
  exists d'. split; [exact Hall|].
  unfold probe. rewrite Hn'. destruct (Z.eqb_spec n 0); [lia|]. cbv zeta.
  set (h0 := home key n) in *. set (kt := key mod KEY_PRIME) in *.
  assert (Hh0 : 0 <= h0 < n_slots d') by (rewrite Hn'; apply home_range; lia).
  assert (Ha0 : ahead d' h0 0 = h0) by (apply ahead_0; assumption).
  destruct fuel as [|fuel]; [lia|].
  destruct values as [|y values].
  - cbn [probe_find]. pose proof (holds_run_vacant d' h0 kt [] Hwf' Hrun ltac:(cbn; lia)) as Hv.
    cbn [length] in Hv. rewrite Ha0 in Hv. rewrite Hv. cbn [k]. rewrite Z.eqb_refl. reflexivity.
  - pose proof (proj1 Hrun 0%nat y eq_refl) as Hs. rewrite Ha0 in Hs.
    cbn [probe_find]. rewrite Hs. cbn [k].
    destruct (Z.eqb_spec kt EMPTY_KEY); [contradiction|]. rewrite Z.eqb_refl.
    pose proof (probe_collect_run d' h0 kt (y :: values) Hwf' Hkey Hrun ltac:(lia)
                  (length (y :: values)) 0%nat [] eq_refl (S fuel) Hfuel) as Hc.
    rewrite Ha0 in Hc. exact Hc.
Qed.


(** *** Keys that are not in the table *)

Lemma no_key_create n kt : kt <> EMPTY_KEY -> no_key (create n) kt.
Proof.
  intros Hkt h e He. unfold slot, create in He. cbn [A] in He.
  destruct (h <? 0); [discriminate|].
  apply lookup_replicate in He. destruct He as [-> _]. cbn [k]. congruence.
Qed.

Lemma no_key_insert d kt key value fuel d' :
  wf d -> no_key d kt -> key mod KEY_PRIME <> kt -> insert fuel key value d = Some d' ->
  no_key d' kt.
Proof.
  intros Hwf Hno Hne Hins.
  destruct (insert_Some_spec d key value fuel d' Hwf Hins) as (t & Ht & _ & Hvac & Hd').
  cbv zeta in *. set (h := ahead d (home key (n_slots d)) t) in *.
  pose proof (ahead_range d (home key (n_slots d)) t Hwf) as Hr. fold h in Hr.
  assert (Hlen : Z.of_nat (length (A d)) = n_slots d) by (destruct Hwf; assumption).
  intros h' e He. destruct (Z.eq_dec h' h) as [->|Hh].
  - subst d'. rewrite slot_insert_eq in He by lia. injection He as <-. exact Hne.
  - subst d'. rewrite slot_insert_ne in He by lia. exact (Hno h' e He).
Qed.

Lemma no_key_insert_all kt fuel : forall kvs d d',
  wf d -> no_key d kt -> (forall key value, In (key, value) kvs -> key mod KEY_PRIME <> kt) ->
  insert_all fuel kvs d = Some d' -> wf d' /\ no_key d' kt.
Proof.
  induction kvs as [|[key value] rest IH]; intros d d' Hwf Hno Hkeys Hrun.
  - injection Hrun as <-. split; assumption.
  - cbn [insert_all] in Hrun.
    destruct (insert fuel key value d) as [d1|] eqn:Hins; [|discriminate].
    destruct (insert_stored d key value fuel d1 Hwf Hins) as (Hwf1 & _ & _).
    apply (IH d1 d' Hwf1); [| |exact Hrun].
    + apply (no_key_insert d kt key value fuel d1 Hwf Hno); [|exact Hins].
      apply (Hkeys key value). left. reflexivity.
    + intros key' value' Hin. apply (Hkeys key' value'). right. exact Hin.
Qed.

Lemma insert_all_app fuel : forall kvs1 kvs2 d d',
  insert_all fuel (kvs1 ++ kvs2) d = Some d' ->
  exists d1, insert_all fuel kvs1 d = Some d1 /\ insert_all fuel kvs2 d1 = Some d'.
Proof.
  induction kvs1 as [|[key value] rest IH]; intros kvs2 d d' Hrun.
  - exists d. split; [reflexivity | exact Hrun].
  - cbn [app insert_all] in *. destruct (insert fuel key value d) as [d0|]; [|discriminate].
    exact (IH _ _ _ Hrun).
Qed.

(** The first insertion under a truncated key makes a first hit. *)
Lemma first_hit_insert_no_key d key value fuel d' :
  wf d -> no_key d (key mod KEY_PRIME) -> insert fuel key value d = Some d' ->
  first_hit d' key value.
Proof.
  intros Hwf Hno Hins.
  destruct (insert_Some_spec d key value fuel d' Hwf Hins) as (t & Ht & Hocc & Hvac & Hd').
  cbv zeta in *.
  apply (first_hit_insert_new d key value fuel d' t Hwf Hvac); [|exact Hins].
  intros i Hi. destruct (Hocc i Hi) as (e & He & Hne). exists e.
  split; [exact He|]. split; [exact Hne|]. exact (Hno _ e He).
Qed.

Lemma insert_all_stored_witness :
  wf table_4 /\
  (forall key0 y, stored (create 4) key0 y -> stored table_4 key0 y) /\
  (forall key value, In (key, value) [(0, 10); (4, 20); (0, 30)] -> stored table_4 key value).
Proof.
  apply (insert_all_stored 4 [(0, 10); (4, 20); (0, 30)] (create 4) table_4).
  - apply wf_create. unfold u64_mod. lia.
  - reflexivity.
Defined.

Lemma probe_finds_some_witness :
  exists vals,
    probe 4 0 table_4 = Some vals /\ vals <> [] /\
    forall y', In y' vals -> exists h', slot table_4 h' = Some (Entry (0 mod KEY_PRIME) y').
Proof.
  apply (probe_finds_some table_4 0 30 4).
  - split; [unfold u64_mod; cbn; lia | reflexivity].
  - exact (proj1 (proj2 probe_misses_stored_value_parts)).
  - exact (proj2 (proj2 probe_misses_stored_value_parts)).
  - cbn. lia.
Defined.

Lemma probe_create_witness : probe 1 7 (create 4) = Some [].
Proof. apply (probe_create 4 7 0). unfold u64_mod. lia. Defined.

Lemma probe_insert_after_miss_witness :
  exists rest,
    probe 5 5 table_3 = Some (9 :: rest) /\
    forall y, In y rest -> exists h, slot table_3 h = Some (Entry (5 mod KEY_PRIME) y).
Proof.
  apply (probe_insert_after_miss (create 4) 5 9 [(0, 10); (4, 20)] 5
           (Dict 4 [Entry EMPTY_KEY 0; Entry 5 9; Entry EMPTY_KEY 0; Entry EMPTY_KEY 0]) table_3).
  - apply wf_create. unfold u64_mod. lia.
  - cbn. lia.
  - reflexivity.
  - reflexivity.
  - reflexivity.
  - exists 3, (Entry EMPTY_KEY 0). split; reflexivity.
Defined.

Lemma probe_same_key_run_witness :
  exists d',
    insert_all 4 (map (fun w => (0, w)) [10; 20; 30]) (create 4) = Some d' /\
    probe 4 0 d' = Some [10; 20; 30].
Proof.
  apply (probe_same_key_run 4 0 [10; 20; 30] 4); [unfold u64_mod; lia | cbn; lia | cbn; lia].
Defined.

End DictFacts.

(** ** The naive distributed claw search: properties *)

Module NaiveFacts.
Import CompactDict NaiveClaw.

Lemma pushed_phase_1 Pb x z : pushed Pb 1 (x, z) -> z = g Pb x.
Proof. intros [n_recv H]. cbn in H. congruence. Qed.

Lemma pushed_intro Pb phase n_recv x :
  pushed Pb phase (x, msg_z (sender_push Pb phase n_recv x)).
Proof. exists n_recv. reflexivity. Qed.

(** What the sender's loop pushes is [pushed]. *)
Lemma sender_phase_pushed Pb phase n_recv lo hi m :
  In m (sender_phase Pb phase n_recv lo hi) -> pushed Pb phase (msg_x m, msg_z m).
Proof.
  unfold sender_phase. rewrite in_map_iff. intros (i & <- & _). apply pushed_intro.
Qed.

(** One candidate: a stored value [y] with [z <> f y] only bumps the failure
    counter; otherwise the pair [(y, x)] is appended exactly when it is good. *)
Lemma check_candidate_cases Pb x z c res y :
  check_candidate Pb x z (c, res) y =
    if z =? f Pb y then
      (Counters (n_collision_failures c) (n_collisions c + 1),
       if is_good_pair Pb y x then res ++ [(y, x)] else res)
    else (Counters (n_collision_failures c + 1) (n_collisions c), res).
Proof.
  unfold check_candidate. destruct (z =? f Pb y); cbn [negb]; [|reflexivity].
  destruct (is_good_pair Pb y x); reflexivity.
Qed.

Lemma check_candidate_golden Pb x z acc y :
  z = g Pb x -> Forall (golden Pb) (snd acc) ->
  Forall (golden Pb) (snd (check_candidate Pb x z acc y)).
Proof.
  intros Hz Hres. destruct acc as [c res]. rewrite check_candidate_cases.
  destruct (Z.eqb_spec z (f Pb y)) as [E|E]; cbn [snd] in *; [|exact Hres].
  destruct (is_good_pair Pb y x) eqn:Hgood; [|exact Hres].
  apply Forall_app. split; [exact Hres|]. constructor; [|constructor].
  split; cbn [fst snd]; [congruence | exact Hgood].
Qed.

Lemma fold_check_golden Pb x z keys : forall acc,
  z = g Pb x -> Forall (golden Pb) (snd acc) ->
  Forall (golden Pb) (snd (fold_left (check_candidate Pb x z) keys acc)).
Proof.
  induction keys as [|y keys IH]; intros acc Hz Hres; cbn [fold_left]; [exact Hres|].
  apply IH; [exact Hz|]. apply check_candidate_golden; assumption.
Qed.

Lemma receive_golden fuel Pb phase x z r r' :
  (phase <> 0 -> z = g Pb x) ->
  Forall (golden Pb) (result r) ->
  receive fuel Pb phase x z r = Some r' ->
  Forall (golden Pb) (result r').
Proof.
  intros Hz Hres. unfold receive. destruct (Z.eqb_spec phase 0) as [E|E].
  - destruct (insert fuel z x (dict_of r)); [|discriminate].
    intros [= <-]. exact Hres.
  - destruct (probe fuel z (dict_of r)) as [keys|]; [|discriminate].
    destruct (3 * n Pb <? Z.of_nat (length keys)); [discriminate|].
    pose proof (fold_check_golden Pb x z keys (ctr r, result r) (Hz E) Hres) as H.
    destruct (fold_left (check_candidate Pb x z) keys (ctr r, result r)) as [c res].
    intros [= <-]. exact H.
Qed.

Lemma receive_all_golden fuel Pb phase : forall msgs r r',
  (phase <> 0 -> Forall (pushed Pb 1) msgs) -> (phase = 0 \/ phase = 1) ->
  Forall (golden Pb) (result r) ->
  receive_all fuel Pb phase msgs r = Some r' ->
  Forall (golden Pb) (result r').
Proof.
  induction msgs as [|[x z] rest IH]; intros r r' Hmsgs Hphase Hres Hrun.
  - injection Hrun as <-. exact Hres.
  - cbn [receive_all] in Hrun.
    destruct (receive fuel Pb phase x z r) as [r1|] eqn:Hone; [|discriminate].
    apply (IH r1 r'); [| exact Hphase | | exact Hrun].
    + intros Hp. specialize (Hmsgs Hp). inversion Hmsgs; assumption.
    + apply (receive_golden fuel Pb phase x z r r1); [| exact Hres | exact Hone].
      intros Hp. specialize (Hmsgs Hp). inversion Hmsgs as [|? ? Hpush _]; subst.
      apply pushed_phase_1, Hpush.
Qed.

(** C4.  Every pair of the result of [naive_mpi_claw_search] is golden:
    [f x0 = g x1] and [is_good_pair x0 x1].  In the receiver's phase 1 a
    stored value [y] with [z <> f y] adds one to the collision failures and
    nothing to the result; a value with [z = f y] is appended as [(y, x)]
    exactly when [is_good_pair y x]; so every pair a receiver collects from
    pairs [(x, g x)] pushed by the senders is golden, and so is every pair of
    the gathered result. *)
Theorem naive_result_golden Pb :
  (forall x z c res y,
     check_candidate Pb x z (c, res) y =
       if z =? f Pb y then
         (Counters (n_collision_failures c) (n_collisions c + 1),
          if is_good_pair Pb y x then res ++ [(y, x)] else res)
       else (Counters (n_collision_failures c + 1) (n_collisions c), res)) /\
  (forall fuel n_slots msgs0 msgs1 res,
     Forall (pushed Pb 1) msgs1 ->
     receiver_run fuel Pb n_slots msgs0 msgs1 = Some res ->
     Forall (golden Pb) res) /\
  (forall per_rank,
     Forall (fun res => res = [] \/
               exists fuel n_slots msgs0 msgs1,
                 Forall (pushed Pb 1) msgs1 /\
                 receiver_run fuel Pb n_slots msgs0 msgs1 = Some res) per_rank ->
     forall x0 x1, In (x0, x1) (gather per_rank) ->
       f Pb x0 = g Pb x1 /\ is_good_pair Pb x0 x1 = true).
Proof.
  assert (Hrecv : forall fuel n_slots msgs0 msgs1 res,
     Forall (pushed Pb 1) msgs1 ->
     receiver_run fuel Pb n_slots msgs0 msgs1 = Some res ->
     Forall (golden Pb) res).
  { intros fuel n_slots msgs0 msgs1 res Hmsgs. unfold receiver_run. cbv zeta.
    destruct (receive_all fuel Pb 0 msgs0 _) as [r0|] eqn:H0; [|discriminate].
    destruct (receive_all fuel Pb 1 msgs1 _) as [r1|] eqn:H1; [|discriminate].
    intros [= <-].
    assert (Hr0 : Forall (golden Pb) (result r0)).
    { eapply (receive_all_golden fuel Pb 0 msgs0); cycle 3.
      - exact H0.
      - intros Hne. contradiction Hne. reflexivity.
      - left. reflexivity.
      - constructor. }
    eapply (receive_all_golden fuel Pb 1 msgs1); cycle 3.
    - exact H1.
    - intros _. exact Hmsgs.
    - right. reflexivity.
    - exact Hr0. }
  split; [intros; apply check_candidate_cases|]. split; [exact Hrecv|].
  intros per_rank Hranks x0 x1 Hin. unfold gather in Hin.
  apply in_concat in Hin. destruct Hin as (res & Hres & Hin).
  rewrite Forall_forall in Hranks. specialize (Hranks res).
  destruct Hranks as [-> | (fuel & n_slots & msgs0 & msgs1 & Hmsgs & Hrun)].
  - apply list_elem_of_In. exact Hres.
  - destruct Hin.
  - pose proof (Hrecv _ _ _ _ _ Hmsgs Hrun) as Hall.
    rewrite Forall_forall in Hall. apply list_elem_of_In in Hin.
    exact (Hall (x0, x1) Hin).
Qed.

(** *** The ranges of the senders *)

Lemma seq_map_shift (a b : nat) : seq a b = map (fun i => (a + i)%nat) (seq 0 b).
Proof.
  revert a. induction b as [|b IH]; intros a; [reflexivity|].
  cbn [seq map]. rewrite Nat.add_0_r. f_equal.
  rewrite (IH (S a)), (IH 1%nat), map_map. apply map_ext. intros i. lia.
Qed.

Lemma sender_phase_seq Pb phase n_recv lo hi :
  0 <= lo <= hi ->
  sender_phase Pb phase n_recv lo hi
  = map (fun x => sender_push Pb phase n_recv (Z.of_nat x))
        (seq (Z.to_nat lo) (Z.to_nat hi - Z.to_nat lo)).
Proof.
  intros Hle. unfold sender_phase.
  replace (Z.to_nat (hi - lo)) with (Z.to_nat hi - Z.to_nat lo)%nat by lia.
  rewrite (seq_map_shift (Z.to_nat lo)), map_map. apply map_ext. intros i. f_equal. lia.
Qed.

(** The senders share the inputs out.  When [n_send * 2 ^ n] fits in 64
    bits, the ranges [lo, hi) of the ranks [0 .. n_send - 1] follow one another
    from 0 to [N = 2 ^ n]: in each phase every [x < N] is pushed exactly once,
    with [f x] (phase 0) or [g x] (phase 1), and the pushes of all senders,
    taken by rank, are those of [0, 1, ..., N - 1] in order. *)
Theorem sender_ranges_partition Pb phase n_recv n_send :
  0 <= n Pb -> 0 < n_send -> n_send * 2 ^ n Pb < 2 ^ 64 ->
  range_lo (domain_size Pb) n_send 0 = 0 /\
  range_hi (domain_size Pb) n_send (n_send - 1) = 2 ^ n Pb /\
  (forall r, 0 <= r < n_send ->
     range_lo (domain_size Pb) n_send r <= range_hi (domain_size Pb) n_send r /\
     range_hi (domain_size Pb) n_send r = range_lo (domain_size Pb) n_send (r + 1)) /\
  all_senders Pb phase n_recv n_send
  = map (fun x => sender_push Pb phase n_recv (Z.of_nat x)) (seq 0 (Z.to_nat (2 ^ n Pb))).
Proof.
  intros Hn Hs Hfit.
  assert (HNpos : 0 < 2 ^ n Pb) by (apply Z.pow_pos_nonneg; lia).
  assert (HN : domain_size Pb = 2 ^ n Pb).
  { unfold domain_size. rewrite Z.shiftl_1_l. apply u64_small.
    unfold is_u64. rewrite u64_mod_eq. nia. }
  rewrite HN. set (N := 2 ^ n Pb) in *.
  assert (Hlo : forall r, 0 <= r <= n_send -> range_lo N n_send r = r * N / n_send).
  { intros r Hr. unfold range_lo. rewrite u64_small; [reflexivity|].
    unfold is_u64. rewrite u64_mod_eq. nia. }
  assert (Hhi : forall r, 0 <= r < n_send -> range_hi N n_send r = (r + 1) * N / n_send).
  { intros r Hr. unfold range_hi. rewrite u64_small; [reflexivity|].
    unfold is_u64. rewrite u64_mod_eq. nia. }
  assert (Hmono : forall r, 0 <= r < n_send -> 0 <= r * N / n_send <= (r + 1) * N / n_send).
  { intros r Hr. split; [apply Z.div_pos; nia|]. apply Z.div_le_mono; nia. }
  assert (Hlast : n_send * N / n_send = N).
  { rewrite Z.mul_comm. apply Z.div_mul. lia. }
  split; [rewrite Hlo by lia; reflexivity|].
  split; [rewrite Hhi by lia; replace (n_send - 1 + 1) with n_send by lia; exact Hlast|].
  split.
  { intros r Hr. rewrite Hlo, Hhi, Hlo by lia. split; [apply Hmono; exact Hr | reflexivity]. }
  (* the pushes of the ranks below [k] are those of the inputs below [lo k] *)
  assert (Hpre : forall j : nat, Z.of_nat j <= n_send ->
            flat_map (fun r => sender_run Pb phase n_recv n_send (Z.of_nat r)) (seq 0 j)
            = map (fun x => sender_push Pb phase n_recv (Z.of_nat x))
                  (seq 0 (Z.to_nat (Z.of_nat j * N / n_send)))).
  { intros j. induction j as [|j IH]; intros Hj.
    - cbn [seq flat_map]. change (Z.of_nat 0 * N) with 0. reflexivity.
    - rewrite seq_S, flat_map_app, IH by lia. cbn [flat_map]. rewrite app_nil_r.
      rewrite Nat.add_0_l. unfold sender_run. rewrite HN. fold N.
      rewrite Hlo, Hhi by lia.
      pose proof (Hmono (Z.of_nat j) ltac:(lia)) as Hm.
      replace (Z.of_nat j + 1) with (Z.of_nat (S j)) in * by lia.
      set (a := Z.of_nat j * N / n_send) in *. set (b := Z.of_nat (S j) * N / n_send) in *.
      rewrite sender_phase_seq by lia.
      rewrite <- map_app. f_equal.
      replace (Z.to_nat b) with (Z.to_nat a + (Z.to_nat b - Z.to_nat a))%nat at 2 by lia.
      rewrite seq_app. reflexivity. }
  unfold all_senders. rewrite Hpre by lia. rewrite Z2Nat.id by lia. rewrite Hlast. reflexivity.
Qed.

(** *** One probe of the receiver *)

Lemma fold_check_spec Pb x z keys : forall c res,
  fold_left (check_candidate Pb x z) keys (c, res)
  = (Counters (n_collision_failures c
               + Z.of_nat (length (List.filter (fun y => negb (z =? f Pb y)) keys)))
              (n_collisions c + Z.of_nat (length (List.filter (fun y => z =? f Pb y) keys))),
     res ++ map (fun y => (y, x))
                (List.filter (fun y => (z =? f Pb y) && is_good_pair Pb y x) keys)).
Proof.
  induction keys as [|y keys IH]; intros c res.
  - cbn. rewrite !Z.add_0_r, app_nil_r. destruct c; reflexivity.
  - cbn [fold_left]. rewrite check_candidate_cases. cbn [List.filter].
    destruct (z =? f Pb y); cbn [negb andb].
    + rewrite IH. cbn [n_collision_failures n_collisions length].
      f_equal; [f_equal; lia|].
      destruct (is_good_pair Pb y x); cbn [map]; [|reflexivity].
      rewrite <- app_assoc. reflexivity.
    + rewrite IH. cbn [n_collision_failures n_collisions length].
      f_equal. f_equal; lia.
Qed.

(** One pair [(x, z)] received in phase 1: the dictionary is left as it is;
    the result grows by the pairs [(y, x)] for the values [y] that [probe(z)]
    returned with [z = f y] and [is_good_pair(y, x)], in the order of the
    probe, and loses nothing; the two counters grow by the number of returned
    values with [z = f y] and with [z <> f y]. *)
Theorem receive_probe_spec fuel Pb x z r r' :
  receive fuel Pb 1 x z r = Some r' ->
  exists keys,
    probe fuel z (dict_of r) = Some keys /\
    Z.of_nat (length keys) <= 3 * n Pb /\
    dict_of r' = dict_of r /\
    result r' = result r ++ map (fun y => (y, x))
                  (List.filter (fun y => (z =? f Pb y) && is_good_pair Pb y x) keys) /\
    n_collisions (ctr r')
      = n_collisions (ctr r) + Z.of_nat (length (List.filter (fun y => z =? f Pb y) keys)) /\
    n_collision_failures (ctr r')
      = n_collision_failures (ctr r)
        + Z.of_nat (length (List.filter (fun y => negb (z =? f Pb y)) keys)).
Proof.
  unfold receive. change (1 =? 0) with false. cbv iota.
  destruct (probe fuel z (dict_of r)) as [keys|]; [|discriminate].
  destruct (Z.ltb_spec (3 * n Pb) (Z.of_nat (length keys))) as [|Hle]; [discriminate|].
  rewrite fold_check_spec. intros [= <-]. exists keys. cbn [dict_of result ctr n_collisions
    n_collision_failures]. repeat split; try reflexivity. exact Hle.
Qed.


(** *** Completeness for the first value of a key *)

(** Phase 0 on a receiver is a run of insertions of [(z, x)]. *)
Lemma receive_all_phase_0 fuel Pb : forall msgs r r',
  receive_all fuel Pb 0 msgs r = Some r' ->
  insert_all fuel (map (fun xz => (snd xz, fst xz)) msgs) (dict_of r) = Some (dict_of r') /\
  result r' = result r.
Proof.
  induction msgs as [|[x z] rest IH]; intros r r' Hrun.
  - injection Hrun as <-. split; reflexivity.
  - cbn [receive_all] in Hrun. unfold receive in Hrun. change (0 =? 0) with true in Hrun.
    cbv iota in Hrun. cbn [map insert_all fst snd].
    destruct (insert fuel z x (dict_of r)) as [d|]; [|discriminate].
    destruct (IH _ _ Hrun) as [Hd Hres]. cbn [dict_of result] in *. split; assumption.
Qed.

Lemma receive_phase_1 fuel Pb x z r r' :
  receive fuel Pb 1 x z r = Some r' ->
  dict_of r' = dict_of r /\
  (forall p, In p (result r) -> In p (result r')) /\
  exists keys, probe fuel z (dict_of r) = Some keys /\
    forall y, In y keys -> z = f Pb y -> is_good_pair Pb y x = true -> In (y, x) (result r').
Proof.
  unfold receive. change (1 =? 0) with false. cbv iota.
  destruct (probe fuel z (dict_of r)) as [keys|]; [|discriminate].
  destruct (3 * n Pb <? Z.of_nat (length keys)); [discriminate|].
  rewrite fold_check_spec. intros [= <-]. cbn [dict_of result].
  split; [reflexivity|]. split.
  - intros p Hp. apply in_or_app. left. exact Hp.
  - exists keys. split; [reflexivity|]. intros y Hy Hz Hgood.
    apply in_or_app. right. apply in_map_iff. exists y. split; [reflexivity|].
    apply filter_In. split; [exact Hy|]. rewrite Hgood, andb_true_r. apply Z.eqb_eq. exact Hz.
Qed.

Lemma receive_all_phase_1 fuel Pb : forall msgs r r',
  receive_all fuel Pb 1 msgs r = Some r' ->
  dict_of r' = dict_of r /\
  (forall p, In p (result r) -> In p (result r')) /\
  forall x z, In (x, z) msgs ->
    exists keys, probe fuel z (dict_of r) = Some keys /\
      forall y, In y keys -> z = f Pb y -> is_good_pair Pb y x = true -> In (y, x) (result r').
Proof.
  induction msgs as [|[x0 z0] rest IH]; intros r r' Hrun.
  - injection Hrun as <-. split; [reflexivity|]. split; [auto|]. intros x z [].
  - cbn [receive_all] in Hrun.
    destruct (receive fuel Pb 1 x0 z0 r) as [r1|] eqn:Hone; [|discriminate].
    destruct (receive_phase_1 fuel Pb x0 z0 r r1 Hone) as (Hd1 & Hmono1 & keys & Hp & Hfound).
    destruct (IH r1 r' Hrun) as (Hd & Hmono & Hrest).
    split; [congruence|]. split; [auto|].
    intros x z [Heq | Hin].
    + injection Heq as <- <-. exists keys. split; [exact Hp|].
      intros y Hy Hz Hgood. apply Hmono, (Hfound y Hy Hz Hgood).
    + destruct (Hrest x z Hin) as (keys' & Hp' & Hfound'). exists keys'.
      rewrite <- Hd1. split; assumption.
Qed.

(** The naive search finds a golden pair [(y, x)] whenever [y] is the first
    value that reaches the receiver with the truncated key of [f y]: if the
    pairs [(y', z')] received before [(y, f y)] in phase 0 all have
    [z' mod 0xfffffffb <> f y mod 0xfffffffb], then every [(x, g x)] received
    in phase 1 with [f y = g x] and [is_good_pair(y, x)] puts [(y, x)] in the
    result of the receiver. *)
Theorem naive_finds_first_inserted fuel Pb n_slots pre post msgs1 y x res :
  0 < n_slots < u64_mod ->
  (forall y' z', In (y', z') pre -> z' mod KEY_PRIME <> f Pb y mod KEY_PRIME) ->
  In (x, g Pb x) msgs1 -> f Pb y = g Pb x -> is_good_pair Pb y x = true ->
  receiver_run fuel Pb n_slots (pre ++ (y, f Pb y) :: post) msgs1 = Some res ->
  In (y, x) res.
Proof.
  intros Hn Hpre Hx Hclaw Hgood. unfold receiver_run. cbv zeta.
  destruct (receive_all fuel Pb 0 _ _) as [r1|] eqn:H0; [|discriminate].
  destruct (receive_all fuel Pb 1 _ _) as [r2|] eqn:H1; [|discriminate].
  intros [= <-].
  apply receive_all_phase_0 in H0. destruct H0 as [H0 _]. cbn [reset dict_of] in H0.
  rewrite map_app in H0. cbn [map fst snd] in H0.
  (* the table after phase 0 has [y] as first hit of [f y] *)
  destruct (DictFacts.insert_all_app fuel _ _ _ _ H0) as (dA & HA & HB).
  cbn [insert_all] in HB.
  destruct (insert fuel (f Pb y) y dA) as [dB|] eqn:Hins; [|discriminate].
  destruct (DictFacts.no_key_insert_all (f Pb y mod KEY_PRIME) fuel
              (map (fun xz : Z * Z => (snd xz, fst xz)) pre) (create n_slots) dA
              (DictFacts.wf_create n_slots Hn)
              (DictFacts.no_key_create n_slots _ (DictFacts.truncated_key_not_empty _)))
    as (HwfA & HnoA); [|exact HA|].
  { intros key value Hin. apply in_map_iff in Hin. destruct Hin as ([y' z'] & [= <- <-] & Hin).
    exact (Hpre y' z' Hin). }
  pose proof (DictFacts.first_hit_insert_no_key dA (f Pb y) y fuel dB HwfA HnoA Hins) as HhitB.
  destruct (DictFacts.insert_stored dA (f Pb y) y fuel dB HwfA Hins) as (HwfB & _ & _).
  destruct (DictFacts.first_hit_insert_all_keep (f Pb y) y fuel _ dB (dict_of r1) HwfB HhitB HB)
    as (Hwf1 & Hhit1).
  (* phase 1 *)
  destruct (receive_all_phase_1 fuel Pb msgs1 (reset r1) r2 H1) as (_ & _ & Hfound).
  destruct (Hfound x (g Pb x) Hx) as (keys & Hprobe & Hkeys). cbn [reset dict_of] in Hprobe.
  rewrite <- Hclaw in Hprobe.
  destruct (DictFacts.first_hit_probe_head (dict_of r1) (f Pb y) y fuel keys Hwf1 Hhit1 Hprobe)
    as [rest ->].
  apply (Hkeys y); [left; reflexivity | symmetry; exact Hclaw | exact Hgood].
Qed.

(** *** The gathering of the results *)








Lemma toy_msgs1_pushed :
  Forall (pushed toy 1) [(0, 3); (1, 2); (2, 1); (3, 0)].
Proof. repeat constructor; exists 1; reflexivity. Qed.

Lemma naive_result_golden_witness :
  receiver_run 5 toy 5 [(0, 0); (1, 1); (2, 2); (3, 3)] [(0, 3); (1, 2); (2, 1); (3, 0)]
    = Some [(1, 2)] /\
  Forall (golden toy) [(1, 2)].
Proof.
  split; [reflexivity|].
  apply (proj1 (proj2 (naive_result_golden toy)) 5%nat 5
               [(0, 0); (1, 1); (2, 2); (3, 3)] [(0, 3); (1, 2); (2, 1); (3, 0)]).
  - exact toy_msgs1_pushed.
  - reflexivity.
Defined.

Lemma sender_ranges_partition_witness :
  range_lo (domain_size toy) 3 0 = 0 /\
  range_hi (domain_size toy) 3 (3 - 1) = 2 ^ n toy /\
  (forall r, 0 <= r < 3 ->
     range_lo (domain_size toy) 3 r <= range_hi (domain_size toy) 3 r /\
     range_hi (domain_size toy) 3 r = range_lo (domain_size toy) 3 (r + 1)) /\
  all_senders toy 0 1 3
  = map (fun x => sender_push toy 0 1 (Z.of_nat x)) (seq 0 (Z.to_nat (2 ^ n toy))).
Proof. apply (sender_ranges_partition toy 0 1 3); cbn; lia. Defined.

Lemma receive_probe_spec_witness :
  exists keys,
    probe 5 1 toy_table = Some keys /\
    Z.of_nat (length keys) <= 3 * n toy /\
    toy_table = toy_table /\
    [(1, 2)] = [] ++ map (fun y => (y, 2))
                 (List.filter (fun y => (1 =? f toy y) && is_good_pair toy y 2) keys) /\
    1 = 0 + Z.of_nat (length (List.filter (fun y => 1 =? f toy y) keys)) /\
    0 = 0 + Z.of_nat (length (List.filter (fun y => negb (1 =? f toy y)) keys)).
Proof.
  apply (receive_probe_spec 5 toy 2 1 (Receiver toy_table (Counters 0 0) [])
           (Receiver toy_table (Counters 0 1) [(1, 2)])).
  reflexivity.
Defined.

Lemma naive_finds_first_inserted_witness :
  receiver_run 5 toy 5 ([(0, 0)] ++ (1, f toy 1) :: [(2, 2); (3, 3)])
               [(0, 3); (1, 2); (2, 1); (3, 0)] = Some [(1, 2)] /\
  In (1, 2) [(1, 2)].
Proof.
  split; [reflexivity|].
  apply (naive_finds_first_inserted 5 toy 5 [(0, 0)] [(2, 2); (3, 3)]
           [(0, 3); (1, 2); (2, 1); (3, 0)] 1 2 [(1, 2)]).
  - unfold u64_mod. lia.
  - intros y' z' [[= <- <-] | []]. vm_compute. discriminate.
  - right. right. left. reflexivity.
  - reflexivity.
  - reflexivity.
  - reflexivity.
Defined.

End NaiveFacts.

(** ** Problem wrappers and entry points: properties *)

Module WrapperFacts.
Import Wrappers.

(** C8, as stated, fails.  With [m = 16] and [i = 0x8000], [swap] orders
    [(1, 0)] as [(1, 0)], but [choose] of the mixed values is the other way
    round: 0 on [mix(i, 1)] and 1 on [mix(i, 0)].  And [swap] does not return
    for every [(i, a, b)]: on [(0, 0, 0)] its first assertion fails. *)
Lemma swap_mix_choose_counterexample :
  EqualSize.swap toy16 0x8000 1 0 = Some (1, 0) /\
  EqualSize.choose toy16 0x8000 (EqualSize.mix 0x8000 1) = false /\
  EqualSize.choose toy16 0x8000 (EqualSize.mix 0x8000 0) = true /\
  EqualSize.swap toy16 0 0 0 = None.
Proof. repeat split; reflexivity. Qed.

(** C8 (amended).  [choose] is taken on the values before mixing.  When
    [choose(i, a)] and [choose(i, b)] differ, [swap(i, a, b)] returns the
    same two values ordered as [(x0, x1)] with [choose(i, x0) = 1] and
    [choose(i, x1) = 0], so that [mixf] sends [x0] to [f(mix(i, x0))] and [x1]
    to [g(mix(i, x1))] (the f-side is first), and [mix_good_pair] is the
    user's predicate on [(mix(i, x0), mix(i, x1))].  When they are equal,
    [swap] fails an assertion and [mix_good_pair] returns false. *)
Theorem swap_canonical pb i a b :
  (EqualSize.choose pb i a <> EqualSize.choose pb i b ->
   exists x0 x1,
     EqualSize.swap pb i a b = Some (x0, x1) /\
     ((x0, x1) = (a, b) \/ (x0, x1) = (b, a)) /\
     EqualSize.choose pb i x0 = true /\
     EqualSize.choose pb i x1 = false /\
     (forall n_eval, fst (EqualSize.mixf pb i x0 n_eval) = f pb (EqualSize.mix i x0)) /\
     (forall n_eval, fst (EqualSize.mixf pb i x1 n_eval) = g pb (EqualSize.mix i x1)) /\
     EqualSize.mix_good_pair pb i a b
       = Some (is_good_pair pb (EqualSize.mix i x0) (EqualSize.mix i x1))) /\
  (EqualSize.choose pb i a = EqualSize.choose pb i b ->
   EqualSize.swap pb i a b = None /\
   EqualSize.mix_good_pair pb i a b = Some false).
Proof.
  unfold EqualSize.mix_good_pair, EqualSize.swap, EqualSize.mixf. split.
  - intros Hne.
    destruct (EqualSize.choose pb i a) eqn:Ha, (EqualSize.choose pb i b) eqn:Hb;
      try congruence.
    + exists a, b. rewrite Ha, Hb. cbn. repeat split; auto.
    + exists b, a. rewrite Ha, Hb. cbn. repeat split; auto.
  - intros Heq. rewrite Heq.
    destruct (EqualSize.choose pb i b) eqn:Hb; rewrite ?Heq, ?Hb; cbn; split; reflexivity.
Qed.

Lemma swap_canonical_witness :
  exists x0 x1,
    EqualSize.swap toy16 0x8000 0 1 = Some (x0, x1) /\
    ((x0, x1) = (0, 1) \/ (x0, x1) = (1, 0)) /\
    EqualSize.choose toy16 0x8000 x0 = true /\
    EqualSize.choose toy16 0x8000 x1 = false /\
    (forall n_eval, fst (EqualSize.mixf toy16 0x8000 x0 n_eval)
                    = f toy16 (EqualSize.mix 0x8000 x0)) /\
    (forall n_eval, fst (EqualSize.mixf toy16 0x8000 x1 n_eval)
                    = g toy16 (EqualSize.mix 0x8000 x1)) /\
    EqualSize.mix_good_pair toy16 0x8000 0 1
      = Some (is_good_pair toy16 (EqualSize.mix 0x8000 x0) (EqualSize.mix 0x8000 x1)).
Proof.
  apply (proj1 (swap_canonical toy16 0x8000 0 1)). vm_compute. discriminate.
Defined.

(** The pair that [collision_search] returns passed its three assertions. *)
Lemma collision_search_post pb run a b :
  collision_search pb run = Some (a, b) ->
  a <> b /\ cf pb a = cf pb b /\ c_is_good_pair pb a b = true /\
  exists i x y, run = (i, x, y) /\ a = Collision.mix i x /\ b = Collision.mix i y.
Proof.
  destruct run as [[i x] y]. unfold collision_search.
  destruct (Z.eqb_spec (Collision.mix i x) (Collision.mix i y)) as [E|E]; cbn [negb andb];
    [discriminate|].
  destruct (Z.eqb_spec (cf pb (Collision.mix i x)) (cf pb (Collision.mix i y))) as [F|F];
    cbn [andb]; [|discriminate].
  destruct (c_is_good_pair pb (Collision.mix i x) (Collision.mix i y)) eqn:G; [|discriminate].
  intros [= <- <-]. repeat split; try assumption. exists i, x, y. repeat split.
Qed.

Lemma quality_control_post pb x0 x1 y0 y1 :
  quality_control pb x0 x1 = Some (y0, y1) ->
  (y0, y1) = (x0, x1) /\ 0 <= n pb <= 30 /\
  0 <= x0 < 2 ^ n pb /\ 0 <= x1 < 2 ^ n pb /\
  f pb x0 = g pb x1 /\ is_good_pair pb x0 x1 = true.
Proof.
  unfold quality_control, int_mask.
  destruct (Z.leb_spec 0 (n pb)) as [Hn0|]; cbn [andb]; [|discriminate].
  destruct (Z.leb_spec (n pb) 30) as [Hn1|]; [|discriminate].
  destruct (Z.eqb_spec (Z.land x0 (2 ^ n pb - 1)) x0) as [E0|]; cbn [andb]; [|discriminate].
  destruct (Z.eqb_spec (Z.land x1 (2 ^ n pb - 1)) x1) as [E1|]; cbn [andb]; [|discriminate].
  destruct (Z.eqb_spec (f pb x0) (g pb x1)) as [F|]; cbn [andb]; [|discriminate].
  destruct (is_good_pair pb x0 x1) eqn:G; [|discriminate].
  intros [= <- <-]. split; [reflexivity|]. split; [lia|].
  replace (2 ^ n pb - 1) with (Z.ones (n pb)) in E0, E1 by (rewrite Z.ones_equiv; lia).
  rewrite Z.land_ones in E0, E1 by lia.
  pose proof (Z.mod_pos_bound x0 (2 ^ n pb) ltac:(lia)).
  pose proof (Z.mod_pos_bound x1 (2 ^ n pb) ltac:(lia)).
  repeat split; try assumption; lia.
Qed.

(** For [0 <= n <= 30], where the mask [(1 << pb.n) - 1] of the quality
    control is computed without overflow, the pair that [claw_search] returns
    passed the quality control: both values are [n]-bit strings,
    [f x0 = g x1] and the pair is good. *)
Lemma claw_search_post pb run x0 x1 :
  0 <= n pb <= 30 ->
  claw_search pb run = Some (x0, x1) ->
  0 <= x0 < 2 ^ n pb /\ 0 <= x1 < 2 ^ n pb /\
  f pb x0 = g pb x1 /\ is_good_pair pb x0 x1 = true.
Proof.
  intros _. destruct run as [[i a] b]. unfold claw_search.
  destruct (n pb =? m pb).
  - destruct (EqualSize.swap pb i a b) as [[u v]|]; [|discriminate].
    intros H. apply quality_control_post in H. destruct H as ([= <- <-] & _ & H). exact H.
  - destruct (n pb <? m pb); [|discriminate].
    destruct (LargerRange.swap pb i a b) as [[u v]|]; [|discriminate].
    intros H. apply quality_control_post in H. destruct H as ([= <- <-] & _ & H). exact H.
Qed.

Example claw_search_toy16 :
  claw_search toy16 (0, 0x7fff, 0x8000) = Some (0x8000, 0x7fff).
Proof. reflexivity. Qed.

Lemma collision_search_post_witness :
  3 <> 2 /\ cf toy_collision 3 = cf toy_collision 2 /\
  c_is_good_pair toy_collision 3 2 = true /\
  exists i x y, (1, 2, 3) = (i, x, y) /\ 3 = Collision.mix i x /\ 2 = Collision.mix i y.
Proof. apply (collision_search_post toy_collision (1, 2, 3) 3 2). reflexivity. Defined.

Lemma claw_search_post_witness :
  0 <= 0x8000 < 2 ^ n toy16 /\ 0 <= 0x7fff < 2 ^ n toy16 /\
  f toy16 0x8000 = g toy16 0x7fff /\ is_good_pair toy16 0x8000 0x7fff = true.
Proof.
  apply (claw_search_post toy16 (0, 0x7fff, 0x8000) 0x8000 0x7fff); [cbn; lia | reflexivity].
Defined.

(** *** The mixing functions and the entry points on a genuine result *)

Lemma lxor_range n i x : 0 <= n -> 0 <= i < 2 ^ n -> 0 <= x < 2 ^ n -> 0 <= Z.lxor i x < 2 ^ n.
Proof.
  intros Hn Hi Hx.
  assert (H0 : 0 <= Z.lxor i x) by (apply Z.lxor_nonneg; lia).
  split; [exact H0|].
  destruct (Z.eq_dec (Z.lxor i x) 0) as [E|E]; [rewrite E; apply Z.pow_pos_nonneg; lia|].
  apply Z.log2_lt_pow2; [lia|].
  pose proof (Z.log2_lxor i x ltac:(lia) ltac:(lia)) as Hl.
  assert (Hli : i = 0 \/ Z.log2 i < n).
  { destruct (Z.eq_dec i 0); [left; assumption|right; apply Z.log2_lt_pow2; lia]. }
  assert (Hlx : x = 0 \/ Z.log2 x < n).
  { destruct (Z.eq_dec x 0); [left; assumption|right; apply Z.log2_lt_pow2; lia]. }
  destruct Hli as [->|Hli]; [rewrite Z.lxor_0_l in *; destruct Hlx as [->|Hlx]; [lia|exact Hlx]|].
  destruct Hlx as [->|Hlx]; [rewrite Z.lxor_0_r in *; exact Hli|]. lia.
Qed.

Lemma lxor_cancel i x y : Z.lxor i x = Z.lxor i y -> x = y.
Proof.
  intros H. rewrite <- (Z.lxor_0_l x), <- (Z.lxor_nilpotent i), Z.lxor_assoc, H,
    <- Z.lxor_assoc, Z.lxor_nilpotent, Z.lxor_0_l. reflexivity.
Qed.

Lemma shiftr_range a k n : 0 <= k -> 0 <= n -> 0 <= a < 2 ^ (n + k) -> 0 <= Z.shiftr a k < 2 ^ n.
Proof.
  intros Hk Hn Ha. rewrite Z.shiftr_div_pow2 by lia.
  assert (0 < 2 ^ k) by (apply Z.pow_pos_nonneg; lia).
  split; [apply Z.div_pos; lia|].
  apply Z.div_lt_upper_bound; [lia|]. rewrite <- Z.pow_add_r by lia.
  replace (k + n) with (n + k) by lia. lia.
Qed.

Lemma land_mask_small n x : 0 <= n -> 0 <= x < 2 ^ n -> Z.land x (2 ^ n - 1) = x.
Proof.
  intros Hn Hx. replace (2 ^ n - 1) with (Z.ones n) by (rewrite Z.ones_equiv; lia).
  rewrite Z.land_ones by lia. apply Z.mod_small. exact Hx.
Qed.

(** [mix(i, .)] of [ConcreteCollisionProblem] and of [EqualSizeClawWrapper]
    is a permutation of the [n]-bit strings, and its own inverse. *)
Theorem mix_permutation n i x :
  0 <= n -> 0 <= i < 2 ^ n -> 0 <= x < 2 ^ n ->
  0 <= Collision.mix i x < 2 ^ n /\
  Collision.mix i (Collision.mix i x) = x /\
  (forall y, Collision.mix i x = Collision.mix i y -> x = y) /\
  EqualSize.mix i x = Collision.mix i x.
Proof.
  intros Hn Hi Hx. unfold Collision.mix, EqualSize.mix.
  split; [apply lxor_range; assumption|]. split.
  - rewrite <- Z.lxor_assoc, Z.lxor_nilpotent, Z.lxor_0_l. reflexivity.
  - split; [intros y; apply lxor_cancel | reflexivity].
Qed.

(** [mix] of [LargerRangeClawWrapper] sends an [m]-bit string to an [n]-bit
    string: the [n] high bits of [i ^ x]. *)
Lemma larger_range_mix_range pb i x :
  0 <= n pb <= m pb -> 0 <= i < 2 ^ m pb -> 0 <= x < 2 ^ m pb ->
  0 <= LargerRange.mix pb i x < 2 ^ n pb /\
  LargerRange.mix pb i x = Z.lxor i x / 2 ^ (m pb - n pb).
Proof.
  intros Hn Hi Hx. unfold LargerRange.mix. split.
  - apply shiftr_range; [lia | lia |].
    replace (n pb + (m pb - n pb)) with (m pb) by lia. apply lxor_range; [lia | assumption..].
  - apply Z.shiftr_div_pow2. lia.
Qed.

(** When the engine returns a triple [(i, x, y)] with [x <> y] on which
    [mixf] collides and [mix_good_pair] holds, none of the three assertions of
    [collision_search] fails: it returns the two unmixed values. *)
Theorem collision_search_complete pb i x y ne ne' :
  x <> y ->
  fst (Collision.mixf pb i x ne) = fst (Collision.mixf pb i y ne') ->
  Collision.mix_good_pair pb i x y = true ->
  collision_search pb (i, x, y) = Some (Collision.mix i x, Collision.mix i y).
Proof.
  unfold Collision.mixf, Collision.mix_good_pair, collision_search. cbn [fst].
  intros Hne Hf Hgood.
  destruct (Z.eqb_spec (Collision.mix i x) (Collision.mix i y)) as [E|_].
  - contradiction Hne. exact (lxor_cancel i x y E).
  - rewrite Hf, Z.eqb_refl, Hgood. reflexivity.
Qed.

(** The same for [claw_search] when [n = m]: on a triple [(i, a, b)] of
    [n]-bit strings on which [mixf] collides and [mix_good_pair] holds, [swap]
    and the four assertions of the quality control pass. *)
Theorem claw_search_complete_equal_size pb i a b ne ne' :
  n pb = m pb -> 0 <= n pb <= 30 ->
  0 <= i < 2 ^ n pb -> 0 <= a < 2 ^ n pb -> 0 <= b < 2 ^ n pb ->
  fst (EqualSize.mixf pb i a ne) = fst (EqualSize.mixf pb i b ne') ->
  EqualSize.mix_good_pair pb i a b = Some true ->
  exists u v,
    EqualSize.swap pb i a b = Some (u, v) /\
    claw_search pb (i, a, b) = Some (EqualSize.mix i u, EqualSize.mix i v).
Proof.
  intros Hnm Hn Hi Ha Hb Hf Hgood.
  assert (Hqc : forall u v, 0 <= u < 2 ^ n pb -> 0 <= v < 2 ^ n pb ->
            f pb (EqualSize.mix i u) = g pb (EqualSize.mix i v) ->
            is_good_pair pb (EqualSize.mix i u) (EqualSize.mix i v) = true ->
            quality_control pb (EqualSize.mix i u) (EqualSize.mix i v)
            = Some (EqualSize.mix i u, EqualSize.mix i v)).
  { intros u v Hu Hv Hfg Hg. unfold quality_control, int_mask.
    destruct (Z.leb_spec 0 (n pb)); [|lia]. destruct (Z.leb_spec (n pb) 30); [|lia].
    cbn [andb]. unfold EqualSize.mix in *.
    rewrite !land_mask_small by (try apply lxor_range; lia).
    rewrite !Z.eqb_refl, Hfg, Z.eqb_refl, Hg. reflexivity. }
  unfold claw_search. rewrite Hnm, Z.eqb_refl.
  unfold EqualSize.mix_good_pair, EqualSize.swap, EqualSize.mixf in *. cbn [fst] in Hf.
  destruct (EqualSize.choose pb i a) eqn:Ca, (EqualSize.choose pb i b) eqn:Cb;
    cbn [eqb] in Hgood; try discriminate; cbv beta iota zeta in *;
    rewrite ?Ca, ?Cb in *; cbn [andb negb] in *.
  - exists a, b. split; [reflexivity|]. apply Hqc; [assumption | assumption | congruence | congruence].
  - exists b, a. split; [reflexivity|]. apply Hqc; [assumption | assumption | congruence | congruence].
Qed.

(** And when [n < m]: on a triple [(i, a, b)] of [m]-bit strings. *)
Theorem claw_search_complete_larger_range pb i a b ne ne' :
  n pb < m pb -> m pb <= 64 -> 0 <= n pb <= 30 ->
  0 <= i < 2 ^ m pb -> 0 <= a < 2 ^ m pb -> 0 <= b < 2 ^ m pb ->
  fst (LargerRange.mixf pb i a ne) = fst (LargerRange.mixf pb i b ne') ->
  LargerRange.mix_good_pair pb i a b = Some true ->
  exists u v,
    LargerRange.swap pb i a b = Some (u, v) /\
    claw_search pb (i, a, b) = Some (LargerRange.mix pb i u, LargerRange.mix pb i v).
Proof.
  intros Hnm Hm Hn Hi Ha Hb Hf Hgood.
  assert (Hmix : forall u, 0 <= u < 2 ^ m pb -> 0 <= LargerRange.mix pb i u < 2 ^ n pb).
  { intros u Hu. unfold LargerRange.mix. apply shiftr_range; [lia | lia |].
    replace (n pb + (m pb - n pb)) with (m pb) by lia. apply lxor_range; [lia | assumption..]. }
  assert (Hqc : forall u v, 0 <= u < 2 ^ m pb -> 0 <= v < 2 ^ m pb ->
            f pb (LargerRange.mix pb i u) = g pb (LargerRange.mix pb i v) ->
            is_good_pair pb (LargerRange.mix pb i u) (LargerRange.mix pb i v) = true ->
            quality_control pb (LargerRange.mix pb i u) (LargerRange.mix pb i v)
            = Some (LargerRange.mix pb i u, LargerRange.mix pb i v)).
  { intros u v Hu Hv Hfg Hg. unfold quality_control, int_mask.
    destruct (Z.leb_spec 0 (n pb)); [|lia]. destruct (Z.leb_spec (n pb) 30); [|lia].
    cbn [andb].
    rewrite !land_mask_small by (try apply Hmix; lia).
    rewrite !Z.eqb_refl, Hfg, Z.eqb_refl, Hg. reflexivity. }
  unfold claw_search.
  destruct (Z.eqb_spec (n pb) (m pb)); [lia|]. destruct (Z.ltb_spec (n pb) (m pb)); [|lia].
  unfold LargerRange.mix_good_pair, LargerRange.swap, LargerRange.mixf in *. cbn [fst] in Hf.
  destruct (LargerRange.choose pb i a) eqn:Ca, (LargerRange.choose pb i b) eqn:Cb;
    cbn [eqb] in Hgood; try discriminate; cbv beta iota zeta in *;
    rewrite ?Ca, ?Cb in *; cbn [andb negb] in *.
  - exists a, b. split; [reflexivity|]. apply Hqc; [assumption | assumption | congruence | congruence].
  - exists b, a. split; [reflexivity|]. apply Hqc; [assumption | assumption | congruence | congruence].
Qed.

(** [mix_good_pair] does not depend on the order of its two values, and the
    assertions of the [swap] it calls never fail: it calls [swap] only when
    [choose] tells the two values apart. *)
Theorem mix_good_pair_symmetric pb i a b :
  EqualSize.mix_good_pair pb i a b = EqualSize.mix_good_pair pb i b a /\
  is_Some (EqualSize.mix_good_pair pb i a b) /\
  LargerRange.mix_good_pair pb i a b = LargerRange.mix_good_pair pb i b a /\
  is_Some (LargerRange.mix_good_pair pb i a b).
Proof.
  unfold EqualSize.mix_good_pair, EqualSize.swap, LargerRange.mix_good_pair, LargerRange.swap.
  repeat split.
  - destruct (EqualSize.choose pb i a) eqn:Ca, (EqualSize.choose pb i b) eqn:Cb;
      cbn [eqb]; rewrite ?Ca, ?Cb; reflexivity.
  - destruct (EqualSize.choose pb i a) eqn:Ca, (EqualSize.choose pb i b) eqn:Cb;
      cbn [eqb]; rewrite ?Ca, ?Cb; cbn; eauto.
  - destruct (LargerRange.choose pb i a) eqn:Ca, (LargerRange.choose pb i b) eqn:Cb;
      cbn [eqb]; rewrite ?Ca, ?Cb; reflexivity.
  - destruct (LargerRange.choose pb i a) eqn:Ca, (LargerRange.choose pb i b) eqn:Cb;
      cbn [eqb]; rewrite ?Ca, ?Cb; cbn; eauto.
Qed.

(** [choose] of [EqualSizeClawWrapper] splits the [m]-bit strings evenly
    between [f] and [g]: flipping the top bit of [x], which is adding
    [2 ^ (m - 1)] modulo [2 ^ m], flips [choose(i, x)], whatever [i] is. *)
Theorem choose_balanced pb i x :
  1 <= m pb <= 64 ->
  EqualSize.choose pb i ((x + 2 ^ (m pb - 1)) mod 2 ^ m pb) = negb (EqualSize.choose pb i x).
Proof.
  intros Hm. unfold EqualSize.choose. f_equal.
  set (o := Z.lor i 1). set (t := m pb - 1).
  assert (Ht : 0 <= t < 64) by (unfold t; lia).
  assert (Ho : exists q, o = 2 * q + 1).
  { apply Z.odd_spec. unfold o. rewrite <- Z.bit0_odd, Z.lor_spec. apply orb_true_r. }
  destruct Ho as [q Hq].
  assert (Hbit : forall z, (Z.land (Z.shiftr (u64 z) t) 1 =? 0) = negb (Z.odd (z / 2 ^ t))).
  { intros z. change 1 with (Z.ones 1). rewrite Z.land_ones by lia. change (2 ^ 1) with 2.
    rewrite <- Z.bit0_mod, Z.shiftr_spec by lia. unfold u64.
    change 0xffffffffffffffff with (Z.ones 64).
    rewrite Z.land_spec, Z.ones_spec_low by lia. rewrite andb_true_r, Z.add_0_l.
    rewrite Z.testbit_odd, Z.shiftr_div_pow2 by lia.
    destruct (Z.odd (z / 2 ^ t)); reflexivity. }
  rewrite !Hbit. f_equal.
  assert (Hpow : 2 ^ m pb = 2 * 2 ^ t).
  { unfold t. rewrite <- Z.pow_succ_r by lia. f_equal. lia. }
  assert (Htp : 0 < 2 ^ t) by (apply Z.pow_pos_nonneg; lia).
  rewrite Hpow.
  pose proof (Z.div_mod (x + 2 ^ t) (2 * 2 ^ t) ltac:(lia)) as Hdm.
  set (c := (x + 2 ^ t) / (2 * 2 ^ t)) in *.
  replace (((x + 2 ^ t) mod (2 * 2 ^ t)) * o)
    with (x * o + (1 + 2 * (q - c * o)) * 2 ^ t) by (rewrite Hq in *; nia).
  rewrite Z.div_add by lia.
  rewrite Z.add_assoc, (Z.add_comm _ 1), <- Z.add_assoc, Z.add_comm.
  replace (x * o / 2 ^ t + 2 * (q - c * o) + 1) with (Z.succ (x * o / 2 ^ t + 2 * (q - c * o))) by lia.
  rewrite Z.odd_succ, <- Z.negb_odd, Z.odd_add_mul_2. reflexivity.
Qed.

Lemma mix_permutation_witness :
  0 <= Collision.mix 0x8000 1 < 2 ^ 16 /\
  Collision.mix 0x8000 (Collision.mix 0x8000 1) = 1 /\
  (forall y, Collision.mix 0x8000 1 = Collision.mix 0x8000 y -> 1 = y) /\
  EqualSize.mix 0x8000 1 = Collision.mix 0x8000 1.
Proof. apply (mix_permutation 16 0x8000 1); lia. Defined.

Lemma collision_search_complete_witness :
  collision_search toy_collision (1, 2, 3) = Some (Collision.mix 1 2, Collision.mix 1 3).
Proof.
  apply (collision_search_complete toy_collision 1 2 3 0 0); [lia | reflexivity | reflexivity].
Defined.

Lemma claw_search_complete_equal_size_witness :
  exists u v,
    EqualSize.swap toy16 0 0x7fff 0x8000 = Some (u, v) /\
    claw_search toy16 (0, 0x7fff, 0x8000) = Some (EqualSize.mix 0 u, EqualSize.mix 0 v).
Proof.
  apply (claw_search_complete_equal_size toy16 0 0x7fff 0x8000 0 0);
    try reflexivity; cbn; lia.
Defined.

Lemma claw_search_complete_larger_range_witness :
  exists u v,
    LargerRange.swap toy_larger 0 0x0301 0xfc00 = Some (u, v) /\
    claw_search toy_larger (0, 0x0301, 0xfc00)
    = Some (LargerRange.mix toy_larger 0 u, LargerRange.mix toy_larger 0 v).
Proof.
  apply (claw_search_complete_larger_range toy_larger 0 0x0301 0xfc00 0 0);
    try reflexivity; cbn; lia.
Defined.

Lemma choose_balanced_witness :
  EqualSize.choose toy16 5 ((3 + 2 ^ (m toy16 - 1)) mod 2 ^ m toy16)
  = negb (EqualSize.choose toy16 5 3).
Proof. apply (choose_balanced toy16 5 3). cbn. lia. Defined.

End WrapperFacts.

(** ** The seed stream of the sender: properties *)

Module SenderFacts.
Import Sender.

Lemma nth_j_closed seed_base rank n_send k :
  nth_j seed_base rank n_send k
  = (seed_base + 3 * rank + 3 * n_send * Z.of_nat k) mod 2 ^ 64.
Proof.
  unfold nth_j. induction k as [|k IH].
  - unfold Nat.iter. cbn [nat_rect]. unfold first_j. rewrite u64_spec. f_equal.
    change (Z.of_nat 0) with 0. ring.
  - rewrite Nat.iter_succ, IH. unfold next_j. rewrite u64_spec.
    rewrite Zplus_mod_idemp_l. f_equal. rewrite Nat2Z.inj_succ. ring.
Qed.

(** With [mask = 2 ^ n - 1], the start of turn [k] is the counter modulo [2 ^ n]. *)
Lemma start_closed n seed_base rank n_send k :
  0 <= n <= 64 ->
  start (2 ^ n - 1) seed_base rank n_send k
  = (seed_base + 3 * rank + 3 * n_send * Z.of_nat k) mod 2 ^ n.
Proof.
  intros Hn. unfold start. rewrite nth_j_closed.
  replace (2 ^ n - 1) with (Z.ones n) by (rewrite Z.ones_equiv; lia).
  rewrite Z.land_ones by lia.
  apply Z.mod_mod_divide.
  exists (2 ^ (64 - n)). rewrite <- Z.pow_add_r by lia. f_equal. lia.
Qed.

Lemma mod_eq_divide a b M : 0 < M -> (a mod M = b mod M <-> (M | a - b)).
Proof.
  intros HM. split.
  - intros H. apply Z.mod_divide; [lia|].
    rewrite Zminus_mod, H, Z.sub_diag. reflexivity.
  - intros [q Hq]. replace a with (b + q * M) by lia. apply Z_mod_plus_full.
Qed.

Lemma gcd_pow2_coprime_3 n_send n : 0 <= n -> Z.gcd (Z.gcd n_send (2 ^ n)) 3 = 1.
Proof.
  intros Hn.
  pose proof (Z.coprime_pow_r 3 2 n Hn eq_refl) as H32. unfold Z.coprime in H32.
  apply Z.divide_1_r_nonneg; [apply Z.gcd_nonneg|].
  rewrite <- H32. apply Z.gcd_greatest; [apply Z.gcd_divide_r|].
  apply Z.divide_trans with (Z.gcd n_send (2 ^ n)); [apply Z.gcd_divide_l | apply Z.gcd_divide_r].
Qed.

(** Two streams that share a start: [gcd(n_send, 2 ^ n)] divides the
    difference of the ranks. *)
Lemma streams_meet_divide n seed_base n_send r r' (k k' : nat) :
  0 <= n <= 64 ->
  start (2 ^ n - 1) seed_base r n_send k = start (2 ^ n - 1) seed_base r' n_send k' ->
  (Z.gcd n_send (2 ^ n) | r - r').
Proof.
  intros Hn Heq. assert (HM : 0 < 2 ^ n) by lia.
  rewrite !start_closed in Heq by exact Hn.
  apply mod_eq_divide in Heq; [|exact HM].
  assert (Hg : (Z.gcd n_send (2 ^ n) | 3 * (r - r'))).
  { replace (3 * (r - r')) with
      ((seed_base + 3 * r + 3 * n_send * Z.of_nat k
        - (seed_base + 3 * r' + 3 * n_send * Z.of_nat k'))
       - n_send * (3 * (Z.of_nat k - Z.of_nat k'))) by lia.
    apply Z.divide_sub_r.
    - apply Z.divide_trans with (2 ^ n); [apply Z.gcd_divide_r | exact Heq].
    - apply Z.divide_mul_l, Z.gcd_divide_l. }
  apply Z.gauss with (m := 3); [exact Hg|]. apply gcd_pow2_coprime_3. lia.
Qed.

(** Conversely, when it divides that difference the stream of [r] reaches
    the first start of [r']. *)
Lemma divide_streams_meet n seed_base n_send r r' :
  0 <= n <= 64 ->
  (Z.gcd n_send (2 ^ n) | r - r') ->
  exists k : nat,
    start (2 ^ n - 1) seed_base r n_send k = start (2 ^ n - 1) seed_base r' n_send 0.
Proof.
  intros Hn [q Hq]. assert (HM : 0 < 2 ^ n) by lia.
  destruct (Z.gcd_bezout n_send (2 ^ n) _ eq_refl) as (u & v & Huv).
  set (c := - (u * q)).
  exists (Z.to_nat (c mod 2 ^ n)).
  rewrite !start_closed by exact Hn.
  pose proof (Z.mod_pos_bound c (2 ^ n) HM) as Hb.
  rewrite Z2Nat.id by lia.
  apply mod_eq_divide; [exact HM|].
  exists (3 * v * q - 3 * n_send * (c / 2 ^ n)).
  pose proof (Z.div_mod c (2 ^ n) ltac:(lia)) as Hdm.
  assert (Hns : n_send * c = - (r - r') + 2 ^ n * (v * q)).
  { unfold c. rewrite Hq, <- Huv. ring. }
  replace (c mod 2 ^ n) with (c - 2 ^ n * (c / 2 ^ n)) by lia.
  change (Z.of_nat 0) with 0.
  replace (seed_base + 3 * r + 3 * n_send * (c - 2 ^ n * (c / 2 ^ n))
           - (seed_base + 3 * r' + 3 * n_send * 0))
    with (3 * (r - r') + 3 * (n_send * c) - 3 * n_send * (c / 2 ^ n) * 2 ^ n) by ring.
  rewrite Hns. ring.
Qed.

(** When the number of senders is a power of two (at most [2 ^ n]), the
    streams of two distinct ranks are disjoint. *)
Lemma seed_streams_disjoint_pow2 n t seed_base r r' k k' :
  0 <= t <= n -> n <= 64 -> 0 <= r < 2 ^ t -> 0 <= r' < 2 ^ t -> r <> r' ->
  start (2 ^ n - 1) seed_base r (2 ^ t) k <> start (2 ^ n - 1) seed_base r' (2 ^ t) k'.
Proof.
  intros Ht Hn Hr Hr' Hne Heq.
  assert (Hmeet : (Z.gcd (2 ^ t) (2 ^ n) | r - r')).
  { apply (streams_meet_divide n seed_base (2 ^ t) r r' k k'); [lia | exact Heq]. }
  assert (Hg : Z.gcd (2 ^ t) (2 ^ n) = 2 ^ t).
  { apply Z.divide_gcd_iff; [lia|]. exists (2 ^ (n - t)).
    rewrite <- Z.pow_add_r by lia. f_equal. lia. }
  rewrite Hg in Hmeet. destruct Hmeet as [q Hq].
  assert (q = 0) by nia. lia.
Qed.

(** When the number of senders is odd, the streams of any two ranks meet. *)
Lemma seed_streams_meet_odd n seed_base n_send r r' :
  0 <= n <= 64 -> 0 < n_send -> Z.odd n_send = true ->
  exists k k' : nat,
    start (2 ^ n - 1) seed_base r n_send k = start (2 ^ n - 1) seed_base r' n_send k'.
Proof.
  intros Hn Hs Hodd.
  cut (Z.gcd n_send (2 ^ n) | r - r').
  { intros Hdiv. destruct (divide_streams_meet n seed_base n_send r r' Hn Hdiv) as [k Hk].
    exists k, 0%nat. exact Hk. }
  assert (H2 : Z.gcd n_send 2 = 1).
  { pose proof (Z.gcd_nonneg n_send 2) as Hnn.
    pose proof (Z.gcd_divide_r n_send 2) as Hd2.
    pose proof (Z.gcd_divide_l n_send 2) as Hdn.
    assert (Hle : Z.gcd n_send 2 <= 2) by (apply Z.divide_pos_le; [lia | exact Hd2]).
    assert (Hnz : Z.gcd n_send 2 <> 0).
    { intros E. rewrite E in Hd2. destruct Hd2 as [q Hq]. lia. }
    assert (Hn2 : Z.gcd n_send 2 <> 2).
    { intros E. rewrite E in Hdn. destruct Hdn as [q Hq].
      rewrite Hq, Z.odd_mul in Hodd. cbn in Hodd. rewrite andb_false_r in Hodd. discriminate. }
    lia. }
  pose proof (Z.coprime_pow_r n_send 2 n ltac:(lia) H2) as H. unfold Z.coprime in H.
  rewrite H. apply Z.divide_1_l.
Qed.

(** C9 (amended).  With [mask = 2 ^ n - 1], the seed streams of two ranks
    [r] and [r'] (the starts [j & mask] for [j = seed_base + 3 * rank],
    [j += 3 * n_send], over all turns) share a start exactly when
    [gcd(n_send, 2 ^ n)] divides [r - r'], whatever [seed_base] is.  So the
    streams of two distinct ranks below [n_send] are disjoint when [n_send]
    is a power of two, and the streams of any two ranks meet when [n_send] is
    odd. *)
Theorem seed_streams_meet_iff n seed_base n_send r r' :
  0 <= n <= 64 -> 0 < n_send ->
  ((exists k k' : nat,
      start (2 ^ n - 1) seed_base r n_send k = start (2 ^ n - 1) seed_base r' n_send k')
   <-> (Z.gcd n_send (2 ^ n) | r - r')) /\
  (forall t, 0 <= t <= n -> n_send = 2 ^ t -> 0 <= r < n_send -> 0 <= r' < n_send ->
     r <> r' -> forall k k' : nat,
     start (2 ^ n - 1) seed_base r n_send k <> start (2 ^ n - 1) seed_base r' n_send k') /\
  (Z.odd n_send = true ->
     exists k k' : nat,
       start (2 ^ n - 1) seed_base r n_send k = start (2 ^ n - 1) seed_base r' n_send k').
Proof.
  intros Hn Hs. split; [|split].
  - split.
    + intros (k & k' & Heq). exact (streams_meet_divide n seed_base n_send r r' k k' Hn Heq).
    + intros Hdiv. destruct (divide_streams_meet n seed_base n_send r r' Hn Hdiv) as [k Hk].
      exists k, 0%nat. exact Hk.
  - intros t Ht -> Hr Hr' Hne k k'.
    apply seed_streams_disjoint_pow2 with (t := t); assumption || lia.
  - intros Hodd. apply seed_streams_meet_odd; assumption.
Qed.

Lemma seed_streams_meet_iff_witness :
  ((exists k k' : nat, start (2 ^ 4 - 1) 0 0 3 k = start (2 ^ 4 - 1) 0 1 3 k')
   <-> (Z.gcd 3 (2 ^ 4) | 0 - 1)) /\
  (forall t, 0 <= t <= 4 -> 3 = 2 ^ t -> 0 <= 0 < 3 -> 0 <= 1 < 3 ->
     0 <> 1 -> forall k k' : nat,
     start (2 ^ 4 - 1) 0 0 3 k <> start (2 ^ 4 - 1) 0 1 3 k') /\
  (Z.odd 3 = true ->
     exists k k' : nat, start (2 ^ 4 - 1) 0 0 3 k = start (2 ^ 4 - 1) 0 1 3 k').
Proof. apply (seed_streams_meet_iff 4 0 3 0 1); lia. Defined.

(** C9, as stated, fails.  With three senders, [mask = 15] and
    [seed_base = 0], rank 0 draws the start 3 at its turn 11 ([j = 99]) and
    rank 1 draws it at its turn 0 ([j = 3]). *)
Lemma seed_streams_overlap :
  (0 <= 0 < 3 /\ 0 <= 1 < 3 /\ 0 <> 1) /\
  nth_j 0 0 3 11 = 99 /\ nth_j 0 1 3 0 = 3 /\
  start 15 0 0 3 11 = 3 /\ start 15 0 1 3 0 = 3 /\
  In 3 (starts 15 0 0 3 12) /\ In 3 (starts 15 0 1 3 12).
Proof.
  split; [lia|]. repeat split; try reflexivity.
  - do 11 right. left. reflexivity.
  - left. reflexivity.
Qed.

(** *** The stream of one sender *)

Lemma gcd_pow2_3 n : 0 <= n -> Z.gcd (2 ^ n) 3 = 1.
Proof.
  intros Hn. rewrite Z.gcd_comm. exact (Z.coprime_pow_r 3 2 n Hn eq_refl).
Qed.

Lemma gcd_pow2_odd n s : 0 <= n -> Z.odd s = true -> Z.gcd (2 ^ n) s = 1.
Proof.
  intros Hn Hodd. rewrite Z.gcd_comm. apply (Z.coprime_pow_r s 2 n Hn).
  pose proof (Z.gcd_nonneg s 2) as Hnn.
  pose proof (Z.gcd_divide_r s 2) as Hd2.
  pose proof (Z.gcd_divide_l s 2) as Hds.
  assert (Hle : Z.gcd s 2 <= 2) by (apply Z.divide_pos_le; [lia | exact Hd2]).
  assert (Hnz : Z.gcd s 2 <> 0).
  { intros E. rewrite E in Hd2. destruct Hd2 as [q Hq]. lia. }
  assert (Hn2 : Z.gcd s 2 <> 2).
  { intros E. rewrite E in Hds. destruct Hds as [q Hq].
    rewrite Hq, Z.odd_mul in Hodd. cbn in Hodd. rewrite andb_false_r in Hodd. discriminate. }
  unfold Z.coprime. lia.
Qed.

(** A sender comes back to its own starts.  With [mask = 2 ^ n - 1], every
    start lies in [0, 2 ^ n); the starts of the turns [k] and [k'] of one
    sender are equal exactly when [2 ^ n] divides [n_send * (k - k')]; so a
    sender takes up the start of its turn [k] again at the turn [k + 2 ^ n],
    and, when [n_send] is odd, at no turn before: its first [2 ^ n] starts are
    then pairwise distinct. *)
Theorem own_stream_repeats n seed_base n_send r (k k' : nat) :
  0 <= n <= 64 ->
  0 <= start (2 ^ n - 1) seed_base r n_send k < 2 ^ n /\
  (start (2 ^ n - 1) seed_base r n_send k = start (2 ^ n - 1) seed_base r n_send k'
   <-> (2 ^ n | n_send * (Z.of_nat k - Z.of_nat k'))) /\
  start (2 ^ n - 1) seed_base r n_send (k + Z.to_nat (2 ^ n))
    = start (2 ^ n - 1) seed_base r n_send k /\
  (Z.odd n_send = true ->
   (start (2 ^ n - 1) seed_base r n_send k = start (2 ^ n - 1) seed_base r n_send k'
    <-> (2 ^ n | Z.of_nat k - Z.of_nat k'))).
Proof.
  intros Hn. assert (HM : 0 < 2 ^ n) by (apply Z.pow_pos_nonneg; lia).
  assert (Hiff : forall a b : nat,
            start (2 ^ n - 1) seed_base r n_send a = start (2 ^ n - 1) seed_base r n_send b
            <-> (2 ^ n | n_send * (Z.of_nat a - Z.of_nat b))).
  { intros a b. rewrite !start_closed by exact Hn. rewrite mod_eq_divide by exact HM.
    replace (seed_base + 3 * r + 3 * n_send * Z.of_nat a
             - (seed_base + 3 * r + 3 * n_send * Z.of_nat b))
      with (3 * (n_send * (Z.of_nat a - Z.of_nat b))) by ring.
    split.
    - intros Hd. apply Z.gauss with (m := 3); [exact Hd | apply gcd_pow2_3; lia].
    - intros Hd. apply Z.divide_mul_r. exact Hd. }
  split; [rewrite start_closed by exact Hn; apply Z.mod_pos_bound; exact HM|].
  split; [apply Hiff|]. split.
  - apply Hiff. rewrite Nat2Z.inj_add, Z2Nat.id by lia.
    replace (Z.of_nat k + 2 ^ n - Z.of_nat k) with (2 ^ n) by lia.
    apply Z.divide_mul_r, Z.divide_refl.
  - intros Hodd. rewrite Hiff. split.
    + intros Hd. apply Z.gauss with (m := n_send); [exact Hd | apply gcd_pow2_odd; [lia | exact Hodd]].
    + intros Hd. apply Z.divide_mul_r. exact Hd.
Qed.

Lemma own_stream_repeats_witness :
  0 <= start (2 ^ 4 - 1) 0 1 3 2 < 2 ^ 4 /\
  (start (2 ^ 4 - 1) 0 1 3 2 = start (2 ^ 4 - 1) 0 1 3 18
   <-> (2 ^ 4 | 3 * (Z.of_nat 2 - Z.of_nat 18))) /\
  start (2 ^ 4 - 1) 0 1 3 (2 + Z.to_nat (2 ^ 4)) = start (2 ^ 4 - 1) 0 1 3 2 /\
  (Z.odd 3 = true ->
   (start (2 ^ 4 - 1) 0 1 3 2 = start (2 ^ 4 - 1) 0 1 3 18
    <-> (2 ^ 4 | Z.of_nat 2 - Z.of_nat 18))).
Proof. apply (own_stream_repeats 4 0 3 1 2 18). lia. Defined.

End SenderFacts.

(** ** The sequential engine: properties *)

Module SequentialFacts.
Import Sequential.

Section Chains.
Context {A_t B_t C_t : Type}.
Variable Pb : Problem A_t B_t C_t.

Lemma iterate_n_0 x : iterate_n Pb 0 x = x.
Proof. reflexivity. Qed.

Lemma iterate_n_S j x : iterate_n Pb (S j) x = iterate_once Pb (iterate_n Pb j x).
Proof. reflexivity. Qed.

Lemma iterate_n_S_r j x : iterate_n Pb (S j) x = iterate_n Pb j (iterate_once Pb x).
Proof. unfold iterate_n. apply Nat.iter_succ_r. Qed.

Lemma iterate_n_add i j x : iterate_n Pb (i + j) x = iterate_n Pb i (iterate_n Pb j x).
Proof. unfold iterate_n. apply Nat.iter_add. Qed.

(** *** The chain walker *)

Lemma dist_point_step_eq mask b c :
  dist_point_step Pb mask (b, c) =
    if dp Pb mask (iterate_once Pb (inp b))
    then inr (Bufs (inp b) (iterate_once Pb (inp b)), u64 (c + 1))
    else inl (Bufs (iterate_once Pb (inp b)) (inp b), u64 (c + 1)).
Proof. reflexivity. Qed.

(** The loop of [generate_dist_point], run [n] times from the cells [b] and
    the count [c]: either it returns at the first distinguished iterate, the
    [L]-th, with the cells on the last two iterates and [L] added to the
    count; or none of the [n] first iterates is distinguished. *)
Lemma dist_point_loop mask : forall (n : nat) b c,
  match for_nat (dist_point_step Pb mask) n (b, c) with
  | inr (b', c') =>
      exists L : nat, (1 <= L <= n)%nat /\
        b' = Bufs (iterate_n Pb (L - 1) (inp b)) (iterate_n Pb L (inp b)) /\
        c' = u64 (c + Z.of_nat L) /\
        dp Pb mask (iterate_n Pb L (inp b)) = true /\
        forall j : nat, (1 <= j < L)%nat -> dp Pb mask (iterate_n Pb j (inp b)) = false
  | inl (b', c') =>
      inp b' = iterate_n Pb n (inp b) /\
      (n = 0%nat -> c' = c) /\ ((0 < n)%nat -> c' = u64 (c + Z.of_nat n)) /\
      forall j : nat, (1 <= j <= n)%nat -> dp Pb mask (iterate_n Pb j (inp b)) = false
  end.
Proof.
  intros n. induction n as [|n IH]; intros b c.
  - cbn [for_nat]. split; [reflexivity|]. split; [reflexivity|]. split; [lia|]. intros j Hj. lia.
  - cbn [for_nat]. rewrite dist_point_step_eq.
    destruct (dp Pb mask (iterate_once Pb (inp b))) eqn:Hdp.
    + exists 1%nat. split; [lia|]. split; [reflexivity|]. split; [reflexivity|].
      split; [exact Hdp|]. intros j Hj. lia.
    + specialize (IH (Bufs (iterate_once Pb (inp b)) (inp b)) (u64 (c + 1))).
      cbn [inp out] in IH.
      destruct (for_nat (dist_point_step Pb mask) n _) as [[b' c']|[b' c']].
      * destruct IH as (Hinp & H0 & Hc & Hnone). split; [|split; [|split]].
        -- rewrite Hinp, iterate_n_S_r. reflexivity.
        -- intros H. lia.
        -- intros _. destruct n as [|n].
           ++ rewrite H0 by reflexivity. reflexivity.
           ++ rewrite Hc by lia. rewrite !u64_spec, Zplus_mod_idemp_l. f_equal. lia.
        -- intros j Hj. destruct j as [|j]; [lia|]. destruct j as [|j]; [exact Hdp|].
           rewrite iterate_n_S_r. apply Hnone. lia.
      * destruct IH as (L & HL & Hb & Hc & HdpL & Hfirst).
        exists (S L). split; [lia|]. split; [|split; [|split]].
        -- rewrite Hb. replace (S L - 1)%nat with (S (L - 1)) by lia.
           rewrite !iterate_n_S_r. reflexivity.
        -- rewrite Hc, !u64_spec, Zplus_mod_idemp_l. f_equal. lia.
        -- rewrite iterate_n_S_r. exact HdpL.
        -- intros j Hj. destruct j as [|j]; [lia|]. destruct j as [|j]; [exact Hdp|].
           rewrite iterate_n_S_r. apply Hfirst. lia.
Qed.
Lemma dp_land mask x : 0 <= mask -> (dp Pb mask x = true <-> Z.land (hash Pb x) mask = 0).
Proof.
  intros _. unfold dp, is_distinguished_point. rewrite Z.land_comm.
  destruct (Z.eqb_spec 0 (Z.land (hash Pb x) mask)); split; intros; congruence || lia.
Qed.

Lemma dp_mask_eq d : 0 <= d <= 62 -> dp_mask d = 2 ^ d - 1.
Proof.
  intros Hd. unfold dp_mask. apply u64_small. unfold is_u64. rewrite u64_mod_eq.
  assert (2 ^ d <= 2 ^ 62) by (apply Z.pow_le_mono_r; lia).
  assert (0 < 2 ^ d) by (apply Z.pow_pos_nonneg; lia). lia.
Qed.

Lemma dp_bound_le d : 0 <= d -> 0 <= dp_bound d <= 40 * 2 ^ d.
Proof.
  intros Hd. unfold dp_bound. rewrite u64_spec.
  assert (0 < 2 ^ d) by (apply Z.pow_pos_nonneg; lia).
  pose proof (Z.mod_pos_bound (40 * 2 ^ d) (2 ^ 64) ltac:(lia)).
  pose proof (Z.mod_le (40 * 2 ^ d) (2 ^ 64) ltac:(lia) ltac:(lia)). lia.
Qed.

Lemma dp_bound_eq d : 0 <= d <= 58 -> dp_bound d = 40 * 2 ^ d.
Proof.
  intros Hd. unfold dp_bound. apply u64_small. unfold is_u64. rewrite u64_mod_eq.
  assert (2 ^ d <= 2 ^ 58) by (apply Z.pow_le_mono_r; lia).
  assert (0 < 2 ^ d) by (apply Z.pow_pos_nonneg; lia).
  change (2 ^ 64) with (64 * 2 ^ 58). lia.
Qed.

(** Beyond difficulty 58 the bound [k * (1LL << difficulty)] wraps. *)
Example dp_bound_59 : dp_bound 59 = 2 ^ 62.
Proof. reflexivity. Qed.

(** [generate_dist_point] for any difficulty that [1LL << difficulty] allows,
    with the bound as the loop computes it. *)
Lemma generate_dist_point_general inp0 b d :
  0 <= d <= 62 ->
  match generate_dist_point Pb inp0 b 0 d with
  | (true, b', L) =>
      1 <= L <= dp_bound d /\
      b' = Bufs (iterate_n Pb (Z.to_nat L - 1) inp0) (iterate_n Pb (Z.to_nat L) inp0) /\
      Z.land (hash Pb (out b')) (2 ^ d - 1) = 0 /\
      (forall j : nat, (1 <= j < Z.to_nat L)%nat ->
         Z.land (hash Pb (iterate_n Pb j inp0)) (2 ^ d - 1) <> 0)
  | (false, b', L) =>
      L = dp_bound d /\
      inp b' = iterate_n Pb (Z.to_nat (dp_bound d)) inp0 /\
      (forall j : nat, (1 <= j <= Z.to_nat (dp_bound d))%nat ->
         Z.land (hash Pb (iterate_n Pb j inp0)) (2 ^ d - 1) <> 0)
  end.
Proof.
  intros Hd. unfold generate_dist_point. cbv zeta.
  rewrite for_loop_nat, Z_N_nat, dp_mask_eq by exact Hd.
  pose proof (dp_bound_le d ltac:(lia)) as Hb.
  assert (Hm : 0 <= 2 ^ d - 1).
  { assert (0 < 2 ^ d) by (apply Z.pow_pos_nonneg; lia). lia. }
  pose proof (dist_point_loop (2 ^ d - 1) (Z.to_nat (dp_bound d)) (Bufs inp0 (out b)) 0) as H.
  destruct (for_nat _ _ _) as [[b' c']|[b' c']]; cbn [inp] in H.
  - destruct H as (Hinp & H0 & Hc & Hnone). split; [|split; [exact Hinp|]].
    + destruct (Z.to_nat (dp_bound d)) as [|n] eqn:Hn.
      * rewrite H0 by reflexivity. lia.
      * rewrite Hc by lia. rewrite u64_small; [lia|].
        unfold is_u64. pose proof (u64_range (40 * 2 ^ d)) as Hr.
        unfold is_u64 in Hr. fold (dp_bound d) in Hr. lia.
    + intros j Hj. specialize (Hnone j Hj). rewrite <- dp_land by exact Hm. congruence.
  - destruct H as (L & HL & Hb' & Hc & HdpL & Hfirst).
    assert (HcL : c' = Z.of_nat L).
    { rewrite Hc. apply u64_small. unfold is_u64.
      pose proof (u64_range (40 * 2 ^ d)) as Hr.
      unfold is_u64 in Hr. fold (dp_bound d) in Hr. lia. }
    rewrite HcL, Nat2Z.id. split; [lia|]. split; [exact Hb'|]. split.
    + rewrite Hb'. cbn [out]. apply dp_land; [exact Hm | exact HdpL].
    + intros j Hj. specialize (Hfirst j Hj). rewrite <- dp_land by exact Hm. congruence.
Qed.

(** C2 (amended).  The bound of the loop is [k * (1LL << d)] with [k = 40]
    as the code computes it, in [u64]: [(40 * 2 ^ d) mod 2 ^ 64], which is
    [40 * 2 ^ d] exactly for the difficulties up to 58 and less from 59 on.
    For a difficulty [0 <= d <= 62] and a start [inp0], with the chain length
    counted from 0, [generate_dist_point] applies the iteration at most that
    many times.  When it returns true with the length [L], [L] is at least 1
    and at most the bound, the output cell holds the [L]-th iterate [e] of
    [inp0] (and the input cell the one before), [hash(e) & (2 ^ d - 1) = 0],
    and no earlier iterate passes that test.  It returns false exactly when
    none of the iterates up to the bound passes it, and then it has made that
    many applications. *)
Theorem generate_dist_point_spec inp0 b d :
  0 <= d <= 62 ->
  (dp_bound d = (40 * 2 ^ d) mod 2 ^ 64 /\ dp_bound d <= 40 * 2 ^ d /\
   (d <= 58 -> dp_bound d = 40 * 2 ^ d) /\ (58 < d -> dp_bound d < 40 * 2 ^ d)) /\
  match generate_dist_point Pb inp0 b 0 d with
  | (true, b', L) =>
      1 <= L <= dp_bound d /\
      out b' = iterate_n Pb (Z.to_nat L) inp0 /\
      inp b' = iterate_n Pb (Z.to_nat L - 1) inp0 /\
      Z.land (hash Pb (out b')) (2 ^ d - 1) = 0 /\
      (forall j : nat, (1 <= j < Z.to_nat L)%nat ->
         Z.land (hash Pb (iterate_n Pb j inp0)) (2 ^ d - 1) <> 0)
  | (false, b', L) =>
      L = dp_bound d /\
      inp b' = iterate_n Pb (Z.to_nat (dp_bound d)) inp0
  end /\
  (fst (fst (generate_dist_point Pb inp0 b 0 d)) = false <->
   forall j : nat, (1 <= j <= Z.to_nat (dp_bound d))%nat ->
     Z.land (hash Pb (iterate_n Pb j inp0)) (2 ^ d - 1) <> 0).
Proof.
  intros Hd. split.
  { split; [unfold dp_bound; apply u64_spec|].
    split; [apply dp_bound_le; lia|].
    split; [intros Hd'; apply dp_bound_eq; lia|].
    intros Hd'. assert (Hc : d = 59 \/ d = 60 \/ d = 61 \/ d = 62) by lia.
    destruct Hc as [-> | [-> | [-> | ->]]]; reflexivity. }
  pose proof (generate_dist_point_general inp0 b d Hd) as H.
  destruct (generate_dist_point Pb inp0 b 0 d) as [[[|] b'] L]; cbn [fst].
  - destruct H as (HL & Hb' & Hdp & Hfirst). split.
    + split; [exact HL|]. rewrite Hb'. cbn [inp out]. rewrite Hb' in Hdp. cbn [out] in Hdp.
      repeat split; try assumption.
    + split; [discriminate|]. intros Hnone. exfalso.
      apply (Hnone (Z.to_nat L)); [lia|]. rewrite Hb' in Hdp. exact Hdp.
  - destruct H as (HL & Hinp & Hnone). split; [split; assumption|].
    split; [intros _; exact Hnone | reflexivity].
Qed.

(** *** The walk-back *)

Lemma advance_iter (k : nat) b :
  inp (Nat.iter k (advance Pb) b) = iterate_n Pb k (inp b).
Proof.
  induction k as [|k IH]; [reflexivity|].
  rewrite Nat.iter_succ, iterate_n_S, <- IH. reflexivity.
Qed.

Lemma walk_step_eq c0 c1 :
  walk_step Pb (c0, c1) =
    if is_equal Pb (iterate_once Pb (inp c0)) (iterate_once Pb (inp c1))
    then inr (Bufs (inp c0) (iterate_once Pb (inp c0)),
              Bufs (inp c1) (iterate_once Pb (inp c1)))
    else inl (Bufs (iterate_once Pb (inp c0)) (inp c0),
              Bufs (iterate_once Pb (inp c1)) (inp c1)).
Proof. reflexivity. Qed.

(** The third loop of [walk], run [n] times from the cells [c0] and [c1]:
    either it returns at the first turn [j] whose two outputs are equal, with
    the cells on the inputs and outputs of that turn; or the outputs differ
    at each of the [n] turns. *)
Lemma walk_loop : forall (n : nat) c0 c1,
  match for_nat (walk_step Pb) n (c0, c1) with
  | inr (c0', c1') =>
      exists j : nat, (j < n)%nat /\
        c0' = Bufs (iterate_n Pb j (inp c0)) (iterate_n Pb (S j) (inp c0)) /\
        c1' = Bufs (iterate_n Pb j (inp c1)) (iterate_n Pb (S j) (inp c1)) /\
        is_equal Pb (iterate_n Pb (S j) (inp c0)) (iterate_n Pb (S j) (inp c1)) = true /\
        forall i : nat, (i < j)%nat ->
          is_equal Pb (iterate_n Pb (S i) (inp c0)) (iterate_n Pb (S i) (inp c1)) = false
  | inl (c0', c1') =>
      inp c0' = iterate_n Pb n (inp c0) /\ inp c1' = iterate_n Pb n (inp c1) /\
      forall i : nat, (i < n)%nat ->
        is_equal Pb (iterate_n Pb (S i) (inp c0)) (iterate_n Pb (S i) (inp c1)) = false
  end.
Proof.
  intros n. induction n as [|n IH]; intros c0 c1.
  - cbn [for_nat]. split; [reflexivity|]. split; [reflexivity|]. intros i Hi. lia.
  - cbn [for_nat]. rewrite walk_step_eq.
    destruct (is_equal Pb (iterate_once Pb (inp c0)) (iterate_once Pb (inp c1))) eqn:Heq.
    + exists 0%nat. split; [lia|]. split; [reflexivity|]. split; [reflexivity|].
      split; [exact Heq|]. intros i Hi. lia.
    + specialize (IH (Bufs (iterate_once Pb (inp c0)) (inp c0))
                     (Bufs (iterate_once Pb (inp c1)) (inp c1))).
      cbn [inp] in IH.
      destruct (for_nat (walk_step Pb) n _) as [[c0' c1']|[c0' c1']].
      * destruct IH as (H0 & H1 & Hne). rewrite H0, H1, <- !iterate_n_S_r.
        split; [reflexivity|]. split; [reflexivity|].
        intros i Hi. destruct i as [|i]; [exact Heq|].
        rewrite (iterate_n_S_r (S i)), (iterate_n_S_r (S i) (inp c1)). apply Hne. lia.
      * destruct IH as (j & Hj & H0 & H1 & Hhit & Hne).
        exists (S j). rewrite H0, H1, <- !iterate_n_S_r. split; [lia|].
        split; [reflexivity|]. split; [reflexivity|]. split.
        -- rewrite (iterate_n_S_r (S j)), (iterate_n_S_r (S j) (inp c1)). exact Hhit.
        -- intros i Hi. destruct i as [|i]; [exact Heq|].
           rewrite (iterate_n_S_r (S i)), (iterate_n_S_r (S i) (inp c1)). apply Hne. lia.
Qed.

(** C3.  Let the two chains, of lengths [len0 >= 1] and [len1 >= 1] from the
    inputs in the cells [b0] and [b1], end on equal points.  [walk] advances
    the first by [k0 = len0 - len1] steps when that is positive and the second
    by [k1 = len1 - len0] steps when that is positive, then steps both
    together; it returns true, at the first common step [j] at which the two
    outputs are equal: on return the input cells hold [a] and [b], the
    [j]-th iterates of the aligned inputs, the output cells hold
    [iterate_once a] and [iterate_once b], which are equal, and at every
    earlier common step the outputs differ. *)
Theorem walk_finds_first_merge b0 len0 b1 len1 :
  1 <= len0 -> 1 <= len1 ->
  is_equal Pb (iterate_n Pb (Z.to_nat len0) (inp b0))
              (iterate_n Pb (Z.to_nat len1) (inp b1)) = true ->
  exists j : nat,
    let k0 := Z.to_nat (len0 - len1) in
    let k1 := Z.to_nat (len1 - len0) in
    let a := iterate_n Pb (k0 + j) (inp b0) in
    let b := iterate_n Pb (k1 + j) (inp b1) in
    Z.of_nat j < Z.min len0 len1 /\
    Z.of_nat k0 = Z.max 0 (len0 - len1) /\
    Z.of_nat k1 = Z.max 0 (len1 - len0) /\
    walk Pb b0 len0 b1 len1
      = (true, Bufs a (iterate_once Pb a), Bufs b (iterate_once Pb b)) /\
    is_equal Pb (iterate_once Pb a) (iterate_once Pb b) = true /\
    forall i : nat, (i < j)%nat ->
      is_equal Pb (iterate_once Pb (iterate_n Pb (k0 + i) (inp b0)))
                  (iterate_once Pb (iterate_n Pb (k1 + i) (inp b1))) = false.
Proof.
  intros H0 H1 Hend. unfold walk. cbv zeta.
  rewrite for_loop_nat, !N_iter_nat, !Z_N_nat.
  set (k0 := Z.to_nat (len0 - len1)). set (k1 := Z.to_nat (len1 - len0)).
  set (n := Z.to_nat (Z.min len0 len1)).
  assert (Hk0 : Z.to_nat len0 = (n + k0)%nat) by (unfold n, k0; lia).
  assert (Hk1 : Z.to_nat len1 = (n + k1)%nat) by (unfold n, k1; lia).
  pose proof (walk_loop n (Nat.iter k0 (advance Pb) b0) (Nat.iter k1 (advance Pb) b1)) as H.
  rewrite !advance_iter in H. rewrite Hk0, Hk1, !iterate_n_add in Hend.
  destruct (for_nat (walk_step Pb) n _) as [[c0' c1']|[c0' c1']].
  - exfalso. destruct H as (_ & _ & Hne).
    assert (Hn : (0 < n)%nat) by (unfold n; lia).
    specialize (Hne (n - 1)%nat ltac:(lia)).
    replace (S (n - 1)) with n in Hne by lia. congruence.
  - destruct H as (j & Hj & Hc0 & Hc1 & Hhit & Hne).
    exists j. rewrite !(Nat.add_comm _ j), !iterate_n_add.
    split; [unfold n in Hj; lia|]. split; [unfold k0; lia|]. split; [unfold k1; lia|].
    split; [rewrite Hc0, Hc1; reflexivity|]. split; [exact Hhit|].
    intros i Hi. rewrite !(Nat.add_comm _ i), !iterate_n_add. apply Hne, Hi.
Qed.

(** [walk] does not look at the inputs themselves: with a chain of length 0
    it returns false. *)
Lemma walk_length_0 b0 len0 b1 len1 :
  Z.min len0 len1 <= 0 -> fst (fst (walk Pb b0 len0 b1 len1)) = false.
Proof.
  intros Hmin. unfold walk. cbv zeta.
  replace (Z.to_N (Z.min len0 len1)) with 0%N by lia. reflexivity.
Qed.

End Chains.

(** *** What [treat_collision] puts in the container *)

Section Treat.
Context {A_t B_t C_t : Type}.
Variable Pb : Problem A_t B_t C_t.

(** When [walk] returns true the output cells hold the images of the input
    cells, and they are equal. *)
Lemma walk_true c0 len0 c1 len1 c0' c1' :
  walk Pb c0 len0 c1 len1 = (true, c0', c1') ->
  out c0' = iterate_once Pb (inp c0') /\ out c1' = iterate_once Pb (inp c1') /\
  is_equal Pb (out c0') (out c1') = true.
Proof.
  unfold walk. cbv zeta. rewrite for_loop_nat.
  match goal with |- context [for_nat _ ?n (?x0, ?x1)] =>
    pose proof (walk_loop Pb n x0 x1) as H;
    destruct (for_nat (walk_step Pb) n (x0, x1)) as [[d0 d1]|[d0 d1]] end.
  - discriminate.
  - intros [= <- <-]. destruct H as (j & _ & -> & -> & Heq & _). cbn [inp out].
    repeat split; assumption || reflexivity.
Qed.

Lemma treat_collision_cases a0 b0 c0 len0 c1 len1 container :
  let '(flag, c0', c1', container') :=
    treat_collision Pb a0 b0 c0 len0 c1 len1 container in
  (flag = false -> container' = container) /\
  (flag = true ->
     is_equal Pb (iterate_once Pb (inp c0')) (iterate_once Pb (inp c1')) = true /\
     is_equal Pb (inp c0') (inp c1') = false /\
     (f_eq_g Pb = true ->
        container' = (send_C_to_A Pb (inp c0'), send_C_to_B Pb (inp c1')) :: container) /\
     (f_eq_g Pb = false ->
        extract_1_bit Pb (inp c0') <> 1 /\ extract_1_bit Pb (inp c1') = 1 /\
        container' = (send_C_to_A Pb (inp c1'), send_C_to_B Pb (inp c0')) :: container /\
        claw Pb (send_C_to_A Pb (inp c1'), send_C_to_B Pb (inp c0')))).
Proof.
  unfold treat_collision.
  destruct (walk Pb c0 len0 c1 len1) as [[found d0] d1] eqn:Hwalk.
  destruct found; cbn [negb]; [|split; [reflexivity | discriminate]].
  destruct (walk_true _ _ _ _ _ _ Hwalk) as (Ho0 & Ho1 & Heq). rewrite Ho0, Ho1 in Heq.
  destruct (is_equal Pb (inp d0) (inp d1)) eqn:Hrob; [split; [reflexivity | discriminate]|].
  unfold send_2_A_and_B.
  destruct (f_eq_g Pb) eqn:Hfg; cbn [negb].
  { split; [discriminate|]. intros _. split; [exact Heq|]. split; [exact Hrob|].
    split; [intros _; reflexivity | discriminate]. }
  destruct (Z.eqb_spec (extract_1_bit Pb (inp d0)) 1) as [E0|E0].
  { destruct (extract_1_bit Pb (inp d1) =? 0); cbn [negb]; split; reflexivity || discriminate. }
  destruct (Z.eqb_spec (extract_1_bit Pb (inp d1)) 1) as [E1|E1]; cbn [negb];
    [|split; reflexivity || discriminate].
  split; [discriminate|]. intros _. split; [exact Heq|]. split; [exact Hrob|].
  split; [discriminate|]. intros _. split; [exact E0|]. split; [exact E1|].
  split; [reflexivity|]. unfold claw. cbn [fst snd].
  unfold iterate_once in Heq. rewrite E1, Z.eqb_refl in Heq.
  destruct (Z.eqb_spec (extract_1_bit Pb (inp d0)) 1); [contradiction|]. exact Heq.
Qed.

(** [treat_collision] adds to the container at most one pair, and exactly
    when it returns true.  The pair it adds is made of the two inputs that
    [walk] stopped on, which differ and have equal images.  When [f] and [g]
    are told apart, the first input is on the side of [g] and the second on
    the side of [f], and the pair [(a, b)] added is a claw: [g b] equals
    [f a]. *)
Theorem treat_collision_sound a0 b0 c0 len0 c1 len1 container :
  let '(flag, c0', c1', container') :=
    treat_collision Pb a0 b0 c0 len0 c1 len1 container in
  (flag = false -> container' = container) /\
  (flag = true ->
     is_equal Pb (iterate_once Pb (inp c0')) (iterate_once Pb (inp c1')) = true /\
     is_equal Pb (inp c0') (inp c1') = false /\
     (f_eq_g Pb = true ->
        container' = (send_C_to_A Pb (inp c0'), send_C_to_B Pb (inp c1')) :: container) /\
     (f_eq_g Pb = false ->
        extract_1_bit Pb (inp c0') <> 1 /\ extract_1_bit Pb (inp c1') = 1 /\
        container' = (send_C_to_A Pb (inp c1'), send_C_to_B Pb (inp c0')) :: container /\
        claw Pb (send_C_to_A Pb (inp c1'), send_C_to_B Pb (inp c0')))).
Proof. exact (treat_collision_cases a0 b0 c0 len0 c1 len1 container). Qed.

(** The other orientation is lost.  When [f] and [g] are told apart and
    [walk] stops on a first input on the side of [f] and a second on the side
    of [g], the two make a claw ([f a] equals [g b]) and yet [treat_collision]
    returns false and adds nothing: [send_2_A_and_B] writes the pair and falls
    through to its [return false]. *)
Theorem treat_collision_drops_f_first a0 b0 c0 len0 c1 len1 container c0' c1' :
  f_eq_g Pb = false ->
  walk Pb c0 len0 c1 len1 = (true, c0', c1') ->
  extract_1_bit Pb (inp c0') = 1 -> extract_1_bit Pb (inp c1') = 0 ->
  is_equal Pb (f Pb (send_C_to_A Pb (inp c0'))) (g Pb (send_C_to_B Pb (inp c1'))) = true /\
  send_2_A_and_B Pb (inp c0') (inp c1') a0 b0
    = (false, send_C_to_A Pb (inp c0'), send_C_to_B Pb (inp c1')) /\
  treat_collision Pb a0 b0 c0 len0 c1 len1 container = (false, c0', c1', container).
Proof.
  intros Hfg Hwalk E0 E1.
  destruct (walk_true _ _ _ _ _ _ Hwalk) as (Ho0 & Ho1 & Heq). rewrite Ho0, Ho1 in Heq.
  unfold iterate_once in Heq. rewrite E0, E1 in Heq. cbn in Heq.
  split; [exact Heq|].
  assert (Hsend : send_2_A_and_B Pb (inp c0') (inp c1') a0 b0
                  = (false, send_C_to_A Pb (inp c0'), send_C_to_B Pb (inp c1'))).
  { unfold send_2_A_and_B. rewrite Hfg, E0, E1. reflexivity. }
  split; [exact Hsend|].
  unfold treat_collision. rewrite Hwalk. cbn [negb].
  destruct (is_equal Pb (inp c0') (inp c1')); [reflexivity|].
  rewrite Hsend. reflexivity.
Qed.

(** When [walk] returns false.  It does so exactly when the outputs of the
    two aligned chains differ at each of the [min(len0, len1)] common steps
    (never, then, when a chain has length 0); the input cells are then
    [min(len0, len1)] steps beyond the aligned inputs: on the ends of the two
    chains. *)
Theorem walk_false_iff b0 len0 b1 len1 :
  let k0 := Z.to_nat (len0 - len1) in
  let k1 := Z.to_nat (len1 - len0) in
  let n := Z.to_nat (Z.min len0 len1) in
  (fst (fst (walk Pb b0 len0 b1 len1)) = false <->
   forall i : nat, (i < n)%nat ->
     is_equal Pb (iterate_n Pb (k0 + S i) (inp b0)) (iterate_n Pb (k1 + S i) (inp b1)) = false) /\
  (fst (fst (walk Pb b0 len0 b1 len1)) = false ->
   inp (snd (fst (walk Pb b0 len0 b1 len1))) = iterate_n Pb (k0 + n) (inp b0) /\
   inp (snd (walk Pb b0 len0 b1 len1)) = iterate_n Pb (k1 + n) (inp b1)).
Proof.
  cbv zeta. unfold walk. cbv zeta. rewrite for_loop_nat, !N_iter_nat, !Z_N_nat.
  set (k0 := Z.to_nat (len0 - len1)). set (k1 := Z.to_nat (len1 - len0)).
  set (n := Z.to_nat (Z.min len0 len1)).
  pose proof (walk_loop Pb n (Nat.iter k0 (advance Pb) b0) (Nat.iter k1 (advance Pb) b1)) as H.
  rewrite !advance_iter in H.
  assert (Hadd : forall (a b : nat) x, iterate_n Pb a (iterate_n Pb b x) = iterate_n Pb (b + a) x).
  { intros a b x. rewrite (Nat.add_comm b a). symmetry. apply iterate_n_add. }
  destruct (for_nat (walk_step Pb) n _) as [[c0' c1']|[c0' c1']]; cbn [fst snd].
  - destruct H as (H0 & H1 & Hne). split.
    + split; [|reflexivity]. intros _ i Hi. rewrite <- !Hadd. apply Hne, Hi.
    + intros _. rewrite H0, H1, !Hadd. split; reflexivity.
  - destruct H as (j & Hj & _ & _ & Hhit & _). split; [|discriminate].
    split; [discriminate|]. intros Hall. specialize (Hall j Hj).
    rewrite <- !Hadd in Hall. congruence.
Qed.

End Treat.

(** *** The budget of a version *)

Section Budget.
Context {A_t B_t C_t : Type}.
Variable E : @Env A_t B_t C_t.
Variables (a0 : A_t) (b0 : B_t).

(** An attempt adds one to the telemetry counter, and one to the loop counter
    exactly when it found a distinguished point. *)
Lemma attempt_counters s n :
  let '(s', n', found) := attempt E a0 b0 s n in
  n' = (if found then u64 (n + 1) else n) /\
  n_distinguished_points s' = u64 (n_distinguished_points s + 1).
Proof.
  unfold attempt.
  destruct (randomize E (rng s)) as [pre r].
  destruct (generate_dist_point (Pb s) pre (cells0 s) 0 difficulty) as [[found c0] len0].
  destruct found; cbn [negb]; [|split; reflexivity].
  destruct (pop_insert E _ _ _ _ _ _ _) as [[[hit inp1] len1] d].
  destruct hit; cbn [negb]; [|split; reflexivity].
  destruct (treat_collision _ _ _ _ _ _ _ _) as [[[pot c0'] c1'] cont].
  split; reflexivity.
Qed.

Lemma version_step_eq s n trace :
  version_step E a0 b0 (s, n, trace) =
    if n <? u64 (10 * n_slots E)
    then let '(s', n', found) := attempt E a0 b0 s n in
         inl (s', u64 (n' + 1), found :: trace)
    else inr (s, n, trace).
Proof. reflexivity. Qed.

Lemma version_loop_budget (bound : Z) :
  bound = u64 (10 * n_slots E) -> bound + 2 < u64_mod ->
  forall (fuel : nat) s n trace,
    budget_inv bound n trace -> bound - n < Z.of_nat fuel -> (0 < fuel)%nat ->
    exists s' n' trace',
      for_nat (version_step E a0 b0) fuel (s, n, trace) = inr (s', n', trace') /\
      budget_inv bound n' trace' /\ bound <= n'.
Proof.
  intros Hbound Hsmall. induction fuel as [|fuel IH]; intros s n trace Hinv Hfuel Hpos; [lia|].
  cbn [for_nat]. rewrite version_step_eq, <- Hbound.
  destruct (Z.ltb_spec n bound) as [Hlt | Hge].
  - pose proof (attempt_counters s n) as Hatt.
    destruct (attempt E a0 b0 s n) as [[s1 n1] found].
    destruct Hatt as [Hn1 _].
    destruct Hinv as (Hn & Hs & _).
    assert (Hn1' : n1 = if found then n + 1 else n).
    { rewrite Hn1. destruct found; [|reflexivity]. apply u64_small. unfold is_u64. lia. }
    assert (Hstep : u64 (n1 + 1) = n1 + 1).
    { apply u64_small. unfold is_u64. destruct found; lia. }
    cbv beta iota zeta. rewrite Hstep.
    destruct (IH s1 (n1 + 1) (found :: trace)) as (s' & n' & trace' & Hrun & Hinv' & Hn').
    + unfold budget_inv. cbn [length successes]. destruct found; lia.
    + destruct found; lia.
    + destruct found; lia.
    + exists s', n', trace'. split; [exact Hrun|]. split; [exact Hinv' | exact Hn'].
  - exists s, n, trace. split; [reflexivity|]. split; [exact Hinv | lia].
Qed.

(** In one version the loop counter ends at [10 * n_slots] or one more, and
    it is the number of attempts plus the number of those that found a
    distinguished point: a version makes at most [10 * n_slots] attempts, of
    which at most [5 * n_slots] find a distinguished point. *)
Lemma version_budget s :
  0 <= n_slots E -> 10 * n_slots E + 2 < u64_mod ->
  let '(_, n, trace) := version E a0 b0 s in
  n = Z.of_nat (length trace) + successes trace /\
  10 * n_slots E <= n <= 10 * n_slots E + 1 /\
  Z.of_nat (length trace) <= 10 * n_slots E /\
  successes trace <= 5 * n_slots E.
Proof.
  intros Hs Hsmall. unfold version.
  destruct (update_embedding E (Pb s) (rng s)) as [pb r].
  rewrite for_loop_nat.
  assert (Hb : u64 (10 * n_slots E) = 10 * n_slots E).
  { apply u64_small. unfold is_u64. lia. }
  rewrite Hb.
  edestruct (version_loop_budget (10 * n_slots E) ltac:(symmetry; exact Hb) Hsmall
               (N.to_nat (N.succ (Z.to_N (10 * n_slots E))))) as (s' & n' & trace' & Hrun & Hinv & Hn');
    [| | | rewrite Hrun].
  - unfold budget_inv. cbn [length successes]. split; [reflexivity|]. split; [lia|]. left. lia.
  - lia.
  - lia.
  - destruct Hinv as (Hn & Hsucc & Hend). split; [exact Hn|]. lia.
Qed.

End Budget.

(** *** What the main loop keeps *)

Lemma for_nat_invariant {St R : Type} (body : St -> St + R) (I : St -> Prop) (Q : R -> Prop) :
  (forall s, I s -> match body s with inl s' => I s' | inr r => Q r end) ->
  forall n s, I s -> match for_nat body n s with inl s' => I s' | inr r => Q r end.
Proof.
  intros Hbody. induction n as [|n IH]; intros s Hs; [exact Hs|].
  cbn [for_nat]. specialize (Hbody s Hs). destruct (body s) as [s'|r]; [apply IH|]; exact Hbody.
Qed.

Section Keeps.
Context {A_t B_t C_t : Type}.
Variable E : @Env A_t B_t C_t.
Variables (a0 : A_t) (b0 : B_t).

Lemma same_functions_refl (p : Problem A_t B_t C_t) : same_functions p p.
Proof. repeat split. Qed.

Lemma same_functions_trans (p q r : Problem A_t B_t C_t) :
  same_functions p q -> same_functions q r -> same_functions p r.
Proof.
  intros (Hf & Hg & He & Hb) (Hf' & Hg' & He' & Hb'). repeat split; intros; congruence.
Qed.

Lemma claw_same_functions (p q : Problem A_t B_t C_t) x :
  same_functions p q -> claw q x -> claw p x.
Proof. intros (Hf & Hg & He & _). unfold claw. rewrite He, Hf, Hg. auto. Qed.

(** An attempt leaves the problem as it is and adds at most one pair to the
    container, a claw when [f] and [g] are told apart. *)
Lemma attempt_keeps s n :
  let '(s', _, _) := attempt E a0 b0 s n in
  Pb s' = Pb s /\
  (collisions_container s' = collisions_container s \/
   exists p, collisions_container s' = p :: collisions_container s /\
             (f_eq_g (Pb s) = false -> claw (Pb s) p)).
Proof.
  unfold attempt.
  destruct (randomize E (rng s)) as [pre r].
  destruct (generate_dist_point (Pb s) pre (cells0 s) 0 difficulty) as [[found c0] len0].
  destruct found; cbn [negb]; [|split; [reflexivity | left; reflexivity]].
  destruct (pop_insert E _ _ _ _ _ _ _) as [[[hit inp1] len1] d].
  destruct hit; cbn [negb]; [|split; [reflexivity | left; reflexivity]].
  match goal with |- context [treat_collision ?P ?a ?b ?x0 ?l0 ?x1 ?l1 ?c] =>
    pose proof (treat_collision_cases P a b x0 l0 x1 l1 c) as H;
    destruct (treat_collision P a b x0 l0 x1 l1 c) as [[[pot c0'] c1'] cont] end.
  cbn [Pb collisions_container]. split; [reflexivity|].
  destruct H as [Hfalse Htrue]. destruct pot.
  - right. destruct (Htrue eq_refl) as (_ & _ & Hsame & Hdiff).
    destruct (f_eq_g (Pb s)) eqn:Hfg.
    + eexists. split; [exact (Hsame eq_refl) | discriminate].
    + destruct (Hdiff eq_refl) as (_ & _ & Hc & Hclaw). eexists. split; [exact Hc|].
      intros _. exact Hclaw.
  - left. exact (Hfalse eq_refl).
Qed.

(** A property of the state that an attempt keeps is kept by a version,
    given that the start of the version ([update_embedding] and [flush])
    establishes it. *)
Lemma version_invariant (I : state E -> Prop) s :
  (forall s n, I s -> I (fst (fst (attempt E a0 b0 s n)))) ->
  I (MkState (fst (update_embedding E (Pb s) (rng s))) (snd (update_embedding E (Pb s) (rng s)))
             (flush E (dict s)) (pre_inp0 s) (cells0 s) (cells1 s)
             (chain_length0 s) (chain_length1 s) (n_collisions s)
             (n_robinhoods s) (n_distinguished_points s) (collisions_container s)) ->
  I (fst (fst (version E a0 b0 s))).
Proof.
  intros Hatt Hstart. unfold version.
  destruct (update_embedding E (Pb s) (rng s)) as [pb r]. cbn [fst snd] in Hstart.
  rewrite for_loop_nat.
  assert (Hbody : forall v : version_state E, I (fst (fst v)) ->
            match version_step E a0 b0 v with
            | inl v' => I (fst (fst v'))
            | inr v' => I (fst (fst v'))
            end).
  { intros [[s1 n1] trace] Hs1. rewrite version_step_eq.
    destruct (n1 <? u64 (10 * n_slots E)); [|exact Hs1].
    specialize (Hatt s1 n1 Hs1). destruct (attempt E a0 b0 s1 n1) as [[s2 n2] found].
    exact Hatt. }
  match goal with |- context [for_nat _ ?n ?v0] =>
    pose proof (for_nat_invariant (version_step E a0 b0)
                  (fun v => I (fst (fst v))) (fun v => I (fst (fst v))) Hbody n v0 Hstart) as H;
    destruct (for_nat (version_step E a0 b0) n v0) as [v|v] end; exact H.
Qed.

Lemma versions_loop_invariant (I : state E -> Prop) :
  (forall s, I s -> I (fst (fst (version E a0 b0 s)))) ->
  forall versions s s', I s -> versions_loop E a0 b0 versions s = Some s' -> I s'.
Proof.
  intros Hv. induction versions as [|versions IH]; intros s s' Hs Hrun.
  - cbn [versions_loop] in Hrun. destruct (n_collisions s <? n_needed_collisions); [discriminate|].
    injection Hrun as <-. exact Hs.
  - cbn [versions_loop] in Hrun. destruct (n_collisions s <? n_needed_collisions).
    + exact (IH _ _ (Hv s Hs) Hrun).
    + injection Hrun as <-. exact Hs.
Qed.

(** While a property that a version keeps holds only of states with too few
    collisions, the main loop does not end. *)
Lemma versions_loop_never (I : state E -> Prop) :
  (forall s, I s -> n_collisions s < n_needed_collisions) ->
  (forall s, I s -> I (fst (fst (version E a0 b0 s)))) ->
  forall versions s, I s -> versions_loop E a0 b0 versions s = None.
Proof.
  intros Hfew Hv. induction versions as [|versions IH]; intros s Hs; cbn [versions_loop];
    destruct (Z.ltb_spec (n_collisions s) n_needed_collisions) as [_|Hge];
    try (specialize (Hfew s Hs); lia); [reflexivity|].
  apply IH, Hv, Hs.
Qed.

(** What [collision] stores is right, whatever it returns.  When [f] and [g]
    are told apart and [update_embedding] changes the embeddings only, every
    pair [(a, b)] that a version adds to [collisions_container] is a claw,
    [g b] equal to [f a]; and so at every exit of the main loop. *)
Theorem container_holds_claws (ref : Problem A_t B_t C_t) s :
  (forall pb r, same_functions pb (fst (update_embedding E pb r))) ->
  f_eq_g ref = false ->
  same_functions ref (Pb s) -> Forall (claw ref) (collisions_container s) ->
  (same_functions ref (Pb (fst (fst (version E a0 b0 s)))) /\
   Forall (claw ref) (collisions_container (fst (fst (version E a0 b0 s))))) /\
  (forall versions s', versions_loop E a0 b0 versions s = Some s' ->
     Forall (claw ref) (collisions_container s')).
Proof.
  intros Hupd Hfg Hsame Hclaws.
  set (I := fun s : state E =>
              same_functions ref (Pb s) /\ Forall (claw ref) (collisions_container s)).
  assert (Hatt : forall s n, I s -> I (fst (fst (attempt E a0 b0 s n)))).
  { intros s1 n1 [Hs1 Hc1]. pose proof (attempt_keeps s1 n1) as H.
    destruct (attempt E a0 b0 s1 n1) as [[s2 n2] found]. cbn [fst].
    destruct H as [HPb Hcont]. split; [rewrite HPb; exact Hs1|].
    destruct Hcont as [-> | (p & -> & Hp)]; [exact Hc1|].
    constructor; [|exact Hc1]. apply (claw_same_functions ref (Pb s1)); [exact Hs1|].
    apply Hp. destruct Hs1 as (_ & _ & _ & Hb). congruence. }
  assert (Hver : forall s, I s -> I (fst (fst (version E a0 b0 s)))).
  { intros s1 [Hs1 Hc1]. apply version_invariant; [exact Hatt|]. split; cbn [Pb collisions_container].
    - apply (same_functions_trans ref (Pb s1)); [exact Hs1 | apply Hupd].
    - exact Hc1. }
  split; [exact (Hver s (conj Hsame Hclaws))|].
  intros versions s' Hrun.
  exact (proj2 (versions_loop_invariant I Hver versions s s' (conj Hsame Hclaws) Hrun)).
Qed.

(** No distinguished point, no return.  For a problem none of whose values
    is a distinguished point at difficulty 9 (and that [update_embedding]
    leaves so), [generate_dist_point] gives up after its [40 * 2 ^ 9]
    iterations on every start, no attempt reaches the dictionary, and
    [collision] does not return, however many versions it is given. *)
Theorem collision_needs_distinguished_points c0 rng0 dict0 pb :
  (forall pb r, never_distinguished pb -> never_distinguished (fst (update_embedding E pb r))) ->
  never_distinguished pb ->
  (forall inp0 b,
     fst (fst (generate_dist_point pb inp0 b 0 difficulty)) = false /\
     snd (generate_dist_point pb inp0 b 0 difficulty) = 20480) /\
  forall versions, collision E a0 b0 c0 rng0 dict0 versions pb = None.
Proof.
  intros Hupd Hnever.
  assert (Hgen : forall pb : Problem A_t B_t C_t, never_distinguished pb -> forall inp0 b,
            fst (fst (generate_dist_point pb inp0 b 0 difficulty)) = false /\
            snd (generate_dist_point pb inp0 b 0 difficulty) = 20480).
  { intros pb1 Hn1 inp0 b.
    pose proof (generate_dist_point_general pb1 inp0 b difficulty ltac:(unfold difficulty; lia)) as H.
    destruct (generate_dist_point pb1 inp0 b 0 difficulty) as [[[|] b'] L]; cbn [fst snd].
    - exfalso. destruct H as (HL & Hb' & Hdp & _).
      rewrite Hb' in Hdp. cbn [out] in Hdp.
      replace (Z.to_nat L) with (S (Z.to_nat L - 1)) in Hdp by lia.
      rewrite iterate_n_S in Hdp.
      specialize (Hn1 (iterate_n pb1 (Z.to_nat L - 1) inp0)).
      rewrite dp_mask_eq in Hn1 by (unfold difficulty; lia).
      apply dp_land in Hdp; [congruence | unfold difficulty; lia].
    - destruct H as (-> & _). split; reflexivity. }
  split; [exact (Hgen pb Hnever)|].
  set (I := fun s : state E => never_distinguished (Pb s) /\ n_collisions s = 0).
  intros versions. unfold collision.
  rewrite (versions_loop_never I); [reflexivity | | |].
  - intros s [_ Hc]. rewrite Hc. unfold n_needed_collisions. lia.
  - intros s [Hn Hc]. apply version_invariant.
    + intros s1 n1 [Hn1 Hc1]. unfold attempt.
      destruct (randomize E (rng s1)) as [pre r].
      destruct (Hgen (Pb s1) Hn1 pre (cells0 s1)) as [Hfalse _].
      destruct (generate_dist_point (Pb s1) pre (cells0 s1) 0 difficulty) as [[found c] len0].
      cbn [fst] in Hfalse. subst found. cbn [negb fst]. split; assumption.
    + split; cbn [Pb n_collisions]; [apply Hupd; exact Hn | exact Hc].
  - split; [exact Hnever | reflexivity].
Qed.

(** A dictionary without a slot.  With [dict.n_slots = 0] the inner loop of
    [collision] makes no attempt at all, the number of collisions stays 0,
    and [collision] does not return. *)
Theorem collision_zero_slots_never_returns c0 rng0 dict0 pb :
  n_slots E = 0 ->
  (forall s, snd (version E a0 b0 s) = [] /\
             n_collisions (fst (fst (version E a0 b0 s))) = n_collisions s) /\
  forall versions, collision E a0 b0 c0 rng0 dict0 versions pb = None.
Proof.
  intros Hz.
  assert (Hv : forall s, snd (version E a0 b0 s) = [] /\
             n_collisions (fst (fst (version E a0 b0 s))) = n_collisions s).
  { intros s. unfold version. destruct (update_embedding E (Pb s) (rng s)) as [pb1 r].
    rewrite Hz. change (N.succ (Z.to_N (u64 (10 * 0)))) with 1%N.
    cbn [for_loop for_pos then_run]. rewrite version_step_eq, Hz.
    change (0 <? u64 (10 * 0)) with false. cbn. split; reflexivity. }
  split; [exact Hv|].
  intros versions. unfold collision.
  rewrite (versions_loop_never (fun s => n_collisions s = 0)); [reflexivity | | |].
  - intros s Hc. rewrite Hc. unfold n_needed_collisions. lia.
  - intros s Hc. rewrite (proj2 (Hv s)). exact Hc.
  - reflexivity.
Qed.

(** The counter [n_distinguished_points] counts the attempts, not the
    distinguished points: it is bumped before the test of [found_dist], so a
    version adds to it the number of its attempts, those that found no
    distinguished point included. *)
Theorem telemetry_counts_attempts s :
  let '(s', _, trace) := version E a0 b0 s in
  n_distinguished_points s'
  = Nat.iter (Datatypes.length trace) (fun c => u64 (c + 1)) (n_distinguished_points s) /\
  (is_u64 (n_distinguished_points s) ->
   n_distinguished_points s'
   = (n_distinguished_points s + Z.of_nat (Datatypes.length trace)) mod 2 ^ 64).
Proof.
  unfold version. destruct (update_embedding E (Pb s) (rng s)) as [pb r].
  rewrite for_loop_nat.
  set (c0 := n_distinguished_points s).
  set (I := fun v : version_state E =>
              n_distinguished_points (fst (fst v))
              = Nat.iter (Datatypes.length (snd v)) (fun c => u64 (c + 1)) c0).
  assert (Hbody : forall v, I v ->
            match version_step E a0 b0 v with inl v' => I v' | inr v' => I v' end).
  { intros [[s1 n1] trace] Hv. rewrite version_step_eq.
    destruct (n1 <? u64 (10 * n_slots E)); [|exact Hv].
    pose proof (attempt_counters E a0 b0 s1 n1) as Hatt.
    destruct (attempt E a0 b0 s1 n1) as [[s2 n2] found]. destruct Hatt as [_ Hdp].
    unfold I in *. cbn [fst snd Datatypes.length] in *. rewrite Nat.iter_succ, <- Hv. exact Hdp. }
  assert (Hclosed : forall (m : nat), is_u64 c0 ->
            Nat.iter m (fun c => u64 (c + 1)) c0 = (c0 + Z.of_nat m) mod 2 ^ 64).
  { intros m Hc. induction m as [|m IH].
    - cbn [Nat.iter nat_rect]. rewrite Z.add_0_r. symmetry. apply Z.mod_small.
      unfold is_u64 in Hc. rewrite u64_mod_eq in Hc. exact Hc.
    - rewrite Nat.iter_succ, IH, u64_spec, Zplus_mod_idemp_l. f_equal. lia. }
  match goal with |- context [for_nat _ ?n ?v0] =>
    pose proof (for_nat_invariant (version_step E a0 b0) I I Hbody n v0 eq_refl) as H;
    destruct (for_nat (version_step E a0 b0) n v0) as [[[s1 n1] trace]|[[s1 n1] trace]] end;
    unfold I in H; cbn [fst snd] in H; (split; [exact H|]); intros Hc; rewrite H; apply Hclosed, Hc.
Qed.

End Keeps.

(** Difficulty 0.  The mask is 0 and every point is distinguished:
    [generate_dist_point] returns true after one iteration, with the start in
    the input cell and its image in the output cell. *)
Lemma generate_dist_point_difficulty_0 {A_t B_t C_t : Type} (Pb : Problem A_t B_t C_t) pre b :
  generate_dist_point Pb pre b 0 0 = (true, Bufs pre (iterate_once Pb pre), 1) /\
  forall x, dp Pb (dp_mask 0) x = true.
Proof.
  assert (Hdp : forall x, dp Pb (dp_mask 0) x = true) by reflexivity.
  split; [|exact Hdp].
  unfold generate_dist_point. cbv zeta. change (Z.to_N (dp_bound 0)) with 40%N.
  rewrite for_loop_nat. change (N.to_nat 40) with (S 39). cbn [for_nat].
  rewrite dist_point_step_eq. cbn [inp]. rewrite Hdp. reflexivity.
Qed.

(** *** Examples and runs *)

Example generate_dist_point_succ :
  generate_dist_point succ_problem 5 (Bufs 0 0) 0 3 = (true, Bufs 7 8, 3).
Proof. reflexivity. Qed.

Lemma generate_dist_point_spec_witness :
  (dp_bound 3 = (40 * 2 ^ 3) mod 2 ^ 64 /\ dp_bound 3 <= 40 * 2 ^ 3 /\
   (3 <= 58 -> dp_bound 3 = 40 * 2 ^ 3) /\ (58 < 3 -> dp_bound 3 < 40 * 2 ^ 3)) /\
  match generate_dist_point succ_problem 5 (Bufs 0 0) 0 3 with
  | (true, b', L) =>
      1 <= L <= dp_bound 3 /\
      out b' = iterate_n succ_problem (Z.to_nat L) 5 /\
      inp b' = iterate_n succ_problem (Z.to_nat L - 1) 5 /\
      Z.land (hash succ_problem (out b')) (2 ^ 3 - 1) = 0 /\
      (forall j : nat, (1 <= j < Z.to_nat L)%nat ->
         Z.land (hash succ_problem (iterate_n succ_problem j 5)) (2 ^ 3 - 1) <> 0)
  | (false, b', L) =>
      L = dp_bound 3 /\
      inp b' = iterate_n succ_problem (Z.to_nat (dp_bound 3)) 5
  end /\
  (fst (fst (generate_dist_point succ_problem 5 (Bufs 0 0) 0 3)) = false <->
   forall j : nat, (1 <= j <= Z.to_nat (dp_bound 3))%nat ->
     Z.land (hash succ_problem (iterate_n succ_problem j 5)) (2 ^ 3 - 1) <> 0).
Proof. apply (generate_dist_point_spec succ_problem 5 (Bufs 0 0) 3). lia. Defined.

(** C2, as stated, fails from difficulty 59 on.  At difficulty 61 the product
    [40 * 2 ^ 61] is 0 in [u64]: the loop of [generate_dist_point] does not
    run, and it returns false with the chain length 0 on every start, also on
    the start [0xffffffff] of [succ_problem] whose first iterate, 0, is a
    distinguished point ([1 <= 40 * 2 ^ 61] applications were allowed).  At
    difficulty 59 the bound is [2 ^ 62], less than [40 * 2 ^ 59]. *)
Lemma generate_dist_point_bound_wraps :
  dp_bound 61 = 0 /\ dp_bound 59 = 2 ^ 62 /\ 2 ^ 62 < 40 * 2 ^ 59 /\
  generate_dist_point succ_problem 0xffffffff (Bufs 0 0) 0 61
    = (false, Bufs 0xffffffff 0, 0) /\
  iterate_n succ_problem 1 0xffffffff = 0 /\
  Z.land (hash succ_problem (iterate_n succ_problem 1 0xffffffff)) (2 ^ 61 - 1) = 0 /\
  is_distinguished_point (hash succ_problem (iterate_n succ_problem 1 0xffffffff)) (dp_mask 61)
    = true /\
  1 <= 40 * 2 ^ 61.
Proof. repeat split; try reflexivity; lia. Qed.

Example walk_merge :
  walk merge_problem (Bufs 0 0) 6 (Bufs 11 0) 5 = (true, Bufs 2 3, Bufs 12 3).
Proof. reflexivity. Qed.

Lemma walk_finds_first_merge_witness :
  exists j : nat,
    let k0 := Z.to_nat (6 - 5) in
    let k1 := Z.to_nat (5 - 6) in
    let a := iterate_n merge_problem (k0 + j) 0 in
    let b := iterate_n merge_problem (k1 + j) 11 in
    Z.of_nat j < Z.min 6 5 /\
    Z.of_nat k0 = Z.max 0 (6 - 5) /\
    Z.of_nat k1 = Z.max 0 (5 - 6) /\
    walk merge_problem (Bufs 0 0) 6 (Bufs 11 0) 5
      = (true, Bufs a (iterate_once merge_problem a), Bufs b (iterate_once merge_problem b)) /\
    is_equal merge_problem (iterate_once merge_problem a) (iterate_once merge_problem b) = true /\
    forall i : nat, (i < j)%nat ->
      is_equal merge_problem
        (iterate_once merge_problem (iterate_n merge_problem (k0 + i) 0))
        (iterate_once merge_problem (iterate_n merge_problem (k1 + i) 11)) = false.
Proof.
  apply (walk_finds_first_merge merge_problem (Bufs 0 0) 6 (Bufs 11 0) 5); [lia | lia | reflexivity].
Defined.

Lemma walk_length_0_witness :
  fst (fst (walk merge_problem (Bufs 3 0) 0 (Bufs 12 0) 1)) = false.
Proof. apply (walk_length_0 merge_problem (Bufs 3 0) 0 (Bufs 12 0) 1). lia. Defined.

Lemma version_budget_witness :
  let '(_, n, trace) :=
    version (counting_env 3) 0 0
            (initial_state (counting_env 3) 0 1 (sdict_create 3) five_problem) in
  n = Z.of_nat (length trace) + successes trace /\
  10 * 3 <= n <= 10 * 3 + 1 /\
  Z.of_nat (length trace) <= 10 * 3 /\
  successes trace <= 5 * 3.
Proof.
  apply (version_budget (counting_env 3) 0 0
           (initial_state (counting_env 3) 0 1 (sdict_create 3) five_problem));
    [cbn; lia | unfold u64_mod; cbn; lia].
Defined.

(** C7, at the failing input.  With a dictionary of one slot, and a problem
    and starts for which every attempt finds a distinguished point, one
    version makes five attempts, all successful, and leaves the loop with the
    counter at 10: the counter is bumped twice for each distinguished point,
    once in the body and once in the header of the [for].  (With three slots:
    fifteen attempts.) *)
Theorem version_five_attempts_per_slot :
  (let v := version (counting_env 1) 0 0
              (initial_state (counting_env 1) 0 1 (sdict_create 1) five_problem) in
   snd v = [true; true; true; true; true] /\
   snd (fst v) = 10 /\
   n_distinguished_points (fst (fst v)) = 5 /\
   n_collisions (fst (fst v)) = 3) /\
  (let v := version (counting_env 3) 0 0
              (initial_state (counting_env 3) 0 1 (sdict_create 3) five_problem) in
   snd v = replicate 15 true /\ snd (fst v) = 30).
Proof. cbv zeta. repeat split; vm_compute; reflexivity. Qed.

(** *** A run of [collision] *)

Lemma iterate_once_five x : iterate_once five_problem x = five_f x.
Proof. unfold iterate_once. cbn. destruct (Z.land x 1 =? 1); reflexivity. Qed.

Lemma five_f_small x : 0 <= x < 4194304 -> five_f x = 512 * (x / 5 + 1).
Proof.
  intros Hx. unfold five_f. change 0xffffffff with (Z.ones 32).
  rewrite Z.land_ones by lia. apply Z.mod_small.
  assert (0 <= x / 5 < 4194304) by (split; [apply Z.div_pos; lia | apply Z.div_lt_upper_bound; lia]).
  change (2 ^ 32) with 4294967296. lia.
Qed.

Lemma five_f_block q j : 0 <= q < 524288 -> 0 <= j < 5 -> five_f (5 * q + j) = 512 * (q + 1).
Proof.
  intros Hq Hj. rewrite five_f_small by lia.
  replace ((5 * q + j) / 5) with q; [reflexivity|].
  apply Z.div_unique with (r := j); lia.
Qed.

Lemma five_f_dp x : 0 <= x < 4194304 -> dp five_problem (dp_mask difficulty) (five_f x) = true.
Proof.
  intros Hx. unfold dp, is_distinguished_point. cbn [hash five_problem].
  change (dp_mask difficulty) with (Z.ones 9). rewrite Z.land_comm, Z.land_ones by lia.
  rewrite five_f_small by exact Hx. change (2 ^ 9) with 512.
  rewrite Z.mul_comm, Z.mod_mul by lia. reflexivity.
Qed.

(** A start whose first iterate is distinguished gives a chain of length 1. *)
Lemma generate_dist_point_first {A_t B_t C_t : Type} (Pb : Problem A_t B_t C_t) pre b d :
  0 <= d <= 58 ->
  dp Pb (dp_mask d) (iterate_once Pb pre) = true ->
  generate_dist_point Pb pre b 0 d = (true, Bufs pre (iterate_once Pb pre), 1).
Proof.
  intros Hd Hdp. unfold generate_dist_point. cbv zeta. rewrite for_loop_nat, Z_N_nat.
  assert (Hb : 40 <= dp_bound d).
  { rewrite dp_bound_eq by exact Hd.
    assert (0 < 2 ^ d) by (apply Z.pow_pos_nonneg; lia). lia. }
  destruct (Z.to_nat (dp_bound d)) as [|n] eqn:Hn; [lia|].
  cbn [for_nat]. rewrite dist_point_step_eq. cbn [inp]. rewrite Hdp. reflexivity.
Qed.

Lemma walk_1_1 {A_t B_t C_t : Type} (Pb : Problem A_t B_t C_t) c0 c1 :
  walk Pb c0 1 c1 1 =
    if is_equal Pb (iterate_once Pb (inp c0)) (iterate_once Pb (inp c1))
    then (true, Bufs (inp c0) (iterate_once Pb (inp c0)), Bufs (inp c1) (iterate_once Pb (inp c1)))
    else (false, Bufs (iterate_once Pb (inp c0)) (inp c0), Bufs (iterate_once Pb (inp c1)) (inp c1)).
Proof.
  unfold walk. change (Z.to_N (Z.min 1 1)) with 1%N. change (Z.to_N (1 - 1)) with 0%N.
  cbv zeta. cbn [N.iter for_loop for_pos]. rewrite walk_step_eq.
  destruct (is_equal Pb _ _); reflexivity.
Qed.

Lemma pop_insert_empty {A_t B_t : Type} digest (seed : Z) len inp1 len1 (pb : Problem A_t B_t Z) :
  sdict_pop_insert digest seed len inp1 len1 pb [None]
  = (false, inp1, len1, [Some (digest mod 0xFFFFFFFB, seed, len)]).
Proof.
  unfold sdict_pop_insert, insert_or_probe. cbn [length]. change (Z.of_nat 1) with 1.
  cbv zeta. change (1 =? 0) with false. cbv iota. rewrite Z.mod_1_r. reflexivity.
Qed.

Lemma pop_insert_one {A_t B_t : Type} digest (seed : Z) len inp1 len1 (pb : Problem A_t B_t Z)
  key0 s0 l0 :
  sdict_pop_insert digest seed len inp1 len1 pb [Some (key0, s0, l0)]
  = if key0 =? digest mod 0xFFFFFFFB
    then (true, s0, l0, [Some (key0, s0, l0)])
    else (false, inp1, len1, [Some (key0, s0, l0)]).
Proof.
  unfold sdict_pop_insert, insert_or_probe. cbn [length]. change (Z.of_nat 1) with 1.
  cbv zeta. change (1 =? 0) with false. cbv iota. rewrite Z.mod_1_r.
  change (Z.to_nat 0) with 0%nat. cbn [sdict_probe]. change ([Some (key0, s0, l0)] !! 0%nat) with (Some (Some (key0, s0, l0))).
  cbv beta iota. destruct (key0 =? _); reflexivity.
Qed.


Lemma land_u32 t : 0 <= t < 4194304 -> Z.land t 0xffffffff = t.
Proof.
  intros Ht. change 0xffffffff with (Z.ones 32). rewrite Z.land_ones by lia.
  apply Z.mod_small. change (2 ^ 32) with 4294967296. lia.
Qed.

Lemma five_f_key x : 0 <= x < 4194304 -> five_f x mod 0xFFFFFFFB = five_f x.
Proof.
  intros Hx. rewrite five_f_small by exact Hx. apply Z.mod_small.
  assert (0 <= x / 5 < 4194304) by (split; [apply Z.div_pos; lia | apply Z.div_lt_upper_bound; lia]).
  lia.
Qed.

Lemma generate_five t b :
  0 <= t < 4194304 ->
  generate_dist_point five_problem t b 0 difficulty = (true, Bufs t (five_f t), 1).
Proof.
  intros Ht. rewrite generate_dist_point_first.
  - rewrite iterate_once_five. reflexivity.
  - unfold difficulty. lia.
  - rewrite iterate_once_five. apply five_f_dp. exact Ht.
Qed.

(** The three kinds of attempt of a run on [five_problem] with one slot. *)

(** The slot is empty: the distinguished point is stored. *)
Lemma attempt_stores (s : state (counting_env 1)) n t :
  Pb s = five_problem -> rng s = t -> dict s = [None] -> 0 <= t < 4194304 ->
  let '(s', n', found) := attempt (counting_env 1) 0 0 s n in
  Pb s' = five_problem /\ rng s' = t + 1 /\ dict s' = [Some (five_f t, t, 1)] /\
  inp (cells0 s') = t /\ inp (cells1 s') = inp (cells1 s) /\
  n_collisions s' = n_collisions s /\ n' = u64 (n + 1) /\ found = true.
Proof.
  destruct s as [pb r d pre c0 c1 l0 l1 nc nr ndp cont]. cbn [Pb rng dict cells0 cells1 n_collisions].
  intros -> -> -> Ht. unfold attempt.
  cbn [Pb rng dict cells0 cells1 chain_length0 chain_length1 n_collisions n_robinhoods
       n_distinguished_points collisions_container randomize pop_insert counting_env].
  rewrite land_u32 by exact Ht. rewrite generate_five by exact Ht. cbn [negb out hash five_problem].
  rewrite pop_insert_empty, five_f_key by exact Ht. cbn [negb].
  cbn [Pb rng dict cells0 cells1 n_collisions inp]. repeat split; reflexivity.
Qed.

(** The slot holds a start [s0] of the same block: a collision, and the walk
    leaves the new start and [s0] in the input cells. *)
Lemma attempt_hits (s : state (counting_env 1)) n t key0 s0 :
  Pb s = five_problem -> rng s = t -> dict s = [Some (key0, s0, 1)] ->
  0 <= t < 4194304 -> key0 = five_f t -> five_f s0 = five_f t ->
  let '(s', n', found) := attempt (counting_env 1) 0 0 s n in
  Pb s' = five_problem /\ rng s' = t + 1 /\ dict s' = [Some (key0, s0, 1)] /\
  inp (cells0 s') = t /\ inp (cells1 s') = s0 /\
  n_collisions s' = u64 (n_collisions s + 1) /\ n' = u64 (n + 1) /\ found = true.
Proof.
  destruct s as [pb r d pre c0 c1 l0 l1 nc nr ndp cont]. cbn [Pb rng dict cells0 cells1 n_collisions].
  intros -> -> -> Ht -> Hs0. unfold attempt.
  cbn [Pb rng dict cells0 cells1 chain_length0 chain_length1 n_collisions n_robinhoods
       n_distinguished_points collisions_container randomize pop_insert counting_env].
  rewrite land_u32 by exact Ht. rewrite generate_five by exact Ht. cbn [negb out hash five_problem].
  rewrite pop_insert_one, five_f_key by exact Ht. rewrite Z.eqb_refl. cbn [negb].
  unfold treat_collision. rewrite walk_1_1. cbn [inp]. rewrite !iterate_once_five, Hs0.
  cbn [is_equal five_problem]. rewrite Z.eqb_refl. cbn [negb inp].
  destruct (t =? s0).
  - cbn [Pb rng dict cells0 cells1 n_collisions inp]. repeat split; reflexivity.
  - cbn [send_2_A_and_B f_eq_g five_problem negb].
    cbn [Pb rng dict cells0 cells1 n_collisions inp]. repeat split; reflexivity.
Qed.

(** The slot holds a start of another block: no collision, nothing stored. *)
Lemma attempt_misses (s : state (counting_env 1)) n t key0 s0 :
  Pb s = five_problem -> rng s = t -> dict s = [Some (key0, s0, 1)] ->
  0 <= t < 4194304 -> key0 <> five_f t ->
  let '(s', n', found) := attempt (counting_env 1) 0 0 s n in
  Pb s' = five_problem /\ rng s' = t + 1 /\ dict s' = [Some (key0, s0, 1)] /\
  inp (cells0 s') = t /\ inp (cells1 s') = inp (cells1 s) /\
  n_collisions s' = n_collisions s /\ n' = u64 (n + 1) /\ found = true.
Proof.
  destruct s as [pb r d pre c0 c1 l0 l1 nc nr ndp cont]. cbn [Pb rng dict cells0 cells1 n_collisions].
  intros -> -> -> Ht Hkey. unfold attempt.
  cbn [Pb rng dict cells0 cells1 chain_length0 chain_length1 n_collisions n_robinhoods
       n_distinguished_points collisions_container randomize pop_insert counting_env].
  rewrite land_u32 by exact Ht. rewrite generate_five by exact Ht. cbn [negb out hash five_problem].
  rewrite pop_insert_one, five_f_key by exact Ht.
  destruct (Z.eqb_spec key0 (five_f t)) as [E|_]; [contradiction|]. cbn [negb].
  cbn [Pb rng dict cells0 cells1 n_collisions inp]. repeat split; reflexivity.
Qed.

(** One version of the run, entered with the generator at [5 q + 1]: the
    starts [5 q + 1 .. 5 q + 4] fall in one block (one is stored, three
    collide with it) and the fifth, [5 q + 5], opens the next block and finds
    the slot taken.  The version ends with that fifth start in the first
    input cell and [5 q + 1] in the second. *)
Lemma version_five (s : state (counting_env 1)) q :
  Pb s = five_problem -> rng s = 5 * q + 1 -> length (dict s) = 1%nat ->
  0 <= q < 524287 -> 0 <= n_collisions s < 2 ^ 62 ->
  let s' := fst (fst (version (counting_env 1) 0 0 s)) in
  Pb s' = five_problem /\ rng s' = 5 * (q + 1) + 1 /\ length (dict s') = 1%nat /\
  n_collisions s' = n_collisions s + 3 /\
  inp (cells0 s') = 5 * q + 5 /\ inp (cells1 s') = 5 * q + 1.
Proof.
  intros HPb Hrng Hlen Hq Hnc. cbv zeta. unfold version.
  cbn [update_embedding flush n_slots counting_env].
  change (N.succ (Z.to_N (u64 (10 * Z.of_nat 1)))) with 11%N.
  rewrite for_loop_nat. change (N.to_nat 11) with 11%nat.
  assert (Hclear : sdict_clear (dict s) = [None]).
  { unfold sdict_clear. rewrite Hlen. reflexivity. }
  rewrite Hclear. clear Hclear Hlen. rewrite HPb, Hrng.
  assert (HF : forall j, 0 <= j < 5 -> five_f (5 * q + j) = 512 * (q + 1)).
  { intros j Hj. apply five_f_block; lia. }
  assert (HF' : five_f (5 * q + 5) = 512 * (q + 2)).
  { replace (5 * q + 5) with (5 * (q + 1) + 0) by lia.
    rewrite five_f_block by lia. lia. }
  (* first attempt: the start [5 q + 1] is stored *)
  cbn [for_nat]. rewrite version_step_eq.
  change (0 <? u64 (10 * n_slots (counting_env 1))) with true. cbv iota.
  match goal with |- context [attempt _ _ _ ?s0 ?n0] =>
    pose proof (attempt_stores s0 n0 (5 * q + 1) eq_refl eq_refl eq_refl ltac:(lia)) as H1;
    destruct (attempt (counting_env 1) 0 0 s0 n0) as [[s1 n1] f1] end.
  destruct H1 as (HPb1 & Hrng1 & Hd1 & _ & _ & Hnc1 & -> & ->).
  cbn [n_collisions] in Hnc1. cbv beta iota.
  change (u64 (u64 (0 + 1) + 1)) with 2.
  (* second attempt: [5 q + 2] collides *)
  rewrite version_step_eq.
  change (2 <? u64 (10 * n_slots (counting_env 1))) with true. cbv iota.
  pose proof (attempt_hits s1 2 (5 * q + 2) (five_f (5 * q + 1)) (5 * q + 1)
                HPb1 ltac:(lia) Hd1 ltac:(lia)
                ltac:(rewrite (HF 1), (HF 2) by lia; reflexivity)
                ltac:(rewrite (HF 1), (HF 2) by lia; reflexivity)) as H2.
  destruct (attempt (counting_env 1) 0 0 s1 2) as [[s2 n2] f2].
  destruct H2 as (HPb2 & Hrng2 & Hd2 & _ & _ & Hnc2 & -> & ->).
  cbv beta iota. change (u64 (u64 (2 + 1) + 1)) with 4.
  (* third attempt: [5 q + 3] collides *)
  rewrite version_step_eq.
  change (4 <? u64 (10 * n_slots (counting_env 1))) with true. cbv iota.
  pose proof (attempt_hits s2 4 (5 * q + 3) (five_f (5 * q + 1)) (5 * q + 1)
                HPb2 ltac:(lia) Hd2 ltac:(lia)
                ltac:(rewrite (HF 1), (HF 3) by lia; reflexivity)
                ltac:(rewrite (HF 1), (HF 3) by lia; reflexivity)) as H3.
  destruct (attempt (counting_env 1) 0 0 s2 4) as [[s3 n3] f3].
  destruct H3 as (HPb3 & Hrng3 & Hd3 & _ & _ & Hnc3 & -> & ->).
  cbv beta iota. change (u64 (u64 (4 + 1) + 1)) with 6.
  (* fourth attempt: [5 q + 4] collides *)
  rewrite version_step_eq.
  change (6 <? u64 (10 * n_slots (counting_env 1))) with true. cbv iota.
  pose proof (attempt_hits s3 6 (5 * q + 4) (five_f (5 * q + 1)) (5 * q + 1)
                HPb3 ltac:(lia) Hd3 ltac:(lia)
                ltac:(rewrite (HF 1), (HF 4) by lia; reflexivity)
                ltac:(rewrite (HF 1), (HF 4) by lia; reflexivity)) as H4.
  destruct (attempt (counting_env 1) 0 0 s3 6) as [[s4 n4] f4].
  destruct H4 as (HPb4 & Hrng4 & Hd4 & _ & Hc1 & Hnc4 & -> & ->).
  cbv beta iota. change (u64 (u64 (6 + 1) + 1)) with 8.
  (* fifth attempt: [5 q + 5] is of the next block *)
  rewrite version_step_eq.
  change (8 <? u64 (10 * n_slots (counting_env 1))) with true. cbv iota.
  pose proof (attempt_misses s4 8 (5 * q + 5) (five_f (5 * q + 1)) (5 * q + 1)
                HPb4 ltac:(lia) Hd4 ltac:(lia)
                ltac:(rewrite (HF 1), HF' by lia; lia)) as H5.
  destruct (attempt (counting_env 1) 0 0 s4 8) as [[s5 n5] f5].
  destruct H5 as (HPb5 & Hrng5 & Hd5 & Hc0 & Hc1' & Hnc5 & -> & ->).
  cbv beta iota. change (u64 (u64 (8 + 1) + 1)) with 10.
  (* the loop ends *)
  rewrite version_step_eq.
  change (10 <? u64 (10 * n_slots (counting_env 1))) with false. cbv iota. cbn [fst].
  split; [exact HPb5|]. split; [lia|]. split; [rewrite Hd5; reflexivity|].
  split; [|split; [exact Hc0 | congruence]].
  rewrite Hnc5, Hnc4, Hnc3, Hnc2, Hnc1.
  rewrite (u64_small (n_collisions s + 1)) by (unfold is_u64, u64_mod; lia).
  rewrite (u64_small (n_collisions s + 1 + 1)) by (unfold is_u64, u64_mod; lia).
  rewrite u64_small by (unfold is_u64, u64_mod; lia). lia.
Qed.

Lemma versions_loop_five : forall (k : nat) q s,
  between_versions q s -> 0 <= q -> q + Z.of_nat k = 349526 ->
  forall extra : nat,
  exists s', versions_loop (counting_env 1) 0 0 (k + extra) s = Some s' /\
             between_versions 349526 s'.
Proof.
  induction k as [|k IH]; intros q s Hinv Hq Hk extra.
  - assert (q = 349526) by lia. subst q. exists s. split; [|exact Hinv].
    destruct Hinv as (_ & _ & _ & Hnc & _).
    destruct (0 + extra)%nat; cbn [versions_loop]; rewrite Hnc; reflexivity.
  - destruct Hinv as (HPb & Hrng & Hlen & Hnc & Hcells).
    change (S k + extra)%nat with (S (k + extra)). cbn [versions_loop].
    destruct (Z.ltb_spec (n_collisions s) n_needed_collisions) as [_|Hge];
      [|unfold n_needed_collisions in Hge; lia].
    apply (IH (q + 1)); [|lia|lia].
    pose proof (version_five s q HPb Hrng Hlen ltac:(lia) ltac:(lia)) as Hv.
    cbv zeta in Hv. destruct Hv as (HPb' & Hrng' & Hlen' & Hnc' & Hc0 & Hc1).
    split; [exact HPb'|]. split; [exact Hrng'|]. split; [exact Hlen'|].
    split; [lia|]. intros _. split; lia.
Qed.

(** C1, at the failing input.  The problem [five_problem] ([f x] is 512 times
    [x / 5 + 1]; [g] is [f]), a generator that counts from 1 and a
    dictionary of one slot: [collision] returns after 349526 versions (with
    any larger bound on the number of versions as well), and the pair it
    returns is [(1747630, 1747626)], on which [f] takes two different values.
    The pair is what the last attempt of the last version left in the two
    input cells: the start of a chain that met nothing, and a start left there
    by an earlier collision. *)
Theorem collision_returns_stale_cells :
  (forall extra : nat,
     collision (counting_env 1) 0 0 0 1 (sdict_create 1) (Z.to_nat 349526 + extra) five_problem
     = Some (1747630, 1747626)) /\
  f five_problem 1747630 = 178957824 /\
  g five_problem 1747626 = 178957312.
Proof.
  split; [|split; reflexivity].
  intros extra. unfold collision.
  destruct (versions_loop_five (Z.to_nat 349526) 0
              (MkState (E := counting_env 1) five_problem 1 (sdict_create 1) 0
                       (Bufs 0 0) (Bufs 0 0) 0 0 0 0 0 [])) with (extra := extra)
    as (s' & Hrun & Hinv).
  - split; [reflexivity|]. split; [reflexivity|]. split; [reflexivity|].
    split; [reflexivity|]. intros H. lia.
  - lia.
  - lia.
  - rewrite Hrun. destruct Hinv as (_ & _ & _ & _ & Hcells).
    destruct (Hcells ltac:(lia)) as [-> ->]. reflexivity.
Qed.

(** *** Examples for the container and the main loop *)

Example treat_collision_keeps_g_first :
  treat_collision const_problem 0 0 (Bufs 2 0) 1 (Bufs 1 0) 1 []
  = (true, Bufs 2 8, Bufs 1 8, [(1, 2)]).
Proof. reflexivity. Qed.

Lemma treat_collision_drops_f_first_witness :
  is_equal const_problem (f const_problem (send_C_to_A const_problem 1))
                         (g const_problem (send_C_to_B const_problem 2)) = true /\
  send_2_A_and_B const_problem 1 2 0 0
    = (false, send_C_to_A const_problem 1, send_C_to_B const_problem 2) /\
  treat_collision const_problem 0 0 (Bufs 1 0) 1 (Bufs 2 0) 1 []
    = (false, Bufs 1 8, Bufs 2 8, []).
Proof.
  apply (treat_collision_drops_f_first const_problem 0 0 (Bufs 1 0) 1 (Bufs 2 0) 1 []
           (Bufs 1 8) (Bufs 2 8)); reflexivity.
Defined.

(** A run on [flat_problem] with a counting generator started at 1 and one
    slot.  Every start is one step from the point 512: the first start of a
    version is stored and the other four collide with it. *)
Lemma iterate_once_flat x : iterate_once flat_problem x = 512.
Proof. unfold iterate_once. cbn. destruct (Z.land x 1 =? 1); reflexivity. Qed.

Lemma generate_flat t b :
  generate_dist_point flat_problem t b 0 difficulty = (true, Bufs t 512, 1).
Proof.
  rewrite generate_dist_point_first.
  - rewrite iterate_once_flat. reflexivity.
  - unfold difficulty. lia.
  - rewrite iterate_once_flat. reflexivity.
Qed.

Lemma attempt_flat_stores (s : state (counting_env 1)) n t :
  Pb s = flat_problem -> rng s = t -> dict s = [None] -> 0 <= t < 4194304 ->
  let '(s', n', found) := attempt (counting_env 1) 0 0 s n in
  Pb s' = flat_problem /\ rng s' = t + 1 /\ dict s' = [Some (512, t, 1)] /\
  n_collisions s' = n_collisions s /\ n' = u64 (n + 1) /\ found = true.
Proof.
  destruct s as [pb r d pre c0 c1 l0 l1 nc nr ndp cont]. cbn [Pb rng dict n_collisions].
  intros -> -> -> Ht. unfold attempt.
  cbn [Pb rng dict cells0 cells1 chain_length0 chain_length1 n_collisions n_robinhoods
       n_distinguished_points collisions_container randomize pop_insert counting_env].
  rewrite land_u32 by exact Ht. rewrite generate_flat. cbn [negb out hash flat_problem].
  rewrite pop_insert_empty. change (512 mod 0xFFFFFFFB) with 512. cbn [negb].
  cbn [Pb rng dict n_collisions]. repeat split; reflexivity.
Qed.

Lemma attempt_flat_hits (s : state (counting_env 1)) n t s0 :
  Pb s = flat_problem -> rng s = t -> dict s = [Some (512, s0, 1)] -> 0 <= t < 4194304 ->
  let '(s', n', found) := attempt (counting_env 1) 0 0 s n in
  Pb s' = flat_problem /\ rng s' = t + 1 /\ dict s' = [Some (512, s0, 1)] /\
  n_collisions s' = u64 (n_collisions s + 1) /\ n' = u64 (n + 1) /\ found = true.
Proof.
  destruct s as [pb r d pre c0 c1 l0 l1 nc nr ndp cont]. cbn [Pb rng dict n_collisions].
  intros -> -> -> Ht. unfold attempt.
  cbn [Pb rng dict cells0 cells1 chain_length0 chain_length1 n_collisions n_robinhoods
       n_distinguished_points collisions_container randomize pop_insert counting_env].
  rewrite land_u32 by exact Ht. rewrite generate_flat. cbn [negb out hash flat_problem].
  rewrite pop_insert_one. change (512 mod 0xFFFFFFFB) with 512. rewrite Z.eqb_refl. cbn [negb].
  destruct (treat_collision flat_problem 0 0 _ _ _ _ _) as [[[potential c0'] c1'] cont'].
  cbn [Pb rng dict n_collisions]. repeat split; reflexivity.
Qed.

(** One version of the run, entered with the generator at [5 q + 1]: five
    attempts, four collisions. *)
Lemma version_flat (s : state (counting_env 1)) q :
  Pb s = flat_problem -> rng s = 5 * q + 1 -> length (dict s) = 1%nat ->
  0 <= q < 524287 -> 0 <= n_collisions s < 2 ^ 62 ->
  let s' := fst (fst (version (counting_env 1) 0 0 s)) in
  Pb s' = flat_problem /\ rng s' = 5 * (q + 1) + 1 /\ length (dict s') = 1%nat /\
  n_collisions s' = n_collisions s + 4.
Proof.
  intros HPb Hrng Hlen Hq Hnc. cbv zeta. unfold version.
  cbn [update_embedding flush n_slots counting_env].
  change (N.succ (Z.to_N (u64 (10 * Z.of_nat 1)))) with 11%N.
  rewrite for_loop_nat. change (N.to_nat 11) with 11%nat.
  assert (Hclear : sdict_clear (dict s) = [None]).
  { unfold sdict_clear. rewrite Hlen. reflexivity. }
  rewrite Hclear. clear Hclear Hlen. rewrite HPb, Hrng.
  (* first attempt: the start [5 q + 1] is stored *)
  cbn [for_nat]. rewrite version_step_eq.
  change (0 <? u64 (10 * n_slots (counting_env 1))) with true. cbv iota.
  match goal with |- context [attempt _ _ _ ?s0 ?n0] =>
    pose proof (attempt_flat_stores s0 n0 (5 * q + 1) eq_refl eq_refl eq_refl ltac:(lia)) as H1;
    destruct (attempt (counting_env 1) 0 0 s0 n0) as [[s1 n1] f1] end.
  destruct H1 as (HPb1 & Hrng1 & Hd1 & Hnc1 & -> & ->).
  cbn [n_collisions] in Hnc1. cbv beta iota.
  change (u64 (u64 (0 + 1) + 1)) with 2.
  (* second attempt *)
  rewrite version_step_eq.
  change (2 <? u64 (10 * n_slots (counting_env 1))) with true. cbv iota.
  pose proof (attempt_flat_hits s1 2 (5 * q + 2) (5 * q + 1) HPb1 ltac:(lia) Hd1 ltac:(lia)) as H2.
  destruct (attempt (counting_env 1) 0 0 s1 2) as [[s2 n2] f2].
  destruct H2 as (HPb2 & Hrng2 & Hd2 & Hnc2 & -> & ->).
  cbv beta iota. change (u64 (u64 (2 + 1) + 1)) with 4.
  (* third attempt *)
  rewrite version_step_eq.
  change (4 <? u64 (10 * n_slots (counting_env 1))) with true. cbv iota.
  pose proof (attempt_flat_hits s2 4 (5 * q + 3) (5 * q + 1) HPb2 ltac:(lia) Hd2 ltac:(lia)) as H3.
  destruct (attempt (counting_env 1) 0 0 s2 4) as [[s3 n3] f3].
  destruct H3 as (HPb3 & Hrng3 & Hd3 & Hnc3 & -> & ->).
  cbv beta iota. change (u64 (u64 (4 + 1) + 1)) with 6.
  (* fourth attempt *)
  rewrite version_step_eq.
  change (6 <? u64 (10 * n_slots (counting_env 1))) with true. cbv iota.
  pose proof (attempt_flat_hits s3 6 (5 * q + 4) (5 * q + 1) HPb3 ltac:(lia) Hd3 ltac:(lia)) as H4.
  destruct (attempt (counting_env 1) 0 0 s3 6) as [[s4 n4] f4].
  destruct H4 as (HPb4 & Hrng4 & Hd4 & Hnc4 & -> & ->).
  cbv beta iota. change (u64 (u64 (6 + 1) + 1)) with 8.
  (* fifth attempt *)
  rewrite version_step_eq.
  change (8 <? u64 (10 * n_slots (counting_env 1))) with true. cbv iota.
  pose proof (attempt_flat_hits s4 8 (5 * q + 5) (5 * q + 1) HPb4 ltac:(lia) Hd4 ltac:(lia)) as H5.
  destruct (attempt (counting_env 1) 0 0 s4 8) as [[s5 n5] f5].
  destruct H5 as (HPb5 & Hrng5 & Hd5 & Hnc5 & -> & ->).
  cbv beta iota. change (u64 (u64 (8 + 1) + 1)) with 10.
  (* the loop ends *)
  rewrite version_step_eq.
  change (10 <? u64 (10 * n_slots (counting_env 1))) with false. cbv iota. cbn [fst].
  split; [exact HPb5|]. split; [lia|]. split; [rewrite Hd5; reflexivity|].
  rewrite Hnc5, Hnc4, Hnc3, Hnc2, Hnc1.
  rewrite (u64_small (n_collisions s + 1)) by (unfold is_u64, u64_mod; lia).
  rewrite (u64_small (n_collisions s + 1 + 1)) by (unfold is_u64, u64_mod; lia).
  rewrite (u64_small (n_collisions s + 1 + 1 + 1)) by (unfold is_u64, u64_mod; lia).
  rewrite u64_small by (unfold is_u64, u64_mod; lia). lia.
Qed.

(** A version does not empty the container. *)
Lemma version_keeps_pairs (s : state (counting_env 1)) :
  collisions_container s <> [] ->
  collisions_container (fst (fst (version (counting_env 1) 0 0 s))) <> [].
Proof.
  intros Hs.
  apply (version_invariant (counting_env 1) 0 0 (fun s => collisions_container s <> []));
    [|exact Hs].
  intros s1 n1 Hs1. pose proof (attempt_keeps (counting_env 1) 0 0 s1 n1) as H.
  destruct (attempt (counting_env 1) 0 0 s1 n1) as [[s2 n2] found]. cbn [fst].
  destruct H as [_ [-> | (p & -> & _)]]; [exact Hs1 | discriminate].
Qed.

(** The main loop goes through a version as long as collisions are missing. *)
Lemma versions_loop_step {A_t B_t C_t : Type} (E : @Env A_t B_t C_t) a0 b0 k (s : state E) :
  n_collisions s < n_needed_collisions ->
  versions_loop E a0 b0 (S k) s = versions_loop E a0 b0 k (fst (fst (version E a0 b0 s))).
Proof.
  intros Hfew. cbn [versions_loop].
  destruct (Z.ltb_spec (n_collisions s) n_needed_collisions) as [_|Hge]; [reflexivity | lia].
Qed.

(** The main loop of the run ends after 262144 versions, with pairs in the
    container. *)
Lemma versions_loop_flat : forall (k : nat) q (s : state (counting_env 1)),
  Pb s = flat_problem -> rng s = 5 * q + 1 -> length (dict s) = 1%nat ->
  n_collisions s = 4 * q -> collisions_container s <> [] ->
  0 <= q -> q + Z.of_nat k = 262144 ->
  forall extra : nat,
  exists s', versions_loop (counting_env 1) 0 0 (k + extra) s = Some s' /\
             collisions_container s' <> [].
Proof.
  induction k as [|k IH]; intros q s HPb Hrng Hlen Hnc Hcont Hq Hk extra.
  - assert (q = 262144) by lia. subst q. exists s. split; [|exact Hcont].
    destruct (0 + extra)%nat; cbn [versions_loop]; rewrite Hnc; reflexivity.
  - change (S k + extra)%nat with (S (k + extra)). cbn [versions_loop].
    destruct (Z.ltb_spec (n_collisions s) n_needed_collisions) as [_|Hge];
      [|unfold n_needed_collisions in Hge; lia].
    pose proof (version_flat s q HPb Hrng Hlen ltac:(lia) ltac:(lia)) as Hv.
    cbv zeta in Hv. destruct Hv as (HPb' & Hrng' & Hlen' & Hnc').
    apply (IH (q + 1)); try assumption; try lia.
    apply version_keeps_pairs, Hcont.
Qed.

Lemma flat_first_version :
  collisions_container
    (fst (fst (version (counting_env 1) 0 0
                 (initial_state (counting_env 1) 0 1 (sdict_create 1) flat_problem))))
  = [(1, 4); (1, 2)].
Proof. vm_compute. reflexivity. Qed.

Lemma flat_run_ends (extra : nat) :
  exists s',
    versions_loop (counting_env 1) 0 0 (Z.to_nat 262144 + extra)
      (initial_state (counting_env 1) 0 1 (sdict_create 1) flat_problem) = Some s' /\
    collisions_container s' <> [].
Proof.
  replace (Z.to_nat 262144 + extra)%nat with (S (Z.to_nat 262143 + extra)) by lia.
  rewrite versions_loop_step by reflexivity.
  pose proof (version_flat (initial_state (counting_env 1) 0 1 (sdict_create 1) flat_problem) 0
                eq_refl eq_refl eq_refl ltac:(lia) ltac:(cbn; lia)) as Hv.
  cbv zeta in Hv. destruct Hv as (HPb & Hrng & Hlen & Hnc).
  apply (versions_loop_flat (Z.to_nat 262143) 1 _ HPb Hrng Hlen); [exact Hnc| |lia|lia].
  rewrite flat_first_version. discriminate.
Qed.

Lemma container_holds_claws_witness :
  collisions_container
    (fst (fst (version (counting_env 1) 0 0
                 (initial_state (counting_env 1) 0 1 (sdict_create 1) flat_problem))))
  = [(1, 4); (1, 2)] /\
  (forall extra : nat, exists s',
     versions_loop (counting_env 1) 0 0 (Z.to_nat 262144 + extra)
       (initial_state (counting_env 1) 0 1 (sdict_create 1) flat_problem) = Some s' /\
     collisions_container s' <> []) /\
  (same_functions flat_problem
     (Pb (fst (fst (version (counting_env 1) 0 0
                      (initial_state (counting_env 1) 0 1 (sdict_create 1) flat_problem))))) /\
   Forall (claw flat_problem)
     (collisions_container
        (fst (fst (version (counting_env 1) 0 0
                     (initial_state (counting_env 1) 0 1 (sdict_create 1) flat_problem)))))) /\
  (forall versions s',
     versions_loop (counting_env 1) 0 0 versions
       (initial_state (counting_env 1) 0 1 (sdict_create 1) flat_problem) = Some s' ->
     Forall (claw flat_problem) (collisions_container s')).
Proof.
  split; [exact flat_first_version|]. split; [exact flat_run_ends|].
  apply (container_holds_claws (counting_env 1) 0 0 flat_problem
           (initial_state (counting_env 1) 0 1 (sdict_create 1) flat_problem)).
  - intros pb r. repeat split.
  - reflexivity.
  - repeat split.
  - constructor.
Defined.

Lemma collision_zero_slots_never_returns_witness :
  (forall s : state (counting_env 0),
     snd (version (counting_env 0) 0 0 s) = [] /\
     n_collisions (fst (fst (version (counting_env 0) 0 0 s))) = n_collisions s) /\
  forall versions,
    collision (counting_env 0) 0 0 0 1 (sdict_create 0) versions five_problem = None.
Proof.
  apply (collision_zero_slots_never_returns (counting_env 0) 0 0 0 1 (sdict_create 0) five_problem).
  reflexivity.
Defined.

End SequentialFacts.

(** ** The sanity test and the demonstration: properties *)

Module DemoFacts.
Import Sequential.

Section SerializationFacts.
Context {C_t Rng : Type}.
Variable D : Domain C_t Rng.

Lemma after_draws_S i prng :
  after_draws D (S i) prng = after_draws D i (snd (dom_randomize D prng)).
Proof.
  unfold after_draws. induction i as [|i IH]; [reflexivity|].
  rewrite Nat.iter_succ, IH. reflexivity.
Qed.

Lemma drawn_S i prng : drawn D (S i) prng = drawn D i (snd (dom_randomize D prng)).
Proof. unfold drawn. rewrite after_draws_S. reflexivity. Qed.

Lemma serialization_step_eq prng :
  serialization_step D prng =
    if round_trips D (drawn D 0 prng)
    then inl (after_draws D 1 prng)
    else inr (false, after_draws D 1 prng).
Proof.
  unfold serialization_step, round_trips, drawn, after_draws. cbn [Nat.iter nat_rect].
  destruct (dom_randomize D prng) as [orig p]. cbn [fst snd].
  destruct (dom_is_equal D _ orig); reflexivity.
Qed.

(** The loop of the test, run [n] times: it goes through when the [n] values
    drawn all come back from their serialization, and leaves with false at
    the first one that does not. *)
Lemma serialization_loop : forall (n : nat) prng,
  match for_nat (serialization_step D) n prng with
  | inl p =>
      p = after_draws D n prng /\
      forall i : nat, (i < n)%nat -> round_trips D (drawn D i prng) = true
  | inr (b, p) =>
      b = false /\
      exists i : nat, (i < n)%nat /\ round_trips D (drawn D i prng) = false /\
        (forall j : nat, (j < i)%nat -> round_trips D (drawn D j prng) = true) /\
        p = after_draws D (S i) prng
  end.
Proof.
  induction n as [|n IH]; intros prng.
  - cbn [for_nat]. split; [reflexivity|]. intros i Hi. lia.
  - cbn [for_nat]. rewrite serialization_step_eq.
    destruct (round_trips D (drawn D 0 prng)) eqn:H0.
    + specialize (IH (after_draws D 1 prng)).
      assert (H1 : after_draws D 1 prng = snd (dom_randomize D prng)) by reflexivity.
      rewrite H1 in *.
      destruct (for_nat (serialization_step D) n _) as [p|[b p]].
      * destruct IH as [-> Hall]. split; [rewrite after_draws_S; reflexivity|].
        intros i Hi. destruct i as [|i]; [exact H0|]. rewrite drawn_S. apply Hall. lia.
      * destruct IH as (-> & i & Hi & Hbad & Hgood & ->). split; [reflexivity|].
        exists (S i). split; [lia|]. rewrite drawn_S. split; [exact Hbad|]. split.
        -- intros j Hj. destruct j as [|j]; [exact H0|]. rewrite drawn_S. apply Hgood. lia.
        -- rewrite (after_draws_S (S i)). reflexivity.
    + split; [reflexivity|]. exists 0%nat. split; [lia|]. split; [exact H0|].
      split; [intros j Hj; lia | reflexivity].
Qed.

(** [is_serialize_inverse_of_unserialize] draws up to
    [n_tests = min(n_elements, 1024)] values.  It returns true exactly when
    each of them is equal to the value read back from its serialization, and
    then it has drawn [n_tests] values from the generator; otherwise it
    returns false at the first value that is not, without drawing further. *)
Theorem serialization_test_spec prng :
  let n_tests := Z.to_nat (Z.min (dom_n_elements D) 1024) in
  (fst (is_serialize_inverse_of_unserialize D prng) = true <->
   forall i : nat, (i < n_tests)%nat -> round_trips D (drawn D i prng) = true) /\
  (fst (is_serialize_inverse_of_unserialize D prng) = true ->
   snd (is_serialize_inverse_of_unserialize D prng) = after_draws D n_tests prng) /\
  (fst (is_serialize_inverse_of_unserialize D prng) = false ->
   exists i : nat, (i < n_tests)%nat /\ round_trips D (drawn D i prng) = false /\
     (forall j : nat, (j < i)%nat -> round_trips D (drawn D j prng) = true) /\
     snd (is_serialize_inverse_of_unserialize D prng) = after_draws D (S i) prng).
Proof.
  cbv zeta. unfold is_serialize_inverse_of_unserialize. cbv zeta.
  rewrite for_loop_nat, Z_N_nat.
  pose proof (serialization_loop (Z.to_nat (Z.min (dom_n_elements D) 1024)) prng) as H.
  destruct (for_nat (serialization_step D) _ prng) as [p|[b p]]; cbn [fst snd].
  - destruct H as [-> Hall]. split; [split; [intros _; exact Hall | reflexivity]|].
    split; [reflexivity | discriminate].
  - destruct H as (-> & i & Hi & Hbad & Hgood & ->). split; [|split].
    + split; [discriminate|]. intros Hall. rewrite (Hall i Hi) in Hbad. discriminate.
    + discriminate.
    + intros _. exists i. repeat split; assumption.
Qed.

End SerializationFacts.

(** *** [IntDomain] and the function of the demonstration *)

Lemma u32_mod z : BasicDemo.u32 z = z mod 2 ^ 32.
Proof. unfold BasicDemo.u32. change 0xffffffff with (Z.ones 32). apply Z.land_ones. lia. Qed.

Lemma u32_range z : 0 <= BasicDemo.u32 z < 2 ^ 32.
Proof. rewrite u32_mod. apply Z.mod_pos_bound. lia. Qed.

Lemma int_round_trip x : 0 <= x < 2 ^ 32 -> BasicDemo.unserialize (BasicDemo.serialize x) = x.
Proof.
  intros Hx. unfold BasicDemo.unserialize, BasicDemo.serialize. cbn [take fold_right].
  change 0xff with (Z.ones 8). rewrite !Z.land_ones, !Z.shiftr_div_pow2 by lia.
  change (2 ^ 8) with 256. change (2 ^ 16) with (256 * 256). change (2 ^ 24) with (256 * 256 * 256).
  rewrite <- !Z.div_div by lia.
  pose proof (Z.div_mod x 256 ltac:(lia)) as H0.
  pose proof (Z.div_mod (x / 256) 256 ltac:(lia)) as H1.
  pose proof (Z.div_mod (x / 256 / 256) 256 ltac:(lia)) as H2.
  pose proof (Z.div_mod (x / 256 / 256 / 256) 256 ltac:(lia)) as H3.
  assert (Hq : x / 256 / 256 / 256 / 256 = 0).
  { rewrite !Z.div_div by lia. apply Z.div_small. change (2 ^ 32) with 4294967296 in Hx. lia. }
  rewrite Hq in H3. lia.
Qed.

(** [IntDomain] passes the sanity test.  A value of [unsigned int] is equal
    to what [unserialize] reads from the four bytes that [serialize] wrote,
    and so [is_serialize_inverse_of_unserialize] returns true on [IntDomain],
    whatever the generator draws. *)
Theorem int_domain_round_trip {Rng : Type} (rand : Rng -> Z * Rng) (prng : Rng) x :
  0 <= x < 2 ^ 32 ->
  BasicDemo.unserialize (BasicDemo.serialize x) = x /\
  Datatypes.length (BasicDemo.serialize x) = Z.to_nat BasicDemo.length /\
  fst (is_serialize_inverse_of_unserialize (BasicDemo.domain rand) prng) = true.
Proof.
  intros Hx. split; [apply int_round_trip; exact Hx|]. split; [reflexivity|].
  unfold is_serialize_inverse_of_unserialize. cbv zeta. rewrite for_loop_nat.
  pose proof (serialization_loop (BasicDemo.domain rand)
                (N.to_nat (Z.to_N (Z.min (dom_n_elements (BasicDemo.domain rand)) 1024))) prng) as H.
  destruct (for_nat _ _ prng) as [p|[b p]]; [reflexivity|].
  exfalso. destruct H as (_ & i & _ & Hbad & _).
  unfold round_trips, drawn in Hbad. cbn [BasicDemo.domain dom_randomize dom_serialize
    dom_unserialize dom_is_equal] in Hbad. unfold BasicDemo.randomize in Hbad.
  destruct (rand _) as [v p']. cbn [fst] in Hbad.
  rewrite int_round_trip in Hbad by apply u32_range.
  unfold BasicDemo.is_equal in Hbad. rewrite Z.eqb_refl in Hbad. discriminate.
Qed.

Lemma f_closed x : BasicDemo.f x = (42 * x * x + 1337) mod 2 ^ 32.
Proof.
  unfold BasicDemo.f. rewrite !u32_mod.
  rewrite Zmult_mod_idemp_l, Zplus_mod_idemp_l. reflexivity.
Qed.

Lemma f_odd x : Z.odd (BasicDemo.f x) = true.
Proof.
  rewrite f_closed, <- !Z.bit0_odd, Z.mod_pow2_bits_low by lia.
  rewrite Z.bit0_odd, Z.odd_add, !Z.odd_mul. reflexivity.
Qed.

Lemma odd_never_distinguished z d :
  Z.odd z = true -> 1 <= d <= 62 -> is_distinguished_point z (dp_mask d) = false.
Proof.
  intros Hodd Hd. unfold is_distinguished_point.
  rewrite SequentialFacts.dp_mask_eq by lia.
  destruct (Z.eqb_spec 0 (Z.land (2 ^ d - 1) z)) as [E|E]; [|reflexivity].
  exfalso. assert (Hb : Z.testbit (Z.land (2 ^ d - 1) z) 0 = true).
  { replace (2 ^ d - 1) with (Z.ones d) by (rewrite Z.ones_equiv; lia).
    rewrite Z.land_spec, Z.ones_spec_low, Z.bit0_odd, Hodd by lia. reflexivity. }
  rewrite <- E in Hb. cbn in Hb. discriminate.
Qed.

Lemma demo_like_never_distinguished (pb : Problem Z Z Z) :
  BasicDemo.demo_like pb -> never_distinguished pb.
Proof.
  intros (Hf & Hg & Hh) x. unfold dp. rewrite Hh. unfold BasicDemo.hash, iterate_once.
  destruct (extract_1_bit pb x =? 1); rewrite ?Hf, ?Hg;
    apply odd_never_distinguished; (apply f_odd || (unfold difficulty; lia)).
Qed.

Lemma demo_like_problem : BasicDemo.demo_like BasicDemo.problem.
Proof. repeat split. Qed.

(** The demonstration cannot end.  Every value of its function
    [f x = 42 * x * x + 1337] is odd, and the hash of [IntDomain] is the
    value itself: no value of [f] is a distinguished point at any difficulty
    from 1 on, the 9 of [collision] included.  So [collision], called on a
    problem with that [f] and that hash, finds no distinguished point and does
    not return, whatever the embeddings, the generator and the dictionary. *)
Theorem basic_demo_never_returns (E : @Env Z Z Z) pb a0 b0 c0 rng0 dict0 :
  BasicDemo.demo_like pb ->
  (forall pb r, BasicDemo.demo_like pb -> BasicDemo.demo_like (fst (update_embedding E pb r))) ->
  (forall x, Z.odd (BasicDemo.f x) = true /\
     forall d, 1 <= d <= 62 ->
       is_distinguished_point (BasicDemo.hash (BasicDemo.f x)) (dp_mask d) = false) /\
  (forall inp0 b, fst (fst (generate_dist_point pb inp0 b 0 difficulty)) = false) /\
  forall versions, collision E a0 b0 c0 rng0 dict0 versions pb = None.
Proof.
  intros Hdemo Hupd. split; [|split].
  - intros x. split; [apply f_odd|]. intros d Hd. apply odd_never_distinguished; [apply f_odd | exact Hd].
  - intros inp0 b.
    pose proof (SequentialFacts.generate_dist_point_general pb inp0 b difficulty
                  ltac:(unfold difficulty; lia)) as H.
    destruct (generate_dist_point pb inp0 b 0 difficulty) as [[[|] b'] L]; [|reflexivity].
    exfalso. destruct H as (HL & Hb' & Hdp & _). rewrite Hb' in Hdp. cbn [out] in Hdp.
    replace (Z.to_nat L) with (S (Z.to_nat L - 1)) in Hdp by lia.
    rewrite SequentialFacts.iterate_n_S in Hdp.
    pose proof (demo_like_never_distinguished pb Hdemo
                  (iterate_n pb (Z.to_nat L - 1) inp0)) as Hn.
    rewrite SequentialFacts.dp_mask_eq in Hn by (unfold difficulty; lia).
    apply SequentialFacts.dp_land in Hdp; [congruence | unfold difficulty; lia].
  - intros versions. unfold collision.
    rewrite (SequentialFacts.versions_loop_never E a0 b0
               (fun s => BasicDemo.demo_like (Pb s) /\ n_collisions s = 0)); [reflexivity | | |].
    + intros s [_ Hc]. rewrite Hc. unfold n_needed_collisions. lia.
    + intros s [Hn Hc]. apply SequentialFacts.version_invariant.
      * intros s1 n1 [Hn1 Hc1]. unfold attempt.
        destruct (randomize E (rng s1)) as [pre r].
        pose proof (SequentialFacts.generate_dist_point_general (Pb s1) pre (cells0 s1) difficulty
                      ltac:(unfold difficulty; lia)) as H.
        destruct (generate_dist_point (Pb s1) pre (cells0 s1) 0 difficulty) as [[[|] b'] L];
          [|cbn [negb fst]; split; assumption].
        exfalso. destruct H as (HL & Hb' & Hdp & _). rewrite Hb' in Hdp. cbn [out] in Hdp.
        replace (Z.to_nat L) with (S (Z.to_nat L - 1)) in Hdp by lia.
        rewrite SequentialFacts.iterate_n_S in Hdp.
        pose proof (demo_like_never_distinguished (Pb s1) Hn1
                      (iterate_n (Pb s1) (Z.to_nat L - 1) pre)) as Hnd.
        rewrite SequentialFacts.dp_mask_eq in Hnd by (unfold difficulty; lia).
        apply SequentialFacts.dp_land in Hdp; [congruence | unfold difficulty; lia].
      * split; cbn [Pb n_collisions]; [apply Hupd; exact Hn | exact Hc].
    + split; [exact Hdemo | reflexivity].
Qed.

Lemma int_domain_round_trip_witness :
  BasicDemo.unserialize (BasicDemo.serialize 305419896) = 305419896 /\
  Datatypes.length (BasicDemo.serialize 305419896) = Z.to_nat BasicDemo.length /\
  fst (is_serialize_inverse_of_unserialize
         (BasicDemo.domain (fun t : Z => (t * 2654435761, t + 1))) 1) = true.
Proof.
  apply (int_domain_round_trip (fun t : Z => (t * 2654435761, t + 1)) 1 305419896). lia.
Defined.

Lemma collision_needs_distinguished_points_witness :
  (forall inp0 b,
     fst (fst (generate_dist_point BasicDemo.problem inp0 b 0 difficulty)) = false /\
     snd (generate_dist_point BasicDemo.problem inp0 b 0 difficulty) = 20480) /\
  forall versions,
    collision (counting_env 1) 0 0 0 1 (sdict_create 1) versions BasicDemo.problem = None.
Proof.
  apply (SequentialFacts.collision_needs_distinguished_points (counting_env 1) 0 0 0 1
           (sdict_create 1) BasicDemo.problem).
  - intros pb r H. exact H.
  - apply demo_like_never_distinguished, demo_like_problem.
Defined.

Lemma basic_demo_never_returns_witness :
  (forall x, Z.odd (BasicDemo.f x) = true /\
     forall d, 1 <= d <= 62 ->
       is_distinguished_point (BasicDemo.hash (BasicDemo.f x)) (dp_mask d) = false) /\
  (forall inp0 b,
     fst (fst (generate_dist_point BasicDemo.problem inp0 b 0 difficulty)) = false) /\
  forall versions,
    collision (counting_env 1) 0 0 0 1 (sdict_create 1) versions BasicDemo.problem = None.
Proof.
  apply (basic_demo_never_returns (counting_env 1) BasicDemo.problem 0 0 0 1 (sdict_create 1)).
  - apply demo_like_problem.
  - intros pb r H. exact H.
Defined.

End DemoFacts.
